(** * Ligne d'influence: influence lines of continuous beams

    Shallow embedding of the numerical core of the repository
    (isostatique.cpp, travee.cpp, rapport_focau.cpp, hyperstatique.cpp and
    the area routines of traitement.cpp) together with the properties that
    the specification states about it and further properties of the code.

    Numeric model.  The C++ [float] and [double] values are modelled by the
    exact real numbers [R]: every arithmetic operation is the exact one, no
    rounding, no NaN and no infinity.  A [double] handed to a [float]
    parameter is handed over unchanged, which is exact for the binary32
    numbers; a division by zero, which gives NaN or an infinity in the code,
    has no meaning here.  The properties that state a definite value or the
    success of a construction therefore take the lengths, moduli and
    inertias that are divided by as positive (or non-zero), and the lengths
    as binary32 numbers where a [double] length is compared or combined
    with the [float] length of a span.  [int] values ([division],
    [nombre_travee]) are modelled by [Z]; loop counters and vector indices
    by [nat].  A [std::vector<double>] is a [list R]; [v[i]] is [nth i v 0],
    written [v.[i]]; [push_back] appends at the end.  Where the code reads
    a vector outside its bounds the constructors of a span and [trapeze]
    say so ([OutOfBounds]); the superposition methods of hyperstatique read
    inside their rows when every span has a positive length, which the
    properties about a constructed structure assume. *)

From Stdlib Require Import Reals Lra Lia List ZArith Bool Permutation Sorted.
Import ListNotations.

Open Scope R_scope.

(** ** Comparisons of the source, as boolean tests *)

Definition Rle_b (x y : R) : bool := if Rle_dec x y then true else false.
Definition Rlt_b (x y : R) : bool := if Rlt_dec x y then true else false.
Definition Req_b (x y : R) : bool := if Req_dec_T x y then true else false.

Notation "v .[ i ]" := (nth i v 0) (at level 1, left associativity,
                                    format "v .[ i ]").

(** Row [i] of a vector of vectors (of any depth). *)
Notation "m .{ i }" := (nth i m []) (at level 1, left associativity,
                                     format "m .{ i }").

(** A range-based [for] that also keeps a counter. *)
Definition enumerate {A : Type} (l : list A) : list (nat * A) :=
  combine (seq 0 (length l)) l.

(** [v[i] = x] on a vector (inside its bounds). *)
Fixpoint remplacer {A : Type} (i : nat) (x : A) (v : list A) : list A :=
  match v, i with
  | [], _ => []
  | _ :: reste, O => x :: reste
  | y :: reste, S i => y :: remplacer i x reste
  end.

(** ** Outcome of a call that may throw *)

(** The [throw] sites of the modelled code. *)
Inductive exception : Type :=
  (* isostatique::isostatique, variable inertia *)
  | Taille_I_varier          (* invalid_argument: "La taille de I_varier doit etre egale ..." *)
  | Derniere_position        (* invalid_argument: "La derniere position doit etre egale a la longueur ..." *)
  (* travee::travee, variable inertia *)
  | Position_superieure      (* invalid_argument: "... superieure a la longueur de la travee" *)
  | Position_negative        (* invalid_argument: "La position d'inertie variable est negative" *)
  | Nombre_positions         (* invalid_argument: "Le nombre de positions ... doit etre egal ..." *)
  | Positions_croissantes    (* invalid_argument: "... doivent etre strictement croissantes" *)
  (* hyperstatique::hyperstatique *)
  | Dimensions_incoherentes  (* invalid_argument: "Dimensions incoherentes ..." *)
  | Nombre_positif           (* invalid_argument: "Le nombre de travees et de divisions doit etre positif" *)
  (* traitement::trapeze *)
  | Mismatch_dimensions      (* runtime_error: "Mismatch between moments and abscisses dimensions" *)
  | Abscisses_not_sorted     (* runtime_error: "Abscisses must be sorted in ascending order" *)
  | Invalid_interval         (* runtime_error: "Invalid interval: non-positive height detected" *)
  | Invalid_area             (* runtime_error: "Invalid area calculation: NaN or infinite value" *)
  (* std::vector::reserve, in isostatique::alpha *)
  | Length_error.            (* length_error: the size asked for exceeds max_size() *)

(** A call returns a value, throws, or reads a vector outside its bounds
    (undefined behaviour in C++, kept apart from the documented errors). *)
Inductive outcome (A : Type) : Type :=
  | Ok (a : A)
  | Throw (e : exception)
  | OutOfBounds.

Arguments Ok {A} a.
Arguments Throw {A} e.
Arguments OutOfBounds {A}.

Definition bind {A B : Type} (m : outcome A) (k : A -> outcome B) : outcome B :=
  match m with
  | Ok a => k a
  | Throw e => Throw e
  | OutOfBounds => OutOfBounds
  end.

Notation "x <- m ;; k" := (bind m (fun x => k))
  (at level 61, m at next level, right associativity).

(** [v.reserve(n)] with an [int] n: a negative n, converted to the unsigned
    [size_type], exceeds [max_size()] and the call throws
    [std::length_error]. *)
Definition reserve (n : Z) : outcome unit :=
  if Z.ltb n 0 then Throw Length_error else Ok tt.

(** [for (j = 0; j < pos.size()-1; ++j) if (x >= pos[j] && x <= pos[j+1]) {...; break;}]:
    index of the first table segment that contains [x] (inclusive bounds).
    Every table that reaches these loops is non-empty (see the constructors),
    so [pos.size()-1] does not wrap around. *)
Definition premier_segment (pos : list R) (x : R) : option nat :=
  find (fun j => Rle_b pos.[j] x && Rle_b x pos.[S j]) (seq 0 (length pos - 1)).

(** ** isostatique.cpp: the simply supported span *)

Module isostatique.

Record t : Type := mk {
  E : R;                      (* Young modulus *)
  I : R;                      (* constant inertia *)
  I_varer : list R;           (* inertia table, empty for a constant inertia *)
  pos_I_varier : list R;      (* positions of the inertia table *)
  L : R;                      (* length *)
  division : Z                (* number of divisions *)
}.

(** isostatique(longueur, Young_module, Inertia, nb_division): the object
    that the constructor leaves when it returns.  Its initialiser list
    checks nothing; whether it returns is [construction] below. *)
Definition ctor (longueur Young_module Inertia : R) (nb_division : Z) : t :=
  mk Young_module Inertia [] [] longueur nb_division.

(** The call of that constructor.  Its body evaluates [alpha()], whose
    [reserve(division + 1)] throws for [nb_division <= -2]; this is its only
    failure path. *)
Definition construction (longueur Young_module Inertia : R) (nb_division : Z)
  : outcome t :=
  bind (reserve (nb_division + 1))
       (fun _ => Ok (ctor longueur Young_module Inertia nb_division)).

(** isostatique(longueur, Young_module, Inertia_vaier, position_Inertia,
    nb_division).  The member [I] is left uninitialised by the source and is
    never read when the table is non-empty; it is 0 here.  [back()] of an
    empty vector is an out-of-bounds read.  [longueur] is the [float]
    parameter and the positions are [double]s: the test on the last position
    compares them exactly.  The body ends with the call [alpha()], which
    throws for [nb_division <= -2]. *)
Definition ctor_var (longueur Young_module : R)
    (Inertia_vaier position_Inertia : list R) (nb_division : Z) : outcome t :=
  let '(I_varer, pos_I_varier) :=
    if Nat.eqb (length Inertia_vaier) 1
    then (let a := Inertia_vaier.[0] in ([a; a], [0; longueur]))
    else (Inertia_vaier, position_Inertia) in
  if negb (Nat.eqb (length I_varer) (length pos_I_varier)) then Throw Taille_I_varier
  else match pos_I_varier with
       | [] => OutOfBounds
       | _ :: _ =>
           if negb (Req_b (last pos_I_varier 0) longueur) then Throw Derniere_position
           else bind (reserve (nb_division + 1))
                  (fun _ => Ok (mk Young_module 0 I_varer pos_I_varier
                                   longueur nb_division))
       end.

Section Methods.
Variable self : t.

(** alpha(): the observation grid, its last point exactly [L]. *)
Definition alpha : list R :=
  map (fun i => (L self / IZR (division self)) * INR i)
      (seq 0 (Z.to_nat (division self)))
  ++ [L self].

(** T(sigma, abscisse): both vectors are built, one is returned. *)
Definition T (sigma : R) (abscisse : bool) : list R :=
  let '(T, coordonne) :=
    if Rle_b sigma (L self) then
      fold_left (fun '(T, coordonne) i =>
        if Rlt_b i sigma then (T ++ [(- i) / L self], coordonne ++ [i])
        else if Rlt_b sigma i then (T ++ [1 - i / L self], coordonne ++ [i])
        else if Req_b i sigma then
          (T ++ [(- i) / L self; 1 - i / L self], coordonne ++ [i; i])
        else (T, coordonne))
        alpha ([], [])
    else (repeat 0 (Z.to_nat (division self)), alpha) in
  if abscisse then coordonne else T.

(** Body of the loop of M(sigma): what the grid point [i] pushes. *)
Definition M_point (sigma i : R) : list R :=
  if Rle_b i sigma then [i * (1 - sigma / L self)]
  else if Rlt_b sigma i then [sigma * (1 - i / L self)]
  else [].

(** M(sigma) *)
Definition M (sigma : R) : list R :=
  if Rle_b sigma (L self) then flat_map (M_point sigma) alpha
  else repeat 0 (Z.to_nat (division self)).

Definition fonct_omega_prime (alpha I L E : R) : R :=
  (- L / (6 * E * I)) * alpha * (1 - alpha / L) * (2 - alpha / L).

Definition fonct_omega_secon (alpha I L E : R) : R :=
  L / (6 * E * I) * alpha * (1 - alpha * alpha / (L * L)).

(** omega_prime(): in the variable case a grid point that lies in no segment
    contributes no entry. *)
Definition omega_prime : list R :=
  match I_varer self with
  | [] => map (fun i => - i * (L self - i) * (2 * L self - i)
                         / (6 * E self * I self * L self)) alpha
  | _ :: _ =>
      flat_map (fun i =>
        match premier_segment (pos_I_varier self) i with
        | Some j => [fonct_omega_prime i (I_varer self).[j] (L self) (E self)]
        | None => []
        end) alpha
  end.

Definition omega_second : list R :=
  match I_varer self with
  | [] => map (fun i => i * (L self - i) * (L self + i)
                         / (6 * E self * I self * L self)) alpha
  | _ :: _ =>
      flat_map (fun i =>
        match premier_segment (pos_I_varier self) i with
        | Some j => [fonct_omega_secon i (I_varer self).[j] (L self) (E self)]
        | None => []
        end) alpha
  end.

(** The two rotation formulas and the two deflection formulas, shared by the
    constant and the variable case of the source. *)
Definition ohm_gauche (sigma L E I i : R) : R :=
  ((L - i) * (L + i) - 3 * (L - sigma) ^ 2) * i / (6 * E * I * L).
Definition ohm_droite (sigma L E I i : R) : R :=
  - (i * (2 * L - i) - 3 * sigma ^ 2) * (L - i) / (6 * E * I * L).
Definition F_gauche (sigma L E I i : R) : R :=
  - (i * (L - sigma) / (6 * E * I * L)) * (sigma * (2 * L - sigma) - i ^ 2).
Definition F_droite (sigma L E I i : R) : R :=
  - (sigma * (L - i) / (6 * E * I * L)) * (i * (2 * L - i) - sigma ^ 2).

(** fonct_OMEGA: [ohm] starts at 0 and keeps it when no segment matches. *)
Definition fonct_OMEGA (sigma L E : R) (alpha pos_I_varier I_varer : list R)
  : list R :=
  if Rle_b sigma L then
    map (fun i =>
      if Rle_b i sigma then
        match premier_segment pos_I_varier i with
        | Some j => ohm_gauche sigma L E I_varer.[j] i
        | None => 0
        end
      else if Rlt_b sigma i then
        match premier_segment pos_I_varier i with
        | Some j => ohm_droite sigma L E I_varer.[j] i
        | None => 0
        end
      else 0) alpha
  else repeat 0 (length alpha).

Definition fonct_V (sigma L E : R) (alpha pos_I_varier I_varer : list R)
  : list R :=
  if Rle_b sigma L then
    map (fun i =>
      if Rle_b i sigma then
        match premier_segment pos_I_varier i with
        | Some j => F_gauche sigma L E I_varer.[j] i
        | None => 0
        end
      else
        match premier_segment pos_I_varier i with
        | Some j => F_droite sigma L E I_varer.[j] i
        | None => 0
        end) alpha
  else repeat 0 (length alpha).

(** OMEGA(sigma) *)
Definition OMEGA (sigma : R) : list R :=
  match I_varer self with
  | [] =>
      if Rle_b sigma (L self) then
        map (fun i =>
          if Rle_b i sigma then ohm_gauche sigma (L self) (E self) (I self) i
          else if Rlt_b sigma i then ohm_droite sigma (L self) (E self) (I self) i
          else 0) alpha
      else repeat 0 (length alpha)
  | _ :: _ =>
      fonct_OMEGA sigma (L self) (E self) alpha (pos_I_varier self) (I_varer self)
  end.

(** V(sigma) *)
Definition V (sigma : R) : list R :=
  match I_varer self with
  | [] =>
      if Rle_b sigma (L self) then
        map (fun i =>
          if Rle_b i sigma then F_gauche sigma (L self) (E self) (I self) i
          else F_droite sigma (L self) (E self) (I self) i) alpha
      else repeat 0 (length alpha)
  | _ :: _ =>
      fonct_V sigma (L self) (E self) alpha (pos_I_varier self) (I_varer self)
  end.

(** The surfaces: one row per load position of the grid. *)
Definition effort_tranchant : list (list R) := map (fun i => T i false) alpha.
Definition abscisse_effort_tranchant : list (list R) := map (fun i => T i true) alpha.
Definition moment_flechissant : list (list R) := map M alpha.
Definition rotation : list (list R) := map OMEGA alpha.
Definition fleche : list (list R) := map V alpha.

End Methods.

End isostatique.

(** ** travee.cpp: a span and its flexibility coefficients *)

Module travee.

(** [travee] derives from [isostatique] and declares members of its own;
    [pos_I_varier] and [I_varer] are distinct from the private members of the
    same names of the base class. *)
Record t : Type := mk {
  base : isostatique.t;
  Young : R;
  longueur : R;
  Inertie : R;
  pos_I_varier : list R;
  I_varer : list R
}.

(** travee(L, E, I, nb_division): the object that the constructor leaves
    when it returns. *)
Definition ctor (L E I : R) (nb_division : Z) : t :=
  mk (isostatique.ctor L E I nb_division) E L I [] [].

(** The call of that constructor: the base constructor runs first and is
    the only part that can fail. *)
Definition construction (L E I : R) (nb_division : Z) : outcome t :=
  bind (isostatique.construction L E I nb_division)
       (fun _ => Ok (ctor L E I nb_division)).

(** First loop of the variable-inertia constructor. *)
Fixpoint verifier_positions (L : R) (pos_I_varier : list R) : option exception :=
  match pos_I_varier with
  | [] => None
  | p :: reste =>
      if Rlt_b L p then Some Position_superieure
      else if Rlt_b p 0 then Some Position_negative
      else verifier_positions L reste
  end.

(** Last loop: some [pos[i] >= pos[i+1]] with [i < pos.size()-1]. *)
Definition non_croissantes (pos_I_varier : list R) : bool :=
  existsb (fun i => Rle_b pos_I_varier.[S i] pos_I_varier.[i])
          (seq 0 (length pos_I_varier - 1)).

(** travee(L, E, I, pos_I_varier, nb_division): the base constructor runs
    first, the members are initialised from the PARAMETERS, then the body
    checks the parameters.  [Inertie] is left uninitialised by the source
    (0 here; it is read only when the table is empty).  The last loop is
    reached with a non-empty [pos_I_varier] only: an empty one has either
    failed in the base constructor or fails the size check. *)
Definition ctor_var (L E : R) (I pos_I_varier : list R) (nb_division : Z)
  : outcome t :=
  b <- isostatique.ctor_var L E I pos_I_varier nb_division ;;
  match verifier_positions L pos_I_varier with
  | Some e => Throw e
  | None =>
      if negb (Nat.eqb (length pos_I_varier) (length I)) then Throw Nombre_positions
      else if non_croissantes pos_I_varier then Throw Positions_croissantes
      else Ok (mk b E L 0 pos_I_varier I)
  end.

Section Methods.
Variable self : t.

(** [for (i = 0; i < pos_I_varier.size()-1; i++) acc += terme(i)] *)
Definition somme_segments (terme : nat -> R) : R :=
  fold_left (fun acc i => acc + terme i)
            (seq 0 (length (pos_I_varier self) - 1)) 0.

Definition a : R :=
  match I_varer self with
  | [] => longueur self / (3 * Young self * Inertie self)
  | _ :: _ =>
      let b := - longueur self / (3 * Young self) in
      let a := somme_segments (fun i =>
        (1 / (I_varer self).[i]) *
        ((1 - (pos_I_varier self).[S i] / longueur self) ^ 3
         - (1 - (pos_I_varier self).[i] / longueur self) ^ 3)) in
      a * b
  end.

Definition B (x l : R) : R := x ^ 2 / (2 * l) - x ^ 3 / (3 * l ^ 2).

Definition b : R :=
  match I_varer self with
  | [] => longueur self / (6 * Young self * Inertie self)
  | _ :: _ =>
      let b := somme_segments (fun i =>
        (1 / (I_varer self).[i]) *
        (B (pos_I_varier self).[S i] (longueur self)
         - B (pos_I_varier self).[i] (longueur self))) in
      let a := 1 / Young self in
      b * a
  end.

Definition c : R :=
  match I_varer self with
  | [] => longueur self / (3 * Young self * Inertie self)
  | _ :: _ =>
      let a := 1 / (Young self * longueur self ^ 2) in
      let c := somme_segments (fun i =>
        (1 / (I_varer self).[i]) *
        ((pos_I_varier self).[S i] ^ 3 - (pos_I_varier self).[i] ^ 3)) in
      c * a
  end.

End Methods.

End travee.

(** ** rapport_focau.cpp: the focal ratios *)

Module rapport_focau.

Record t : Type := mk {
  a : list R;
  b : list R;
  c : list R;
  nb_travee : Z
}.

Section Methods.
Variable self : t.

(** One turn of the loop of [phy()], on the pair (phy_premier, liste_Phy). *)
Definition phy_pas (st : R * list R) (i : nat) : R * list R :=
  let '(phy_premier, liste_Phy) := st in
  let phy_premier :=
    if Nat.eqb i 0 then phy_premier
    else (b self).[i] / ((a self).[i] + (c self).[i - 1]
                         - (b self).[i - 1] * phy_premier) in
  (phy_premier, liste_Phy ++ [phy_premier]).

(** phy(): [for (i = 0; i < nb_travee; ++i)] *)
Definition phy : list R :=
  snd (fold_left phy_pas (seq 0 (Z.to_nat (nb_travee self))) (0, [])).

(** One turn of the first loop of [phy_prime()]; [i] runs from [nb_travee]
    down to 1.  [phy_prime_premier] is assigned in the first turn before it
    is read. *)
Definition phy_prime_pas (st : R * list R) (i : nat) : R * list R :=
  let '(phy_prime_premier, liste_phy_prime) := st in
  let phy_prime_premier :=
    if Nat.eqb i (Z.to_nat (nb_travee self)) then 0
    else (b self).[i - 1] / ((c self).[i - 1] + (a self).[i]
                             - (b self).[i] * phy_prime_premier) in
  (phy_prime_premier, liste_phy_prime ++ [phy_prime_premier]).

(** [for (i = nb_travee; i > 0; --i)] *)
Definition descente : list nat := rev (seq 1 (Z.to_nat (nb_travee self))).

(** phy_prime(): the right-to-left pass, then the reversal loop. *)
Definition phy_prime : list R :=
  let liste_phy_prime := snd (fold_left phy_prime_pas descente (0, [])) in
  map (fun i => liste_phy_prime.[i - 1]) descente.

End Methods.

End rapport_focau.

(** ** hyperstatique.cpp: the continuous beam *)

Module hyperstatique.

Definition interpolate (m n x l : R) : R := m * (1 - x / l) + n * x / l.

Definition calcul_rotation (m n x l E I : R) : R :=
  - m * (2 * (l * l) - 6 * l * x + 3 * (x * x)) / (6 * E * I * l)
  - n * ((l * l) - 3 * (x * x)) / (6 * E * I * l).

Definition calcul_fleche (m n x l E I : R) : R :=
  - m * x * (l - x) * (2 * l - x) / (6 * E * I * l)
  - n * x * (l - x) * (l + x) / (6 * E * I * l).

Definition interpolate_effort_tranchant (m n l : R) : R := (- m + n) / l.

(** The members of the class that the modelled methods read or fill.  The
    [unique_ptr] members [I_var] and [pos_I_var] are null after the
    constant-inertia constructor. *)
Record t : Type := mk {
  L_tr : list R;
  E_tr : list R;
  I_tr : list R;
  division : Z;
  nombre_travee : Z;
  I_var : option (list (list R));
  pos_I_var : option (list (list R));
  iso_cache : list travee.t;
  phy : list R;
  phy_prime : list R;
  alpha : list (list R);
  GAUCHE_DROITE : list (list (list R));
  Mu_iso_total : list (list (list R));
  W_iso_total : list (list (list R));
  V_iso_total : list (list (list R));
  T_iso_total : list (list (list R));
  abscisse_T_iso_total : list (list (list R));
  Courbe_moment_en_travee : list (list (list R));
  Courbe_rotation_en_travee : list (list (list R));
  Courbe_fleche_en_travee : list (list (list R));
  Courbe_effort_tranchant_en_travee : list (list (list R));
  Abscisse_Courbe_effort_tranchant_en_travee : list (list (list R))
}.

(** [*p] of a member that the constructor has set. *)
Definition deref {A : Type} (p : option (list A)) : list A :=
  match p with Some v => v | None => [] end.

Section Methods.

(** The members set by the constructor's initialiser list. *)
Variables (L_tr E_tr I_tr : list R) (division nombre_travee : Z).
Variables (I_var pos_I_var : option (list (list R))).

(** [for (i = 0; i < nombre_travee; ++i)] and [for (j = 0; j <= division; ++j)] *)
Definition travees : list nat := seq 0 (Z.to_nat nombre_travee).
Definition positions : list nat := seq 0 (Z.to_nat (division + 1)).

(** mise_en_place(): the spans, built once; a constructor that fails stops
    the construction.  The [double] lengths, moduli and inertias are passed
    to [float] parameters of travee: the model passes them unchanged, which
    is what the code does for values that are binary32 numbers. *)
Definition mise_en_place : outcome (list travee.t) :=
  fold_left (fun cache i =>
    iso <- cache ;;
    tr <- match I_var, pos_I_var with
          | Some I_var, Some pos_I_var =>
              travee.ctor_var L_tr.[i] E_tr.[i] I_var.{i} pos_I_var.{i} division
          | _, _ => travee.construction L_tr.[i] E_tr.[i] I_tr.[i] division
          end ;;
    Ok (iso ++ [tr])) travees (Ok []).

(** [prod_list(liste, debut, fin)]: product of [liste[debut..fin]], 1 when
    [fin < debut]. *)
Definition prod_list (liste : list R) (debut : nat) (fin : Z) : R :=
  fold_left (fun resultat a => resultat * liste.[a])
            (seq debut (Z.to_nat (fin + 1 - Z.of_nat debut))) 1.

Definition abscisse_des_point (liste : list (list R)) : list R :=
  flat_map (fun i =>
    let a := fold_left (fun a conteur => a + L_tr.[conteur - 1]) (seq 1 i) 0 in
    map (fun alpha => alpha + a) liste.{i}) (seq 0 (length liste)).

Section Travees.

(** [iso_cache], once filled. *)
Variable iso : list travee.t.

(** abscisse(): the grid that each span computed in its constructor. *)
Definition abscisse : list (list R) :=
  map (fun i => isostatique.alpha (travee.base i)) iso.

Definition Mu_total := map (fun i => isostatique.moment_flechissant (travee.base i)) iso.
Definition W_total := map (fun i => isostatique.rotation (travee.base i)) iso.
Definition V_total := map (fun i => isostatique.fleche (travee.base i)) iso.
Definition T_total := map (fun i => isostatique.effort_tranchant (travee.base i)) iso.
Definition abscisse_T_total :=
  map (fun i => isostatique.abscisse_effort_tranchant (travee.base i)) iso.

Definition a_tr : list R := map travee.a iso.
Definition b_tr : list R := map travee.b iso.
Definition c_tr : list R := map travee.c iso.
Definition omega_prime_tr := map (fun i => isostatique.omega_prime (travee.base i)) iso.
Definition omega_second_tr := map (fun i => isostatique.omega_second (travee.base i)) iso.

Definition rap : rapport_focau.t := rapport_focau.mk a_tr b_tr c_tr nombre_travee.

(** The focal ratios, once computed. *)
Variables phy phy_prime : list R.

Definition moment_au_appuit_travee_charger_gauche : list (list R) :=
  map (fun i =>
    map (fun j =>
      let Om_prime := omega_prime_tr.{i}.[j] in
      let Om_second := omega_second_tr.{i}.[j] in
      let phyVal := phy.[i] in
      let phyPrimeVal := phy_prime.[i] in
      (phyVal / b_tr.[i]) *
      ((Om_prime + Om_second * phyPrimeVal) / (1 - phyVal * phyPrimeVal)))
      positions) travees.

Definition moment_au_appuit_travee_charger_droite : list (list R) :=
  map (fun i =>
    map (fun j =>
      let Om_prime := omega_prime_tr.{i}.[j] in
      let Om_second := omega_second_tr.{i}.[j] in
      let phyVal := phy.[i] in
      let phyPrimeVal := phy_prime.[i] in
      - (phyPrimeVal / b_tr.[i]) *
      ((Om_prime * phyVal + Om_second) / (1 - phyVal * phyPrimeVal)))
      positions) travees.

(** m_appuis_gauche(index_travee): supports 0 .. index_travee. *)
Definition m_appuis_gauche (index_travee : nat) : list (list R) :=
  let moment_gauche := moment_au_appuit_travee_charger_gauche in
  map (fun i =>
    let p := prod_list phy i (Z.of_nat index_travee - 1) in
    map (fun j => powerRZ (-1) (Z.of_nat index_travee - Z.of_nat i) * p * j)
        moment_gauche.{index_travee})
    (seq 0 (index_travee + 1)).

(** m_appuis_droite(index_travee): supports index_travee+1 .. nombre_travee;
    [i] and [g] run together. *)
Definition m_appuis_droite (index_travee : nat) : list (list R) :=
  let moment_droite := moment_au_appuit_travee_charger_droite in
  map (fun g =>
    let p := prod_list phy_prime (index_travee + 1) (Z.of_nat g) in
    map (fun j => powerRZ (-1) (Z.of_nat index_travee - Z.of_nat g) * p * j)
        moment_droite.{index_travee})
    (seq index_travee (Z.to_nat nombre_travee - index_travee)).

Definition tr_m_appuis_gauche := map m_appuis_gauche travees.
Definition tr_m_appuis_droite := map m_appuis_droite travees.

Definition tr_G_D : list (list (list R)) :=
  let gauche := tr_m_appuis_gauche in
  let droite := tr_m_appuis_droite in
  map (fun i => gauche.{i} ++ droite.{i}) travees.

End Travees.

(** The caches that the superposition reads. *)
Variable alpha : list (list R).
Variable GAUCHE_DROITE : list (list (list R)).
Variables Mu_iso_total W_iso_total V_iso_total : list (list (list R)).
Variables T_iso_total abscisse_T_iso_total : list (list (list R)).

(** M_flechissant(): one task per observed span, joined in span order.
    [Mut[j]] is read for every j <= division.  With a positive length the
    row has division+1 entries and the read is inside it; with a negative
    length the row has only division entries (see M) and the read of the
    code is outside it, which [nth] does not tell. *)
Definition M_flechissant : list (list (list R)) :=
  map (fun index_travee =>
    let travee_length := L_tr.[index_travee] in
    map (fun '(conteur_de_section, section) =>
      let Mut := Mu_iso_total.{index_travee}.{conteur_de_section} in
      flat_map (fun i =>
        map (fun j =>
          let moment_interpolation :=
            interpolate GAUCHE_DROITE.{i}.{index_travee}.[j]
                        GAUCHE_DROITE.{i}.{index_travee + 1}.[j]
                        section travee_length in
          if Nat.eqb index_travee i then Mut.[j] + moment_interpolation
          else moment_interpolation) positions) travees)
      (enumerate alpha.{index_travee})) travees.

(** The scan of W_rotaion and V_fleche: no [break], so the LAST segment that
    contains [x] sets [travee_I]; none leaves it as it was. *)
Definition chercher_inertie (index_travee : nat) (x travee_I : R) : R :=
  fold_left (fun travee_I k =>
    if Rle_b (deref pos_I_var).{index_travee}.[k] x
       && Rle_b x (deref pos_I_var).{index_travee}.[S k]
    then (deref I_var).{index_travee}.[k] else travee_I)
    (seq 0 (length (deref pos_I_var).{index_travee} - 1)) travee_I.

Definition I_tr_empty : bool := match I_tr with [] => true | _ :: _ => false end.

(** W_rotaion(): the local [travee_I] lives through all the loops of one
    observed span, so it is threaded with the row under construction. *)
Definition W_rotaion : list (list (list R)) :=
  map (fun index_travee =>
    let travee_length := L_tr.[index_travee] in
    let travee_E := E_tr.[index_travee] in
    let travee_I := if I_tr_empty then 0 else I_tr.[index_travee] in
    snd (fold_left (fun '(travee_I, rot_travee) section =>
      let Rot := W_iso_total.{index_travee}.{section} in
      let '(travee_I, hyp_rot) :=
        fold_left (fun '(travee_I, hyp_rot) i =>
          if Nat.eqb index_travee i then
            fold_left (fun '(travee_I, hyp_rot) j =>
              let travee_I :=
                if I_tr_empty
                then chercher_inertie index_travee alpha.{index_travee}.[j] travee_I
                else travee_I in
              let rotation_val :=
                calcul_rotation GAUCHE_DROITE.{i}.{index_travee}.[j]
                                GAUCHE_DROITE.{i}.{index_travee + 1}.[j]
                                alpha.{index_travee}.[j]
                                travee_length travee_E travee_I in
              (travee_I, hyp_rot ++ [Rot.[j] + rotation_val]))
              positions (travee_I, hyp_rot)
          else
            (travee_I,
             hyp_rot ++ map (fun j =>
               calcul_rotation GAUCHE_DROITE.{i}.{index_travee}.[j]
                               GAUCHE_DROITE.{i}.{index_travee + 1}.[j]
                               alpha.{index_travee}.[j]
                               travee_length travee_E travee_I) positions))
          travees (travee_I, []) in
      (travee_I, rot_travee ++ [hyp_rot]))
      positions (travee_I, []))) travees.

(** V_fleche(): as W_rotaion, but the scan runs for every loaded span. *)
Definition V_fleche : list (list (list R)) :=
  map (fun index_travee =>
    let travee_length := L_tr.[index_travee] in
    let travee_E := E_tr.[index_travee] in
    let travee_I := if I_tr_empty then 0 else I_tr.[index_travee] in
    snd (fold_left (fun '(travee_I, rot_travee) section =>
      let Rot := V_iso_total.{index_travee}.{section} in
      let '(travee_I, hyp_rot) :=
        fold_left (fun '(travee_I, hyp_rot) i =>
          fold_left (fun '(travee_I, hyp_rot) j =>
            let travee_I :=
              if I_tr_empty
              then chercher_inertie index_travee alpha.{index_travee}.[j] travee_I
              else travee_I in
            let fleche_val :=
              calcul_fleche GAUCHE_DROITE.{i}.{index_travee}.[j]
                            GAUCHE_DROITE.{i}.{index_travee + 1}.[j]
                            alpha.{index_travee}.[j]
                            travee_length travee_E travee_I in
            (travee_I,
             hyp_rot ++ [if Nat.eqb index_travee i then Rot.[j] + fleche_val
                         else fleche_val]))
            positions (travee_I, hyp_rot))
          travees (travee_I, []) in
      (travee_I, rot_travee ++ [hyp_rot]))
      positions (travee_I, []))) travees.

(** Pour_T_hyp(number): the local copy [coo] of [alpha] has its row
    [index_travee] overwritten at every section when [index_travee == number]. *)
Definition Pour_T_hyp (number : nat) : list (list (list R)) :=
  map (fun index_travee =>
    let abscisse_T := abscisse_T_iso_total.{index_travee} in
    map (fun k =>
      let coo :=
        if Nat.eqb index_travee number
        then remplacer index_travee abscisse_T.{k} alpha
        else alpha in
      abscisse_des_point coo) positions) travees.

(** T_effort_tranchant(get_all_abscisse): [compteur] walks through the
    isostatic row, two samples being consumed at the load point.  With a
    positive length the row has division+2 entries and every [T[compteur]]
    is inside it; with a negative length the row has only division entries
    and the reads of the code go past its end, which [nth] does not tell. *)
Definition T_effort_tranchant (get_all_abscisse : bool) : list (list (list R)) :=
  let abscisse_hyp_effort_tranchant_total :=
    map (fun tr => (Pour_T_hyp tr).{tr}) travees in
  let hyp_effort_tranchant_total :=
    map (fun index_travee =>
      let travee_length := L_tr.[index_travee] in
      map (fun '(conteur_de_section, section) =>
        let T := T_iso_total.{index_travee}.{conteur_de_section} in
        flat_map (fun i =>
          if Nat.eqb index_travee i then
            snd (fold_left (fun '(compteur, hyp_T) j =>
              let moment_interpolation :=
                interpolate_effort_tranchant
                  GAUCHE_DROITE.{i}.{index_travee}.[j]
                  GAUCHE_DROITE.{i}.{index_travee + 1}.[j] travee_length in
              if Req_b section alpha.{index_travee}.[j] then
                ((compteur + 2)%nat,
                 hyp_T ++ [T.[compteur] + moment_interpolation;
                           T.[compteur + 1] + moment_interpolation])
              else
                ((compteur + 1)%nat,
                 hyp_T ++ [T.[compteur] + moment_interpolation]))
              positions (O, []))
          else
            map (fun j =>
              interpolate_effort_tranchant
                GAUCHE_DROITE.{i}.{index_travee}.[j]
                GAUCHE_DROITE.{i}.{index_travee + 1}.[j] travee_length)
              positions) travees)
        (enumerate alpha.{index_travee})) travees in
  if get_all_abscisse then abscisse_hyp_effort_tranchant_total
  else hyp_effort_tranchant_total.

End Methods.

(** initialiser_donnees(): every cache is filled eagerly, in this order.
    (The support-moment and support-reaction curves and [abscisse_total],
    which no other modelled method reads, are left out.) *)
Definition initialiser_donnees (L_tr E_tr I_tr : list R) (division nombre_travee : Z)
    (I_var pos_I_var : option (list (list R))) : outcome t :=
  iso <- mise_en_place L_tr E_tr I_tr division nombre_travee I_var pos_I_var ;;
  let rap_cache := rap nombre_travee iso in
  let phy := rapport_focau.phy rap_cache in
  let phy_prime := rapport_focau.phy_prime rap_cache in
  let alpha := abscisse iso in
  let GAUCHE_DROITE := tr_G_D division nombre_travee iso phy phy_prime in
  let Mu_iso_total := Mu_total iso in
  let W_iso_total := W_total iso in
  let V_iso_total := V_total iso in
  let T_iso_total := T_total iso in
  let abscisse_T_iso_total := abscisse_T_total iso in
  Ok (mk L_tr E_tr I_tr division nombre_travee I_var pos_I_var iso
         phy phy_prime alpha GAUCHE_DROITE
         Mu_iso_total W_iso_total V_iso_total T_iso_total abscisse_T_iso_total
         (M_flechissant L_tr division nombre_travee alpha GAUCHE_DROITE Mu_iso_total)
         (W_rotaion L_tr E_tr I_tr division nombre_travee I_var pos_I_var
                    alpha GAUCHE_DROITE W_iso_total)
         (V_fleche L_tr E_tr I_tr division nombre_travee I_var pos_I_var
                   alpha GAUCHE_DROITE V_iso_total)
         (T_effort_tranchant L_tr division nombre_travee alpha GAUCHE_DROITE
                             T_iso_total abscisse_T_iso_total false)
         (T_effort_tranchant L_tr division nombre_travee alpha GAUCHE_DROITE
                             T_iso_total abscisse_T_iso_total true)).

(** Sizes as the constructors compare them. *)
Definition taille {A : Type} (v : list A) : Z := Z.of_nat (length v).

(** hyperstatique(tous_longueur_travee, tous_young_module, tous_Inertie,
    nb_division): constant inertia. *)
Definition ctor (tous_longueur_travee tous_young_module tous_Inertie : list R)
    (nb_division : Z) : outcome t :=
  let nombre_travee := taille tous_longueur_travee in
  if negb (Z.eqb (taille tous_longueur_travee) nombre_travee)
     || negb (Z.eqb (taille tous_young_module) nombre_travee)
     || negb (Z.eqb (taille tous_Inertie) nombre_travee)
  then Throw Dimensions_incoherentes
  else if Z.leb nombre_travee 0 || Z.leb nb_division 0 then Throw Nombre_positif
  else initialiser_donnees tous_longueur_travee tous_young_module tous_Inertie
                           nb_division nombre_travee None None.

(** hyperstatique(tous_longueur_travee, tous_young_module, tous_Inertie,
    tous_x_coords, nb_division): variable inertia.  The comparison of the
    sizes of the sub-vectors only writes to the error stream; a table of one
    value is then replaced by the constant two-point table. *)
Definition ctor_var (tous_longueur_travee tous_young_module : list R)
    (tous_Inertie tous_x_coords : list (list R)) (nb_division : Z) : outcome t :=
  let nombre_travee := taille tous_longueur_travee in
  if negb (Z.eqb (taille tous_longueur_travee) nombre_travee)
     || negb (Z.eqb (taille tous_young_module) nombre_travee)
     || negb (Z.eqb (taille tous_Inertie) nombre_travee)
     || negb (Z.eqb (taille tous_x_coords) nombre_travee)
  then Throw Dimensions_incoherentes
  else
    let '(I_var, pos_I_var) :=
      fold_left (fun '(I_var, pos_I_var) i =>
        if Nat.eqb (length tous_Inertie.{i}) 1 then
          let a := I_var.{i}.[0] in
          (remplacer i [a; a] I_var,
           remplacer i [0; tous_longueur_travee.[i]] pos_I_var)
        else (I_var, pos_I_var))
        (seq 0 (length tous_Inertie)) (tous_Inertie, tous_x_coords) in
    if Z.leb nombre_travee 0 || Z.leb nb_division 0 then Throw Nombre_positif
    else initialiser_donnees tous_longueur_travee tous_young_module []
                             nb_division nombre_travee (Some I_var) (Some pos_I_var).

End hyperstatique.

(** ** traitement.cpp: post-processing of the influence lines *)

Module traitement.

Definition size_moins_un {A : Type} (v : list A) : Z :=
  (Z.of_nat (length v) - 1) mod 2 ^ 64.

(** [v[i]], with the bounds of the vector made explicit. *)
Definition lire (v : list R) (i : nat) : outcome R :=
  match nth_error v i with
  | Some r => Ok r
  | None => OutOfBounds
  end.

(** std::is_sorted: no element is smaller than its predecessor. *)
Fixpoint is_sorted (x : list R) : bool :=
  match x with
  | [] => true
  | a :: reste =>
      match reste with
      | [] => true
      | b :: _ => negb (Rlt_b b a) && is_sorted reste
      end
  end.

(** The summation loop of trapeze, from index [i] on, with the running
    [aire] and [erreur_accumulee].  [fuel] bounds the number of turns;
    [None] means that the fuel ran out before the loop ended. *)
Fixpoint boucle_trapeze (fuel : nat) (x y : list R) (i : nat)
    (aire erreur_accumulee : R) : option (outcome (R * R)) :=
  if negb (Z.ltb (Z.of_nat i) (size_moins_un x)) then
    Some (Ok (aire, erreur_accumulee))
  else
    match fuel with
    | O => None
    | S fuel =>
        match lire x (i + 1), lire x i with
        | Ok x1, Ok x0 =>
            let hauteur := x1 - x0 in
            if Rle_b hauteur 0 then Some (Throw Invalid_interval)
            else
              match lire y i, lire y (i + 1) with
              | Ok base1, Ok base2 =>
                  let aire_trapeze := (base1 + base2) * hauteur / 2 in
                  let temp := aire + aire_trapeze in
                  boucle_trapeze fuel x y (S i) temp
                    (erreur_accumulee + ((aire - temp) + aire_trapeze))
              | _, _ => Some OutOfBounds
              end
        | _, _ => Some OutOfBounds
        end
    end.

(** trapeze(x, y).  A turn of the loop reads [x[i+1]], so the loop cannot
    run for more than [x.size()] turns; that is the fuel.  The final test
    [isnan(aire) || isinf(aire)] is always false on exact reals, so
    [Invalid_area] is never thrown in this model. *)
Definition trapeze (x y : list R) : option (outcome R) :=
  if negb (Nat.eqb (length x) (length y)) then Some (Throw Mismatch_dimensions)
  else if negb (is_sorted x) then Some (Throw Abscisses_not_sorted)
  else
    match boucle_trapeze (S (length x)) x y 0 0 0 with
    | Some (Ok (aire, erreur_accumulee)) => Some (Ok (aire + erreur_accumulee))
    | Some (Throw e) => Some (Throw e)
    | Some OutOfBounds => Some OutOfBounds
    | None => None
    end.

(** [input[i] >= 0] *)
Definition signe (v : R) : bool := Rle_b 0 v.

(** One turn of the loop of split_by_sign, on
    (result, current_sublist, current_sign). *)
Definition split_pas (st : list (list R) * list R * bool) (v : R)
  : list (list R) * list R * bool :=
  let '(result, current_sublist, current_sign) := st in
  let element_sign := signe v in
  if negb (Bool.eqb element_sign current_sign)
  then (result ++ [current_sublist], [v], element_sign)
  else (result, current_sublist ++ [v], current_sign).

(** split_by_sign(input) *)
Definition split_by_sign (input : list R) : list (list R) :=
  match input with
  | [] => []
  | premier :: reste =>
      let '(result, current_sublist, _) :=
        fold_left split_pas reste ([], [premier], signe premier) in
      match current_sublist with
      | [] => result
      | _ :: _ => result ++ [current_sublist]
      end
  end.

End traitement.

(** ** Further functions of the same files *)

Module isostatique_autres.

(** inertie_interpolee(): the inertia at every grid point, by linear
    interpolation in the first table segment that contains the point; a
    point that lies in no segment contributes no entry. *)
Definition inertie_interpolee (self : isostatique.t) : list R :=
  let points := isostatique.alpha self in
  match isostatique.I_varer self with
  | [] => repeat (isostatique.I self) (length points)
  | _ :: _ =>
      flat_map (fun x =>
        match premier_segment (isostatique.pos_I_varier self) x with
        | Some i =>
            let x0 := (isostatique.pos_I_varier self).[i] in
            let x1 := (isostatique.pos_I_varier self).[S i] in
            let y0 := (isostatique.I_varer self).[i] in
            let y1 := (isostatique.I_varer self).[S i] in
            [y0 + (y1 - y0) * (x - x0) / (x1 - x0)]
        | None => []
        end) points
  end.

End isostatique_autres.

Module hyperstatique_autres.

(** sous_to_one(liste): the rows one after the other. *)
Definition sous_to_one (liste : list (list R)) : list R := concat liste.

(** courbe_M_appuit(): for every support j = 0 .. nombre_travee, the moments
    induced at j by the loads of span 0, then of span 1, and so on.  The
    reads [GAUCHE_DROITE[i][j]] are inside the bounds for the tables of
    tr_G_D (nombre_travee tables of nombre_travee + 1 rows). *)
Definition courbe_M_appuit (nombre_travee : Z)
    (GAUCHE_DROITE : list (list (list R))) : list (list R) :=
  map (fun j =>
    sous_to_one (map (fun i => GAUCHE_DROITE.{i}.{j})
                     (hyperstatique.travees nombre_travee)))
    (seq 0 (Z.to_nat (nombre_travee + 1))).

End hyperstatique_autres.

Module traitement_autres.

(** sum(vecteur): Kahan summation, on the pair (sum, c). *)
Definition sum (vecteur : list R) : R :=
  fst (fold_left (fun '(sum, c) i =>
         let y := i - c in
         let t := sum + y in
         (t, (t - sum) - y)) vecteur (0, 0)).

(** [static_cast<int>] of a [size_t] (32-bit two's complement). *)
Definition static_cast_int (n : Z) : Z := (n + 2 ^ 31) mod 2 ^ 32 - 2 ^ 31.

(** First loop of aire_M_appuit: [compteur] runs below the size of the row
    cast to [int]; the row is cut into pieces of [nombre_morceau + 1] values
    ([static_cast<size_t>] of the [int]); a last piece that is not full is
    dropped.  State: (pieces, div_1). *)
Definition decouper (nombre_morceau : Z) (ligne : list R) : list (list R) :=
  fst (fold_left (fun '(div_M_appuit_par_travee, div_1) v =>
         let div_1 := div_1 ++ [v] in
         if Z.eqb (Z.of_nat (length div_1)) ((nombre_morceau + 1) mod 2 ^ 64)
         then (div_M_appuit_par_travee ++ [div_1], [])
         else (div_M_appuit_par_travee, div_1))
       (firstn (Z.to_nat (static_cast_int (Z.of_nat (length ligne)))) ligne)
       ([], [])).

(** One turn of the second loop: the area of piece [i] over the grid
    [Alpha[compteur]], appended to [aire]; an error of trapeze ends the call. *)
Definition aire_pas (Alpha : list (list R))
    (acc : option (outcome (list R))) (ci : nat * list R)
  : option (outcome (list R)) :=
  let '(compteur, i) := ci in
  match acc with
  | Some (Ok aire) =>
      match nth_error Alpha compteur with
      | None => Some OutOfBounds
      | Some x =>
          match traitement.trapeze x i with
          | Some (Ok a) => Some (Ok (aire ++ [a]))
          | Some (Throw e) => Some (Throw e)
          | Some OutOfBounds => Some OutOfBounds
          | None => None
          end
      end
  | _ => acc
  end.

(** aire_M_appuit(numero_appuit), on the members [M_appuit] (the support
    moment curves), [Alpha] (the grids) and [nombre_morceau]. *)
Definition aire_M_appuit (M_appuit Alpha : list (list R)) (nombre_morceau : Z)
    (numero_appuit : nat) : option (outcome (list R)) :=
  match nth_error M_appuit numero_appuit with
  | None => Some OutOfBounds
  | Some ligne =>
      fold_left (aire_pas Alpha) (enumerate (decouper nombre_morceau ligne))
                (Some (Ok []))
  end.

(** The outcomes of aire_M_travee_section: the areas, one of its own three
    runtime errors, an error of trapeze, or a read outside a vector. *)
Inductive issue_section : Type :=
  | Aires (aires : list R)
  | Indices_invalides            (* runtime_error: "Indices invalides : ..." *)
  | Indices_hors_limites         (* runtime_error: "Indices hors limites de la courbe" *)
  | Mismatch_abscisses_moments   (* runtime_error: "Mismatch entre les dimensions ..." *)
  | Erreur_trapeze (e : exception)
  | Lecture_hors_bornes.

(** The reduction of a row longer than the grid: for every abscissa [i] the
    value of index [i * (moments.size() / abscisses.size())], brought back
    to the last index when it passes the end. *)
Definition reduire (abscisses moments : list R) : list R :=
  map (fun i =>
    let index := (i * (length moments / length abscisses))%nat in
    let index := if Nat.leb (length moments) index then (length moments - 1)%nat
                 else index in
    moments.[index]) (seq 0 (length abscisses)).

(** Removal of the points whose abscissa repeats the previous one, on
    (abscisses_uniques, moments_uniques); the first point is always kept. *)
Definition sans_doublons (abscisses_triees moments_tries : list R)
  : list R * list R :=
  fold_left (fun '(abscisses_uniques, moments_uniques) i =>
      if negb (Req_b abscisses_triees.[i] abscisses_triees.[i - 1])
      then (abscisses_uniques ++ [abscisses_triees.[i]],
            moments_uniques ++ [moments_tries.[i]])
      else (abscisses_uniques, moments_uniques))
    (seq 1 (length abscisses_triees - 1))
    ([abscisses_triees.[0]], [moments_tries.[0]]).

Section Tri.

(** [std::sort] of the indices 0 .. n-1 by the abscissa they point to: any
    implementation, as a function from the abscissas to the sorted indices
    (the order of equal abscissas is not specified). *)
Variable trier : list R -> list nat.

(** The body of the loop over the parts, for a part that is not empty: the
    abscissa of the value [i] of the part is [abscisses[i % abscisses.size()]]
    (a remainder by zero for an empty grid). *)
Definition aire_partie (abscisses partie : list R) : option (outcome R) :=
  match abscisses with
  | [] => Some OutOfBounds
  | _ :: _ =>
      let abscisses_partie :=
        map (fun i => abscisses.[i mod length abscisses]) (seq 0 (length partie)) in
      let moments_partie := partie in
      let indices := trier abscisses_partie in
      let abscisses_triees := map (fun i => abscisses_partie.[i]) indices in
      let moments_tries := map (fun i => moments_partie.[i]) indices in
      let '(abscisses_uniques, moments_uniques) :=
        sans_doublons abscisses_triees moments_tries in
      if Nat.ltb (length abscisses_uniques) 2 then Some (Ok 0)
      else traitement.trapeze abscisses_uniques moments_uniques
  end.

(** The loop over the parts: an empty part is skipped, an error of trapeze
    ends the call. *)
Definition aires_parties (abscisses : list R) (parties : list (list R))
  : option (outcome (list R)) :=
  fold_left (fun acc partie =>
    match acc with
    | Some (Ok aires) =>
        match partie with
        | [] => Some (Ok aires)
        | _ :: _ =>
            match aire_partie abscisses partie with
            | Some (Ok aire_partie) => Some (Ok (aires ++ [aire_partie]))
            | Some (Throw e) => Some (Throw e)
            | Some OutOfBounds => Some OutOfBounds
            | None => None
            end
        end
    | _ => acc
    end) parties (Some (Ok [])).

(** aire_M_travee_section(travee, section, courbe), on the members
    [nb_travee], [nombre_morceau] and [Alpha]. *)
Definition aire_M_travee_section (nb_travee nombre_morceau : Z)
    (Alpha : list (list R)) (travee section : Z)
    (courbe : list (list (list R))) : option issue_section :=
  if Z.ltb travee 0 || Z.leb nb_travee travee
     || Z.ltb section 0 || Z.ltb nombre_morceau section
  then Some Indices_invalides
  else
    match nth_error Alpha (Z.to_nat travee) with
    | None => Some Lecture_hors_bornes
    | Some abscisses =>
        if Z.leb (static_cast_int (Z.of_nat (length courbe))) travee
           || Z.leb (static_cast_int
                       (Z.of_nat (length courbe.{Z.to_nat travee}))) section
        then Some Indices_hors_limites
        else
          match nth_error courbe.{Z.to_nat travee} (Z.to_nat section) with
          | None => Some Lecture_hors_bornes
          | Some moments =>
              let moments :=
                if Nat.ltb (length abscisses) (length moments)
                then reduire abscisses moments else moments in
              if negb (Nat.eqb (length abscisses) (length moments))
              then Some Mismatch_abscisses_moments
              else
                match aires_parties abscisses (traitement.split_by_sign moments) with
                | Some (Ok []) => Some (Aires [0])
                | Some (Ok aires) => Some (Aires aires)
                | Some (Throw e) => Some (Erreur_trapeze e)
                | Some OutOfBounds => Some Lecture_hors_bornes
                | None => None
                end
          end
    end.

End Tri.

End traitement_autres.

(** * Vocabulary of the properties *)

(** A run of values of one sign [s]: non-empty, every value of sign [s]. *)
Definition uniforme (s : bool) (run : list R) : Prop :=
  run <> [] /\ forall v, In v run -> traitement.signe v = s.

(** All the values of a run have the same sign. *)
Definition meme_signe (run : list R) : Prop :=
  forall u v, In u run -> In v run -> traitement.signe u = traitement.signe v.

(** Sign of a run, read on its first value. *)
Definition signe_run (run : list R) : bool := traitement.signe (hd 0 run).

(** Consecutive runs have different signs: no two of them could be merged. *)
Fixpoint alternes (runs : list (list R)) : Prop :=
  match runs with
  | [] => True
  | r1 :: reste =>
      match reste with
      | [] => True
      | r2 :: _ => signe_run r1 <> signe_run r2 /\ alternes reste
      end
  end.

(** The runs of [l] when the run under construction is [cur], of sign [s]:
    the loop of split_by_sign read as a recursion on the rest of the input. *)
Fixpoint grouper (cur : list R) (s : bool) (l : list R) : list (list R) :=
  match l with
  | [] => [cur]
  | v :: l' =>
      if negb (Bool.eqb (traitement.signe v) s)
      then cur :: grouper [v] (traitement.signe v) l'
      else grouper (cur ++ [v]) s l'
  end.

(** A loop that pushes 0 at its first turn and then [G k previous]. *)
Definition pas_recurrence (G : nat -> R -> R) (st : R * list R) (k : nat)
  : R * list R :=
  let p := if Nat.eqb k 0 then 0 else G k (fst st) in (p, snd st ++ [p]).

(** The recurrences of the two passes of rapport_focau, the turn number of
    the loop as first argument (turn [k] of the backward pass handles the
    span [N - k - 1]). *)
Definition G_phy (self : rapport_focau.t) (i : nat) (p : R) : R :=
  (rapport_focau.b self).[i]
  / ((rapport_focau.a self).[i] + (rapport_focau.c self).[i - 1]
     - (rapport_focau.b self).[i - 1] * p).

Definition G_phy_prime (self : rapport_focau.t) (k : nat) (p : R) : R :=
  let N := Z.to_nat (rapport_focau.nb_travee self) in
  (rapport_focau.b self).[N - k - 1]
  / ((rapport_focau.c self).[N - k - 1] + (rapport_focau.a self).[N - k]
     - (rapport_focau.b self).[N - k] * p).

(** The grid point of index [i], as alpha() computes it. *)
Definition point (self : isostatique.t) (i : nat) : R :=
  if Nat.ltb i (Z.to_nat (isostatique.division self))
  then (isostatique.L self / IZR (isostatique.division self)) * INR i
  else isostatique.L self.

(** What one grid point [i] adds to the two vectors of T(sigma). *)
Definition T_point (self : isostatique.t) (sigma i : R) : list R :=
  if Rlt_b i sigma then [(- i) / isostatique.L self]
  else if Rlt_b sigma i then [1 - i / isostatique.L self]
  else [(- i) / isostatique.L self; 1 - i / isostatique.L self].

Definition coordonne_point (sigma i : R) : list R :=
  if Rlt_b i sigma then [i] else if Rlt_b sigma i then [i] else [i; i].

(** The moment at the observation point [x] under a unit load at [sigma]. *)
Definition moment_at (self : isostatique.t) (x sigma : R) : R :=
  if Rle_b x sigma then x * (1 - sigma / isostatique.L self)
  else sigma * (1 - x / isostatique.L self).

(** A value that a [float] holds: a binary32 number.  A [double] that is a
    binary32 number is unchanged when it is passed to a [float] parameter. *)
Definition binary32 (x : R) : Prop :=
  exists m e : Z,
    (Z.abs m < 2 ^ 24)%Z /\ (-149 <= e <= 104)%Z /\ x = IZR m * powerRZ 2 e.

(** A well-formed inertia table for a span of length [L]: as many positions
    as values, every position in [0, L], positions strictly increasing, the
    last position equal to [L]. *)
Definition table_valide (L : R) (I pos : list R) : Prop :=
  length pos = length I
  /\ (forall p, In p pos -> 0 <= p <= L)
  /\ (forall i, (S i < length pos)%nat -> pos.[i] < pos.[S i])
  /\ last pos 0 = L.

(** Number of shear samples that the grid points of [l] produce for a load
    at [section]: two at the load point, one elsewhere. *)
Fixpoint poids (section : R) (l : list R) : nat :=
  match l with
  | [] => 0
  | x :: l' => (if Req_b section x then 2 else 1) + poids section l'
  end.

(** Strictly increasing abscissas. *)
Definition strictement_croissante (x : list R) : Prop :=
  forall i, (S i < length x)%nat -> x.[i] < x.[S i].

(** The sum of the [n] trapezoids that start at the index [i]. *)
Fixpoint somme_trapezes (x y : list R) (i n : nat) : R :=
  match n with
  | O => 0
  | S n => (y.[i] + y.[S i]) * (x.[S i] - x.[i]) / 2 + somme_trapezes x y (S i) n
  end.

(** The spans that the constant-inertia constructor of a structure builds. *)
Definition travees_constantes (L E I : list R) (d : Z) : list travee.t :=
  map (fun i => travee.ctor L.[i] E.[i] I.[i] d) (seq 0 (length L)).

(** The sum of the lengths of the spans before the span [t]. *)
Definition somme_longueurs (L : list R) (t : nat) : R :=
  fold_right Rplus 0 (firstn t L).

(** What [std::sort] guarantees for the indices it returns: they are the
    indices 0 .. n-1 in some order, and no index comes before one whose
    abscissa is smaller. *)
Definition est_un_tri (cles : list R) (indices : list nat) : Prop :=
  Permutation indices (seq 0 (length cles))
  /\ forall a b, (a < b < length indices)%nat ->
       ~ cles.[nth b indices O] < cles.[nth a indices O].

(** A sort that meets this requirement, by insertion: the index [i] goes
    before the first index whose abscissa is greater. *)
Fixpoint inserer (cles : list R) (i : nat) (l : list nat) : list nat :=
  match l with
  | [] => [i]
  | j :: l' => if Rlt_b cles.[i] cles.[j] then i :: j :: l'
               else j :: inserer cles i l'
  end.

Definition tri_insertion (cles : list R) : list nat :=
  fold_right (inserer cles) [] (seq 0 (length cles)).

(** The area of a part of a row, laid over the first abscissas of the grid. *)
Definition aire_lobe (abscisses partie : list R) : R :=
  somme_trapezes abscisses partie 0 (length partie - 1).

(** The deflection and the rotation that the constant-inertia loops of V
    and OMEGA push for the grid point [x] and the argument [sigma]. *)
Definition fleche_at (self : isostatique.t) (x sigma : R) : R :=
  if Rle_b x sigma
  then isostatique.F_gauche sigma (isostatique.L self) (isostatique.E self)
         (isostatique.I self) x
  else isostatique.F_droite sigma (isostatique.L self) (isostatique.E self)
         (isostatique.I self) x.

Definition rotation_at (self : isostatique.t) (x sigma : R) : R :=
  if Rle_b x sigma
  then isostatique.ohm_gauche sigma (isostatique.L self) (isostatique.E self)
         (isostatique.I self) x
  else isostatique.ohm_droite sigma (isostatique.L self) (isostatique.E self)
         (isostatique.I self) x.

(** * Properties *)

(** ** Boolean comparisons *)

Lemma Rle_b_true (x y : R) : x <= y -> Rle_b x y = true.
Proof. intros H; unfold Rle_b; destruct (Rle_dec x y); [reflexivity | contradiction]. Qed.

Lemma Rle_b_false (x y : R) : y < x -> Rle_b x y = false.
Proof. intros H; unfold Rle_b; destruct (Rle_dec x y); [lra | reflexivity]. Qed.

Lemma Rlt_b_true (x y : R) : x < y -> Rlt_b x y = true.
Proof. intros H; unfold Rlt_b; destruct (Rlt_dec x y); [reflexivity | contradiction]. Qed.

Lemma Rlt_b_false (x y : R) : y <= x -> Rlt_b x y = false.
Proof. intros H; unfold Rlt_b; destruct (Rlt_dec x y); [lra | reflexivity]. Qed.

Lemma Req_b_true (x y : R) : x = y -> Req_b x y = true.
Proof. intros H; unfold Req_b; destruct (Req_dec_T x y); [reflexivity | contradiction]. Qed.

Lemma Req_b_false (x y : R) : x <> y -> Req_b x y = false.
Proof. intros H; unfold Req_b; destruct (Req_dec_T x y); [contradiction | reflexivity]. Qed.

(** The integers below 2^24 in absolute value are binary32 numbers. *)
Lemma binary32_entier (m : Z) : (Z.abs m < 2 ^ 24)%Z -> binary32 (IZR m).
Proof.
  intros H. exists m, 0%Z. split; [exact H|]. split; [lia|].
  cbn [powerRZ]. ring.
Qed.

Lemma Rle_b_spec (x y : R) : Rle_b x y = true <-> x <= y.
Proof.
  unfold Rle_b; destruct (Rle_dec x y); split; intros; auto; discriminate.
Qed.

Lemma Rlt_b_spec (x y : R) : Rlt_b x y = true <-> x < y.
Proof.
  unfold Rlt_b; destruct (Rlt_dec x y); split; intros; auto; discriminate.
Qed.

(** Decides every comparison between two numerals that occurs in the goal. *)
Ltac comparer :=
  repeat match goal with
  | |- context [Rle_b ?x ?y] =>
      first [ rewrite (Rle_b_true x y) by lra | rewrite (Rle_b_false x y) by lra ]
  | |- context [Rlt_b ?x ?y] =>
      first [ rewrite (Rlt_b_true x y) by lra | rewrite (Rlt_b_false x y) by lra ]
  | |- context [Req_b ?x ?y] =>
      first [ rewrite (Req_b_true x y) by lra | rewrite (Req_b_false x y) by lra ]
  end.

(** ** Vectors *)

Lemma nth_map_seq {A : Type} (f : nat -> A) (a n i : nat) (d : A) :
  (i < n)%nat -> nth i (map f (seq a n)) d = f (a + i)%nat.
Proof.
  intros H.
  rewrite (nth_indep _ d (f 0%nat)) by (rewrite length_map, length_seq; exact H).
  rewrite (map_nth f (seq a n) 0%nat i), seq_nth by exact H. reflexivity.
Qed.

Lemma map_nth_seq {A : Type} (l : list A) (d : A) :
  map (fun j => nth j l d) (seq 0 (length l)) = l.
Proof.
  induction l as [|x l IH]; simpl; [reflexivity|].
  f_equal. rewrite <- seq_shift, map_map. exact IH.
Qed.

Lemma nth_enumerate {A : Type} (l : list A) (k : nat) (d : A) :
  (k < length l)%nat -> nth k (enumerate l) (O, d) = (k, nth k l d).
Proof.
  intros H. unfold enumerate.
  rewrite combine_nth by (rewrite length_seq; reflexivity).
  rewrite seq_nth by exact H. reflexivity.
Qed.

Lemma length_enumerate {A : Type} (l : list A) : length (enumerate l) = length l.
Proof.
  unfold enumerate. rewrite length_combine, length_seq. apply Nat.min_id.
Qed.

(** A loop over [enumerate l] whose body depends on the counter only through
    the element at that index is a [map] over [l]. *)
Lemma map_enumerate {A B : Type} (G : nat -> A -> B) (H : A -> B) (l : list A) (d : A) :
  (forall k, (k < length l)%nat -> G k (nth k l d) = H (nth k l d)) ->
  map (fun '(k, x) => G k x) (enumerate l) = map H l.
Proof.
  intros E. unfold enumerate.
  assert (Gen : forall a, (forall k, (k < length l)%nat -> G (a + k)%nat (nth k l d) = H (nth k l d)) ->
                map (fun '(k, x) => G k x) (combine (seq a (length l)) l) = map H l).
  { clear E. induction l as [|x l IH]; intros a E; simpl; [reflexivity|].
    f_equal.
    - specialize (E 0%nat). simpl in E. rewrite Nat.add_0_r in E. apply E. lia.
    - apply IH. intros k Hk. specialize (E (S k)). simpl in E.
      rewrite Nat.add_succ_r in E. apply E. lia. }
  apply Gen. intros k Hk. apply E. exact Hk.
Qed.

(** Entry [i*m + j] of the concatenation of rows of the same length [m]. *)
Lemma nth_flat_map_seq {A : Type} (f : nat -> list A) (m n i j : nat) (d : A) :
  (forall k, length (f k) = m) -> (i < n)%nat -> (j < m)%nat ->
  nth (i * m + j) (flat_map f (seq 0 n)) d = nth j (f i) d.
Proof.
  intros Hlen. 
  assert (Gen : forall n a i, (i < n)%nat -> (j < m)%nat ->
                nth (i * m + j) (flat_map f (seq a n)) d = nth j (f (a + i)%nat) d).
  { clear n i. induction n as [|n IH]; intros a i Hi Hj; [lia|].
    simpl. destruct i as [|i].
    - simpl. rewrite app_nth1 by (rewrite Hlen; exact Hj). rewrite Nat.add_0_r. reflexivity.
    - rewrite app_nth2 by (rewrite Hlen; simpl; lia).
      rewrite Hlen. replace (S i * m + j - m)%nat with (i * m + j)%nat by (simpl; lia).
      rewrite IH by lia. f_equal. f_equal. lia. }
  intros Hi Hj. rewrite Gen by assumption. reflexivity.
Qed.

(** ** C9: split_by_sign *)

Lemma fold_split_grouper (l : list R) :
  forall result cur s r c s',
  fold_left traitement.split_pas l (result, cur, s) = (r, c, s') ->
  r ++ [c] = result ++ grouper cur s l /\ (cur <> [] -> c <> []).
Proof.
  induction l as [|v l IH]; intros result cur s r c s' H; simpl in H.
  - inversion H; subst. split; [reflexivity | auto].
  - simpl. destruct (negb (Bool.eqb (traitement.signe v) s)) eqn:Hs.
    + apply IH in H. destruct H as [H1 H2]. split.
      * rewrite H1, <- app_assoc. reflexivity.
      * intros _. apply H2. discriminate.
    + apply IH in H. destruct H as [H1 H2]. split; [exact H1|].
      intros Hc. apply H2. destruct cur; [contradiction | discriminate].
Qed.

Lemma split_by_sign_grouper (premier : R) (reste : list R) :
  traitement.split_by_sign (premier :: reste) =
  grouper [premier] (traitement.signe premier) reste.
Proof.
  unfold traitement.split_by_sign.
  destruct (fold_left traitement.split_pas reste
              ([], [premier], traitement.signe premier)) as [[r c] s'] eqn:H.
  apply fold_split_grouper in H. destruct H as [H1 H2].
  destruct c as [|x c]; [exfalso; apply H2; [discriminate | reflexivity]|].
  exact H1.
Qed.

Lemma concat_grouper (l : list R) :
  forall cur s, concat (grouper cur s l) = cur ++ l.
Proof.
  induction l as [|v l IH]; intros cur s; simpl.
  - reflexivity.
  - destruct (negb (Bool.eqb (traitement.signe v) s)); simpl.
    + rewrite IH. reflexivity.
    + rewrite IH, <- app_assoc. reflexivity.
Qed.

Lemma signe_run_uniforme (s : bool) (run : list R) : uniforme s run -> signe_run run = s.
Proof.
  intros [Hne H]. destruct run as [|x run]; [contradiction|].
  apply H. left. reflexivity.
Qed.

Lemma uniforme_meme_signe (s : bool) (run : list R) : uniforme s run -> meme_signe run.
Proof.
  intros [_ H] u v Hu Hv. rewrite (H u Hu), (H v Hv). reflexivity.
Qed.

Lemma grouper_runs (l : list R) :
  forall cur s, uniforme s cur ->
  exists tete queue,
    grouper cur s l = tete :: queue /\ uniforme s tete
    /\ Forall (fun r => r <> [] /\ meme_signe r) (tete :: queue)
    /\ alternes (tete :: queue).
Proof.
  induction l as [|v l IH]; intros cur s Hcur; simpl.
  - exists cur, []. repeat split; try apply Hcur.
    constructor; [|constructor]. split; [apply Hcur | eapply uniforme_meme_signe; eauto].
  - destruct (negb (Bool.eqb (traitement.signe v) s)) eqn:Hs.
    + destruct (IH [v] (traitement.signe v)) as (t & q & Hg & Hu & HF & Ha).
      { split; [discriminate|]. intros w [Hw | []]. subst. reflexivity. }
      exists cur, (t :: q). rewrite Hg. repeat split; try apply Hcur.
      * constructor; [|exact HF].
        split; [apply Hcur | eapply uniforme_meme_signe; eauto].
      * rewrite (signe_run_uniforme _ _ Hcur), (signe_run_uniforme _ _ Hu).
        intros Heq. rewrite Heq, Bool.eqb_reflx in Hs. discriminate.
      * exact Ha.
    + apply IH. destruct Hcur as [Hne Hall]. split.
      * destruct cur; discriminate.
      * intros w Hw. apply in_app_or in Hw. destruct Hw as [Hw | [Hw | []]].
        -- apply Hall; exact Hw.
        -- subst w. apply negb_false_iff, Bool.eqb_prop in Hs. exact Hs.
Qed.

(** C9. split_by_sign cuts its input into runs whose concatenation is the
    input (order kept), each run non-empty and of one sign (zero counted as
    non-negative), two consecutive runs of different signs (the runs are
    maximal); and [1,2,-3,-4,5,0,-1] gives [[1,2],[-3,-4],[5,0],[-1]]. *)
Theorem split_by_sign_runs :
  (forall input : list R,
     let runs := traitement.split_by_sign input in
     concat runs = input
     /\ Forall (fun r => r <> [] /\ meme_signe r) runs
     /\ alternes runs)
  /\ traitement.split_by_sign [1; 2; -3; -4; 5; 0; -1]
     = [[1; 2]; [-3; -4]; [5; 0]; [-1]].
Proof.
  split.
  - intros [|premier reste]; simpl.
    + repeat split. constructor.
    + change (let runs := traitement.split_by_sign (premier :: reste) in
              concat runs = premier :: reste /\
              Forall (fun r => r <> [] /\ meme_signe r) runs /\ alternes runs).
      rewrite split_by_sign_grouper. cbv zeta.
      split; [apply concat_grouper|].
      destruct (grouper_runs reste [premier] (traitement.signe premier))
        as (t & q & Hg & _ & HF & Ha).
      { split; [discriminate|]. intros w [Hw | []]. subst. reflexivity. }
      rewrite Hg. split; assumption.
  - rewrite split_by_sign_grouper. unfold traitement.signe.
    repeat (cbn [grouper app]; unfold traitement.signe; comparer; cbn [Bool.eqb negb]).
    reflexivity.
Qed.

(** ** C3: the focal ratios *)

Lemma fold_left_map {A B C : Type} (f : A -> B -> A) (g : C -> B) (l : list C) :
  forall st, fold_left f (map g l) st = fold_left (fun st k => f st (g k)) l st.
Proof. induction l as [|x l IH]; intros st; simpl; [reflexivity | apply IH]. Qed.

Lemma fold_left_ext_in {A B : Type} (f g : A -> B -> A) (l : list B) :
  (forall st k, In k l -> f st k = g st k) ->
  forall st, fold_left f l st = fold_left g l st.
Proof.
  induction l as [|x l IH]; intros H st; simpl; [reflexivity|].
  rewrite (H st x) by (left; reflexivity).
  apply IH. intros st' k Hk. apply H. right. exact Hk.
Qed.

Lemma boucle_recurrence (G : nat -> R -> R) (n : nat) :
  forall p l, fold_left (pas_recurrence G) (seq 0 n) (0, []) = (p, l) ->
  length l = n
  /\ p = (if Nat.eqb n 0 then 0 else l.[n - 1])
  /\ forall k, (k < n)%nat -> l.[k] = if Nat.eqb k 0 then 0 else G k l.[k - 1].
Proof.
  induction n as [|n IH]; intros p l H.
  - simpl in H. injection H as <- <-. repeat split. intros k Hk. lia.
  - rewrite seq_S, fold_left_app in H. cbn [fold_left Nat.add] in H.
    destruct (fold_left (pas_recurrence G) (seq 0 n) (0, [])) as [p0 l0].
    destruct (IH p0 l0 eq_refl) as (Hlen & Hp & Hrec).
    unfold pas_recurrence in H. cbn [fst snd] in H.
    injection H as Hp' Hl'. rewrite Hp' in Hl'. subst l.
    assert (Hlast : (l0 ++ [p]).[n] = p).
    { rewrite app_nth2 by lia. rewrite Hlen, Nat.sub_diag. reflexivity. }
    split; [rewrite length_app, Hlen; simpl; lia|].
    split.
    { cbn [Nat.eqb]. replace (S n - 1)%nat with n by lia. symmetry. exact Hlast. }
    intros k Hk. destruct (Nat.eq_dec k n) as [-> | Hne].
    + rewrite Hlast. destruct (Nat.eqb_spec n 0) as [Hz | Hnz].
      * symmetry. exact Hp'.
      * rewrite app_nth1 by lia. rewrite <- Hp. symmetry. exact Hp'.
    + rewrite app_nth1 by lia. rewrite (Hrec k) by lia.
      destruct (Nat.eqb_spec k 0) as [Hz | Hnz]; [reflexivity|].
      rewrite (app_nth1 l0 [p]) by lia. reflexivity.
Qed.

Lemma descente_map (n : nat) : rev (seq 1 n) = map (fun k => (n - k)%nat) (seq 0 n).
Proof.
  induction n as [|n IH]; [reflexivity|].
  rewrite seq_S, rev_app_distr. simpl rev. simpl app.
  rewrite IH. simpl. f_equal. rewrite <- seq_shift, map_map. reflexivity.
Qed.

Lemma phy_recurrence (self : rapport_focau.t) (n : nat) :
  fold_left (rapport_focau.phy_pas self) (seq 0 n) (0, [])
  = fold_left (pas_recurrence (G_phy self)) (seq 0 n) (0, []).
Proof.
  destruct n as [|n]; [reflexivity|].
  cbn [seq fold_left].
  change (rapport_focau.phy_pas self (0, []) 0%nat)
    with (pas_recurrence (G_phy self) (0, []) 0%nat).
  apply fold_left_ext_in. intros [p l] k Hk. apply in_seq in Hk.
  unfold rapport_focau.phy_pas, pas_recurrence. cbn [fst snd].
  destruct (Nat.eqb_spec k 0) as [Hz | Hnz]; [lia | reflexivity].
Qed.

Lemma phy_prime_recurrence (self : rapport_focau.t) :
  fold_left (rapport_focau.phy_prime_pas self) (rapport_focau.descente self) (0, [])
  = fold_left (pas_recurrence (G_phy_prime self))
              (seq 0 (Z.to_nat (rapport_focau.nb_travee self))) (0, []).
Proof.
  unfold rapport_focau.descente. rewrite descente_map, fold_left_map.
  apply fold_left_ext_in. intros [p l] k Hk. apply in_seq in Hk.
  unfold rapport_focau.phy_prime_pas, pas_recurrence, G_phy_prime. cbn [fst snd].
  destruct (Nat.eqb_spec k 0) as [Hz | Hnz].
  - subst k. rewrite Nat.sub_0_r, Nat.eqb_refl. reflexivity.
  - match goal with |- context [Nat.eqb ?x ?y] =>
      replace (Nat.eqb x y) with false by (symmetry; apply Nat.eqb_neq; lia) end.
    reflexivity.
Qed.

(** C3. With nb_travee = N >= 1 and a, b, c of length N: phy() has N
    entries, phi[0] = 0 and phi[i] = b[i] / (a[i] + c[i-1] - b[i-1]*phi[i-1])
    for 1 <= i < N; phy_prime() has N entries in span order,
    phi_prime[N-1] = 0 and
    phi_prime[i] = b[i] / (c[i] + a[i+1] - b[i+1]*phi_prime[i+1]) for i < N-1. *)
Theorem focal_ratios (a b c : list R) (N : nat) :
  (1 <= N)%nat ->
  length a = N -> length b = N -> length c = N ->
  let self := rapport_focau.mk a b c (Z.of_nat N) in
  let phi := rapport_focau.phy self in
  let phi_prime := rapport_focau.phy_prime self in
  length phi = N /\ phi.[0] = 0
  /\ (forall i, (1 <= i < N)%nat ->
        phi.[i] = b.[i] / (a.[i] + c.[i - 1] - b.[i - 1] * phi.[i - 1]))
  /\ length phi_prime = N /\ phi_prime.[N - 1] = 0
  /\ (forall i, (i + 1 < N)%nat ->
        phi_prime.[i] = b.[i] / (c.[i] + a.[i + 1] - b.[i + 1] * phi_prime.[i + 1])).
Proof.
  intros HN _ _ _ self phi phi_prime.
  assert (HNN : Z.to_nat (rapport_focau.nb_travee self) = N) by apply Nat2Z.id.
  (* forward pass *)
  unfold phi, rapport_focau.phy. rewrite phy_recurrence, HNN.
  destruct (fold_left (pas_recurrence (G_phy self)) (seq 0 N) (0, [])) as [p l] eqn:E.
  destruct (boucle_recurrence (G_phy self) N p l E) as (Hlen & _ & Hrec). cbn [snd].
  split; [exact Hlen|]. split; [apply (Hrec 0%nat); lia|].
  split.
  { intros i Hi. rewrite (Hrec i) by lia.
    destruct (Nat.eqb_spec i 0); [lia | reflexivity]. }
  (* backward pass *)
  unfold phi_prime, rapport_focau.phy_prime. rewrite phy_prime_recurrence.
  unfold rapport_focau.descente. rewrite HNN, descente_map, map_map.
  destruct (fold_left (pas_recurrence (G_phy_prime self)) (seq 0 N) (0, []))
    as [p' l'] eqn:E'.
  destruct (boucle_recurrence (G_phy_prime self) N p' l' E') as (Hlen' & _ & Hrec').
  cbn [snd].
  split; [rewrite length_map, length_seq; reflexivity|].
  split.
  { rewrite nth_map_seq by lia. cbn [Nat.add].
    replace (N - (N - 1) - 1)%nat with 0%nat by lia. apply (Hrec' 0%nat). lia. }
  intros i Hi. rewrite !nth_map_seq by lia. cbn [Nat.add].
  rewrite (Hrec' (N - i - 1)%nat) by lia.
  destruct (Nat.eqb_spec (N - i - 1) 0) as [Hz | Hnz]; [lia|].
  unfold G_phy_prime. rewrite HNN. cbn [rapport_focau.a rapport_focau.b rapport_focau.c self].
  replace (N - (N - i - 1) - 1)%nat with i by lia.
  replace (N - (N - i - 1))%nat with (i + 1)%nat by lia.
  replace (N - i - 1 - 1)%nat with (N - (i + 1) - 1)%nat by lia.
  reflexivity.
Qed.

Lemma focal_ratios_witness :
  let self := rapport_focau.mk [1; 2] [3; 4] [5; 6] 2 in
  (rapport_focau.phy self).[1] = 4 / (2 + 5 - 3 * (rapport_focau.phy self).[0])
  /\ (rapport_focau.phy_prime self).[0]
     = 3 / (5 + 2 - 4 * (rapport_focau.phy_prime self).[1]).
Proof.
  intros self.
  destruct (focal_ratios [1; 2] [3; 4] [5; 6] 2) as (_ & _ & Hphi & _ & _ & Hprime);
    try reflexivity; [lia|].
  split; [apply (Hphi 1%nat); lia | apply (Hprime 0%nat); lia].
Defined.

(** ** C10: the accesses of trapeze *)

Lemma lire_dans (v : list R) (i : nat) :
  (i < length v)%nat -> traitement.lire v i = Ok v.[i].
Proof.
  intros H. unfold traitement.lire.
  rewrite (nth_error_nth' v 0 H). reflexivity.
Qed.

Lemma size_moins_un_borne {A : Type} (v : list A) :
  v <> [] -> (traitement.size_moins_un v <= Z.of_nat (length v) - 1)%Z.
Proof.
  intros H. unfold traitement.size_moins_un.
  destruct v as [|a v]; [contradiction|].
  apply Z.mod_le; [cbn [length]; lia | reflexivity].
Qed.

(** On a non-empty [x] every turn of the loop stays inside the vectors, and
    the fuel [x.size() - i] is enough. *)
Lemma boucle_trapeze_sure (x y : list R) :
  x <> [] -> length x = length y ->
  forall fuel i aire erreur,
  (length x <= fuel + i)%nat ->
  (exists r, traitement.boucle_trapeze fuel x y i aire erreur = Some (Ok r))
  \/ traitement.boucle_trapeze fuel x y i aire erreur = Some (Throw Invalid_interval).
Proof.
  intros Hne Hlen. pose proof (size_moins_un_borne x Hne) as Hb.
  induction fuel as [|fuel IH]; intros i aire erreur Hf.
  - cbn [traitement.boucle_trapeze].
    destruct (Z.ltb_spec (Z.of_nat i) (traitement.size_moins_un x)) as [Hi | Hi];
      cbn [negb]; [lia | left; eexists; reflexivity].
  - cbn [traitement.boucle_trapeze].
    destruct (Z.ltb_spec (Z.of_nat i) (traitement.size_moins_un x)) as [Hi | Hi];
      cbn [negb]; [| left; eexists; reflexivity].
    rewrite (lire_dans x (i + 1)), (lire_dans x i) by lia.
    destruct (Rle_b (x.[i + 1] - x.[i]) 0); [right; reflexivity|].
    rewrite (lire_dans y i), (lire_dans y (i + 1)) by lia.
    apply IH. lia.
Qed.

(** trapeze is total: the fuel never runs out. *)
Lemma trapeze_total (x y : list R) : exists o, traitement.trapeze x y = Some o.
Proof.
  unfold traitement.trapeze.
  destruct (Nat.eqb_spec (length x) (length y)) as [Hlen | Hlen]; cbn [negb];
    [| eexists; reflexivity].
  destruct (traitement.is_sorted x); cbn [negb]; [| eexists; reflexivity].
  destruct x as [|x0 x].
  - eexists. reflexivity.
  - destruct (boucle_trapeze_sure (x0 :: x) y ltac:(discriminate) Hlen
                (S (length (x0 :: x))) 0%nat 0 0 ltac:(lia)) as [[[r e] H] | H];
      rewrite H; eexists; reflexivity.
Qed.





(** ** The observation grid *)

Section Grille.

Variable self : isostatique.t.
Hypothesis L_pos : 0 < isostatique.L self.
Hypothesis division_pos : (1 <= isostatique.division self)%Z.

Lemma alpha_point :
  isostatique.alpha self
  = map (point self) (seq 0 (Z.to_nat (isostatique.division self) + 1)).
Proof.
  unfold isostatique.alpha. rewrite Nat.add_1_r, seq_S, map_app. cbn [map Nat.add].
  f_equal.
  - apply map_ext_in. intros i Hi. apply in_seq in Hi. unfold point.
    destruct (Nat.ltb_spec i (Z.to_nat (isostatique.division self))); [reflexivity | lia].
  - unfold point. rewrite Nat.ltb_irrefl. reflexivity.
Qed.

Lemma length_alpha :
  length (isostatique.alpha self) = (Z.to_nat (isostatique.division self) + 1)%nat.
Proof. rewrite alpha_point, length_map, length_seq. reflexivity. Qed.

Lemma nth_alpha (k : nat) :
  (k <= Z.to_nat (isostatique.division self))%nat ->
  (isostatique.alpha self).[k] = point self k.
Proof.
  intros Hk. rewrite alpha_point, nth_map_seq by lia. reflexivity.
Qed.

Lemma INR_division :
  INR (Z.to_nat (isostatique.division self)) = IZR (isostatique.division self).
Proof. rewrite INR_IZR_INZ, Z2Nat.id by lia. reflexivity. Qed.

Lemma pas_pos : 0 < isostatique.L self / IZR (isostatique.division self).
Proof.
  apply Rdiv_lt_0_compat; [exact L_pos|]. apply IZR_lt. lia.
Qed.

(** The grid is strictly increasing. *)
Lemma point_croissant (i j : nat) :
  (i < j <= Z.to_nat (isostatique.division self))%nat ->
  point self i < point self j.
Proof.
  intros [Hij Hj]. unfold point.
  destruct (Nat.ltb_spec i (Z.to_nat (isostatique.division self))) as [Hi | Hi]; [|lia].
  assert (Hlt : isostatique.L self / IZR (isostatique.division self) * INR i
                < isostatique.L self / IZR (isostatique.division self) * INR j).
  { apply Rmult_lt_compat_l; [apply pas_pos | apply lt_INR; exact Hij]. }
  destruct (Nat.ltb_spec j (Z.to_nat (isostatique.division self))) as [Hj' | Hj'].
  - exact Hlt.
  - assert (j = Z.to_nat (isostatique.division self)) by lia. subst j.
    rewrite INR_division in Hlt.
    replace (isostatique.L self / IZR (isostatique.division self)
             * IZR (isostatique.division self)) with (isostatique.L self) in Hlt.
    + exact Hlt.
    + field. apply not_0_IZR. lia.
Qed.

Lemma point_0 : point self 0 = 0.
Proof.
  unfold point. destruct (Nat.ltb_spec 0 (Z.to_nat (isostatique.division self))); [|lia].
  simpl. ring.
Qed.

Lemma point_dernier :
  point self (Z.to_nat (isostatique.division self)) = isostatique.L self.
Proof. unfold point. rewrite Nat.ltb_irrefl. reflexivity. Qed.

(** Every grid point lies in [0, L]. *)
Lemma point_borne (k : nat) :
  (k <= Z.to_nat (isostatique.division self))%nat ->
  0 <= point self k <= isostatique.L self.
Proof.
  intros Hk. split.
  - destruct k as [|k]; [rewrite point_0; lra|].
    rewrite <- point_0. left. apply point_croissant. lia.
  - destruct (Nat.eq_dec k (Z.to_nat (isostatique.division self))) as [-> | Hne].
    + rewrite point_dernier. lra.
    + rewrite <- point_dernier. left. apply point_croissant. lia.
Qed.

End Grille.

(** ** The single-span evaluations as maps over the grid *)

Lemma flat_map_map {A B C : Type} (f : B -> list C) (g : A -> B) (l : list A) :
  flat_map f (map g l) = flat_map (fun x => f (g x)) l.
Proof. induction l as [|x l IH]; simpl; [reflexivity | rewrite IH; reflexivity]. Qed.

Lemma flat_map_singleton_in {A B : Type} (f : A -> list B) (g : A -> B) (l : list A) :
  (forall x, In x l -> f x = [g x]) -> flat_map f l = map g l.
Proof.
  induction l as [|x l IH]; intros H; simpl; [reflexivity|].
  rewrite (H x) by (left; reflexivity). simpl. f_equal.
  apply IH. intros y Hy. apply H. right. exact Hy.
Qed.

(** The loop of T(sigma) appends [T_point] and [coordonne_point] of each
    grid point: on the reals the three tests are exhaustive. *)
Lemma T_boucle (self : isostatique.t) (sigma : R) (l : list R) :
  forall T coordonne,
  fold_left (fun '(T, coordonne) i =>
      if Rlt_b i sigma then (T ++ [(- i) / isostatique.L self], coordonne ++ [i])
      else if Rlt_b sigma i then (T ++ [1 - i / isostatique.L self], coordonne ++ [i])
      else if Req_b i sigma then
        (T ++ [(- i) / isostatique.L self; 1 - i / isostatique.L self],
         coordonne ++ [i; i])
      else (T, coordonne)) l (T, coordonne)
  = (T ++ flat_map (T_point self sigma) l,
     coordonne ++ flat_map (coordonne_point sigma) l).
Proof.
  induction l as [|i l IH]; intros T coordonne; cbn [fold_left flat_map].
  - rewrite !app_nil_r. reflexivity.
  - unfold T_point at 1, coordonne_point at 1.
    destruct (Rlt_b i sigma) eqn:H1; [rewrite IH, <- !app_assoc; reflexivity|].
    destruct (Rlt_b sigma i) eqn:H2; [rewrite IH, <- !app_assoc; reflexivity|].
    rewrite Req_b_true.
    + rewrite IH, <- !app_assoc. reflexivity.
    + unfold Rlt_b in H1, H2.
      destruct (Rlt_dec i sigma); [discriminate|].
      destruct (Rlt_dec sigma i); [discriminate|]. lra.
Qed.

Lemma T_dans (self : isostatique.t) (sigma : R) (abscisse : bool) :
  sigma <= isostatique.L self ->
  isostatique.T self sigma abscisse
  = if abscisse then flat_map (coordonne_point sigma) (isostatique.alpha self)
    else flat_map (T_point self sigma) (isostatique.alpha self).
Proof.
  intros H. unfold isostatique.T. rewrite (Rle_b_true _ _ H), T_boucle.
  reflexivity.
Qed.

Lemma M_point_moment_at (self : isostatique.t) (sigma i : R) :
  isostatique.M_point self sigma i = [moment_at self i sigma].
Proof.
  unfold isostatique.M_point, moment_at.
  destruct (Rle_b i sigma) eqn:H1; [reflexivity|].
  rewrite Rlt_b_true; [reflexivity|].
  unfold Rle_b in H1. destruct (Rle_dec i sigma); [discriminate | lra].
Qed.

Lemma M_dans (self : isostatique.t) (sigma : R) :
  sigma <= isostatique.L self ->
  isostatique.M self sigma
  = map (fun i => moment_at self i sigma) (isostatique.alpha self).
Proof.
  intros H. unfold isostatique.M. rewrite (Rle_b_true _ _ H).
  apply flat_map_singleton_in. intros x _. apply M_point_moment_at.
Qed.

(** ** C6: load position beyond the span *)

(** What the four evaluations return for a load position beyond the span. *)
Lemma hors_travee (self : isostatique.t) (sigma : R) :
  isostatique.L self < sigma ->
  let n := Z.to_nat (isostatique.division self) in
  isostatique.M self sigma = repeat 0 n
  /\ isostatique.T self sigma false = repeat 0 n
  /\ isostatique.T self sigma true = isostatique.alpha self
  /\ isostatique.OMEGA self sigma = repeat 0 (n + 1)
  /\ isostatique.V self sigma = repeat 0 (n + 1).
Proof.
  intros H n.
  unfold isostatique.M, isostatique.T, isostatique.OMEGA, isostatique.V,
    isostatique.fonct_OMEGA, isostatique.fonct_V.
  rewrite (Rle_b_false _ _ H), length_alpha.
  repeat split; destruct (isostatique.I_varer self); reflexivity.
Qed.

(** C6, at L = 1, division = 1, sigma = 2 > L: the grid has division+1 = 2
    points, the rotation and the deflection have 2 zero entries, but the
    moment M(2) and the shear T(2) have only division = 1 entry (while
    the abscissas that T returns for the same call have 2).  The public
    surfaces reach that branch when L < 0, which no constructor refuses:
    for L = -1 and division = 2 the grid has 3 points and the first row of
    moment_flechissant() (load at 0 > L) has 2 entries. *)
Theorem beyond_span_one_entry_short :
  let self := isostatique.ctor 1 1 1 1 in
  let negatif := isostatique.ctor (-1) 1 1 2 in
  length (isostatique.alpha self) = 2%nat
  /\ isostatique.M self 2 = [0]
  /\ isostatique.T self 2 false = [0]
  /\ length (isostatique.T self 2 true) = 2%nat
  /\ isostatique.OMEGA self 2 = [0; 0]
  /\ isostatique.V self 2 = [0; 0]
  /\ length (isostatique.alpha negatif) = 3%nat
  /\ (isostatique.moment_flechissant negatif).{0} = [0; 0].
Proof.
  intros self negatif.
  destruct (hors_travee self 2) as (HM & HT & HTa & HO & HV); [simpl; lra|].
  rewrite HM, HT, HTa, HO, HV. repeat split.
  unfold isostatique.moment_flechissant. cbn [isostatique.alpha negatif
    isostatique.ctor isostatique.L isostatique.division Z.to_nat Pos.to_nat
    Pos.iter_op Nat.add seq map app nth].
  destruct (hors_travee negatif (-1 / 2 * INR 0)) as (HM' & _); [simpl; lra|].
  exact HM'.
Qed.

(** ** C5: the unit jump of the shear at the load point *)

Section Saut.

Variable self : isostatique.t.
Hypothesis L_pos : 0 < isostatique.L self.
Hypothesis division_pos : (1 <= isostatique.division self)%Z.
Variable k : nat.
Hypothesis k_grille : (k <= Z.to_nat (isostatique.division self))%nat.

Lemma grille_autour :
  seq 0 (Z.to_nat (isostatique.division self) + 1)
  = seq 0 k ++ k :: seq (S k) (Z.to_nat (isostatique.division self) - k).
Proof.
  replace (Z.to_nat (isostatique.division self) + 1)%nat
    with (k + S (Z.to_nat (isostatique.division self) - k))%nat by lia.
  rewrite seq_app. reflexivity.
Qed.

Lemma T_autour :
  flat_map (T_point self (point self k)) (isostatique.alpha self)
  = map (fun i => (- point self i) / isostatique.L self) (seq 0 k)
    ++ [(- point self k) / isostatique.L self; 1 - point self k / isostatique.L self]
    ++ map (fun i => 1 - point self i / isostatique.L self)
           (seq (S k) (Z.to_nat (isostatique.division self) - k)).
Proof.
  rewrite alpha_point, grille_autour, map_app, flat_map_app. cbn [map flat_map].
  rewrite !flat_map_map. f_equal; [|f_equal].
  - apply flat_map_singleton_in. intros i Hi. apply in_seq in Hi.
    unfold T_point. rewrite Rlt_b_true; [reflexivity|].
    apply point_croissant; assumption || lia.
  - unfold T_point. rewrite !Rlt_b_false by lra. reflexivity.
  - apply flat_map_singleton_in. intros i Hi. apply in_seq in Hi.
    assert (point self k < point self i) by (apply point_croissant; assumption || lia).
    unfold T_point. rewrite Rlt_b_false, Rlt_b_true by lra. reflexivity.
Qed.

Lemma coordonne_autour :
  flat_map (coordonne_point (point self k)) (isostatique.alpha self)
  = map (point self) (seq 0 k)
    ++ [point self k; point self k]
    ++ map (point self) (seq (S k) (Z.to_nat (isostatique.division self) - k)).
Proof.
  rewrite alpha_point, grille_autour, map_app, flat_map_app. cbn [map flat_map].
  rewrite !flat_map_map. f_equal; [|f_equal].
  - apply flat_map_singleton_in. intros i Hi. apply in_seq in Hi.
    unfold coordonne_point. rewrite Rlt_b_true; [reflexivity|].
    apply point_croissant; assumption || lia.
  - unfold coordonne_point. rewrite !Rlt_b_false by lra. reflexivity.
  - apply flat_map_singleton_in. intros i Hi. apply in_seq in Hi.
    assert (point self k < point self i) by (apply point_croissant; assumption || lia).
    unfold coordonne_point. rewrite Rlt_b_false, Rlt_b_true by lra. reflexivity.
Qed.

End Saut.

(** C5. For a span with L > 0 and division >= 1 and a load at the grid point
    sigma = alpha[k] (so 0 <= sigma <= L), T(sigma) has division+2 samples;
    the samples of index k and k+1 are both taken at the abscissa sigma, the
    first is -sigma/L, the second 1 - sigma/L, and they differ by exactly 1. *)
Theorem shear_unit_jump (self : isostatique.t) (k : nat) :
  0 < isostatique.L self ->
  (1 <= isostatique.division self)%Z ->
  (k <= Z.to_nat (isostatique.division self))%nat ->
  let sigma := (isostatique.alpha self).[k] in
  let valeurs := isostatique.T self sigma false in
  let abscisses := isostatique.T self sigma true in
  0 <= sigma <= isostatique.L self
  /\ length valeurs = (Z.to_nat (isostatique.division self) + 2)%nat
  /\ length abscisses = (Z.to_nat (isostatique.division self) + 2)%nat
  /\ abscisses.[k] = sigma /\ abscisses.[S k] = sigma
  /\ valeurs.[k] = (- sigma) / isostatique.L self
  /\ valeurs.[S k] = 1 - sigma / isostatique.L self
  /\ valeurs.[S k] - valeurs.[k] = 1.
Proof.
  intros HL Hd Hk sigma valeurs abscisses.
  assert (Hs : sigma = point self k) by (apply nth_alpha; exact Hk).
  pose proof (point_borne self HL Hd k Hk) as Hb. rewrite <- Hs in Hb.
  unfold valeurs, abscisses. rewrite !T_dans by lra.
  rewrite Hs, (T_autour self HL Hd k Hk), (coordonne_autour self HL Hd k Hk).
  assert (Hk1 : forall f : nat -> R, length (map f (seq 0 k)) = k)
    by (intros f; rewrite length_map, length_seq; reflexivity).
  split; [rewrite <- Hs; exact Hb|].
  split; [rewrite !length_app, !length_map, !length_seq; cbn [length]; lia|].
  split; [rewrite !length_app, !length_map, !length_seq; cbn [length]; lia|].
  assert (Hn : forall (f : nat -> R) (u v : R) (q : list R),
             (map f (seq 0 k) ++ [u; v] ++ q).[k] = u
             /\ (map f (seq 0 k) ++ [u; v] ++ q).[S k] = v).
  { intros f u v q. split.
    - rewrite app_nth2 by (rewrite Hk1; lia). rewrite Hk1, Nat.sub_diag. reflexivity.
    - rewrite app_nth2 by (rewrite Hk1; lia). rewrite Hk1.
      replace (S k - k)%nat with 1%nat by lia. reflexivity. }
  repeat split; try apply Hn.
  rewrite (proj1 (Hn _ _ _ _)), (proj2 (Hn _ _ _ _)).
  field. lra.
Qed.

Lemma shear_unit_jump_witness :
  let self := isostatique.ctor 4 1 1 4 in
  let sigma := (isostatique.alpha self).[2] in
  (isostatique.T self sigma false).[3] - (isostatique.T self sigma false).[2] = 1.
Proof.
  intros self sigma.
  apply (shear_unit_jump self 2); simpl; lra || lia.
Defined.

(** ** C7: validation at the construction of a span *)

Lemma verifier_positions_None (L : R) (pos : list R) :
  travee.verifier_positions L pos = None <-> (forall p, In p pos -> 0 <= p <= L).
Proof.
  induction pos as [|p pos IH]; cbn [travee.verifier_positions].
  - split; [intros _ q [] | reflexivity].
  - unfold Rlt_b. destruct (Rlt_dec L p) as [H1 | H1].
    + split; [discriminate|]. intros H. specialize (H p (or_introl eq_refl)). lra.
    + destruct (Rlt_dec p 0) as [H2 | H2].
      * split; [discriminate|]. intros H. specialize (H p (or_introl eq_refl)). lra.
      * rewrite IH. split.
        -- intros H q [<- | Hq]; [lra | apply H; exact Hq].
        -- intros H q Hq. apply H. right. exact Hq.
Qed.

Lemma verifier_positions_exception (L : R) (pos : list R) :
  travee.verifier_positions L pos = None
  \/ exists e, travee.verifier_positions L pos = Some e.
Proof.
  destruct (travee.verifier_positions L pos) as [e|]; [right; exists e|left]; reflexivity.
Qed.

Lemma non_croissantes_false (pos : list R) :
  travee.non_croissantes pos = false
  <-> (forall i, (S i < length pos)%nat -> pos.[i] < pos.[S i]).
Proof.
  unfold travee.non_croissantes. split.
  - intros H i Hi.
    destruct (Rlt_dec pos.[i] pos.[S i]) as [Hlt | Hge]; [exact Hlt|].
    exfalso. assert (Hex : existsb (fun i => Rle_b pos.[S i] pos.[i])
                                   (seq 0 (length pos - 1)) = true).
    { apply existsb_exists. exists i. split; [apply in_seq; lia|].
      apply Rle_b_true. lra. }
    rewrite H in Hex. discriminate.
  - intros H. destruct (existsb _ _) eqn:Hex; [|reflexivity].
    apply existsb_exists in Hex. destruct Hex as (i & Hi & Hle).
    apply in_seq in Hi. apply Rle_b_spec in Hle.
    specialize (H i ltac:(lia)). lra.
Qed.

Lemma reserve_ok (d : Z) : (-1 <= d)%Z -> reserve (d + 1) = Ok tt.
Proof.
  intros H. unfold reserve.
  destruct (Z.ltb_spec (d + 1) 0); [lia | reflexivity].
Qed.

Lemma reserve_refus (d : Z) : (d <= -2)%Z -> reserve (d + 1) = Throw Length_error.
Proof.
  intros H. unfold reserve.
  destruct (Z.ltb_spec (d + 1) 0); [reflexivity | lia].
Qed.

(** What the variable-inertia constructor decides on a table of several
    values (or of none, with positions), when the grid can be allocated. *)
Lemma ctor_var_decide (L E : R) (I pos : list R) (d : Z) :
  (-1 <= d)%Z ->
  length I <> 1%nat -> (I <> [] \/ pos <> []) ->
  (table_valide L I pos /\ exists tr, travee.ctor_var L E I pos d = Ok tr)
  \/ (~ table_valide L I pos /\ exists e, travee.ctor_var L E I pos d = Throw e).
Proof.
  intros Hd H1 Hne. unfold travee.ctor_var, isostatique.ctor_var, table_valide.
  rewrite (reserve_ok d Hd).
  destruct (Nat.eqb_spec (length I) 1) as [? | _]; [contradiction|].
  destruct (Nat.eqb_spec (length I) (length pos)) as [Hlen | Hlen]; cbn [negb bind].
  2:{ right. split; [intros (Hl & _); lia | eexists; reflexivity]. }
  destruct pos as [|p0 pos'] eqn:Epos.
  { exfalso. destruct I; [destruct Hne as [Hne | Hne]; apply Hne; reflexivity
                         | discriminate]. }
  rewrite <- Epos in *. clear Epos p0 pos'.
  unfold Req_b. destruct (Req_dec_T (last pos 0) L) as [Hlast | Hlast]; cbn [negb bind].
  2:{ right. split; [intros (_ & _ & _ & Hl); contradiction | eexists; reflexivity]. }
  destruct (verifier_positions_exception L pos) as [Hv | [e Hv]]; rewrite Hv.
  2:{ right. split; [| eexists; reflexivity].
      intros (_ & Hb & _). apply verifier_positions_None in Hb. congruence. }
  replace (Nat.eqb (length pos) (length I)) with true
    by (symmetry; apply Nat.eqb_eq; symmetry; exact Hlen).
  cbn [negb].
  destruct (travee.non_croissantes pos) eqn:Hc.
  { right. split; [| eexists; reflexivity].
    intros (_ & _ & Hi & _). apply non_croissantes_false in Hi. congruence. }
  left. split; [| eexists; reflexivity].
  pose proof (proj1 (verifier_positions_None L pos) Hv) as Hb.
  pose proof (proj1 (non_croissantes_false pos) Hc) as Hi.
  split; [symmetry; exact Hlen|]. split; [exact Hb|].
  split; [exact Hi | exact Hlast].
Qed.

(** A table of a single value is normalised before the checks of the base
    class, and the checks of travee see one position only. *)
Lemma ctor_var_une_valeur (L E v : R) (pos : list R) (d : Z) :
  (-1 <= d)%Z ->
  ((length pos = 1%nat /\ 0 <= pos.[0] <= L)
   /\ exists tr, travee.ctor_var L E [v] pos d = Ok tr)
  \/ (~ (length pos = 1%nat /\ 0 <= pos.[0] <= L)
      /\ exists e, travee.ctor_var L E [v] pos d = Throw e).
Proof.
  intros Hd.
  unfold travee.ctor_var, isostatique.ctor_var. cbn [length Nat.eqb negb last].
  rewrite (reserve_ok d Hd).
  rewrite Req_b_true by reflexivity. cbn [negb bind].
  destruct pos as [|p [|q pos]]; cbn [travee.verifier_positions length Nat.eqb negb].
  - right. split; [intros [H _]; discriminate | eexists; reflexivity].
  - unfold Rlt_b. destruct (Rlt_dec L p) as [H1 | H1].
    { right. split; [intros [_ H]; simpl in H; lra | eexists; reflexivity]. }
    destruct (Rlt_dec p 0) as [H2 | H2].
    { right. split; [intros [_ H]; simpl in H; lra | eexists; reflexivity]. }
    left. split; [split; [reflexivity | simpl; lra] | eexists; reflexivity].
  - right. split; [intros [H _]; discriminate|].
    destruct (verifier_positions_exception L (p :: q :: pos)) as [Hv | [e Hv]];
      cbn [travee.verifier_positions] in Hv; rewrite Hv; eexists; reflexivity.
Qed.

(** With [division <= -2] the base constructor never returns: one of its
    two table checks throws, or the allocation of the grid does. *)
Lemma ctor_var_sans_grille (L E : R) (I pos : list R) (d : Z) :
  (d <= -2)%Z -> (I <> [] \/ pos <> []) ->
  exists e, travee.ctor_var L E I pos d = Throw e.
Proof.
  intros Hd Hne. unfold travee.ctor_var, isostatique.ctor_var.
  rewrite (reserve_refus d Hd).
  destruct (Nat.eqb (length I) 1).
  - cbn [length Nat.eqb negb last]. rewrite Req_b_true by reflexivity.
    cbn [negb bind]. eexists. reflexivity.
  - destruct (Nat.eqb_spec (length I) (length pos)) as [Hlen | Hlen];
      cbn [negb bind]; [| eexists; reflexivity].
    destruct pos as [|p0 pos'] eqn:Epos.
    { exfalso. destruct I; [destruct Hne as [Hne | Hne]; apply Hne; reflexivity
                           | discriminate]. }
    destruct (negb (Req_b (last (p0 :: pos') 0) L)); cbn [bind];
      eexists; reflexivity.
Qed.

Lemma construction_decide (L E I : R) (d : Z) :
  travee.construction L E I d
  = if Z.leb d (-2) then Throw Length_error else Ok (travee.ctor L E I d).
Proof.
  unfold travee.construction, isostatique.construction.
  destruct (Z.leb_spec d (-2)) as [H | H].
  - rewrite reserve_refus by exact H. reflexivity.
  - rewrite reserve_ok by lia. reflexivity.
Qed.

(** C7 as stated fails: a variable-inertia span is constructed without
    error with division = 0, with L = 0, and with a one-value table whose
    position is not L; the constant-inertia constructor builds a span with
    L = -1 and division = 0, whose grid is the single point -1. *)
Lemma ctor_sans_controle :
  (exists tr, travee.ctor_var 1 1 [5; 5] [0; 1] 0 = Ok tr)
  /\ (exists tr, travee.ctor_var 0 1 [5] [0] 4 = Ok tr)
  /\ (exists tr, travee.ctor_var 1 1 [5] [0] 4 = Ok tr)
  /\ travee.construction (-1) 1 1 0 = Ok (travee.ctor (-1) 1 1 0)
  /\ isostatique.alpha (travee.base (travee.ctor (-1) 1 1 0)) = [-1].
Proof.
  split; [|split; [|split; [|split; reflexivity]]].
  - destruct (ctor_var_decide 1 1 [5; 5] [0; 1] 0) as [[_ H] | [H _]];
      [lia | discriminate | left; discriminate | exact H |].
    exfalso. apply H. split; [reflexivity|]. split; [|split].
    + intros q [<- | [<- | []]]; lra.
    + intros [|[|i]] Hi; simpl in *; try lia; lra.
    + simpl. reflexivity.
  - destruct (ctor_var_une_valeur 0 1 5 [0] 4) as [[_ H] | [H _]];
      [lia | exact H |].
    exfalso. apply H. simpl. split; [reflexivity | lra].
  - destruct (ctor_var_une_valeur 1 1 5 [0] 4) as [[_ H] | [H _]];
      [lia | exact H |].
    exfalso. apply H. simpl. split; [reflexivity | lra].
Qed.

(** C7, amended. The constructors check neither L nor division; the only
    effect of division is that the allocation of the grid throws
    std::length_error for division <= -2, so that no span is constructed
    then.  L is the float parameter of the constructor (a binary32 number)
    and division an int whose successor is an int.
    For division >= -1 and a variable-inertia table that is not reduced to
    one value, the construction succeeds when the table is well formed (as
    many positions as values, positions in [0, L], strictly increasing, the
    last one equal to L) and throws otherwise.  A table of one value is
    normalised first: the construction succeeds when there is exactly one
    position and it lies in [0, L], and throws otherwise.  The
    constant-inertia constructor returns for every L, E and I exactly when
    division >= -1. *)
Theorem ctor_var_validation (L E : R) (I pos : list R) (d : Z) :
  binary32 L ->
  (- 2 ^ 31 <= d < 2 ^ 31 - 1)%Z ->
  (I <> [] \/ pos <> []) ->
  ((-1 <= d)%Z ->
     (length I <> 1%nat ->
        (table_valide L I pos -> exists tr, travee.ctor_var L E I pos d = Ok tr)
        /\ (~ table_valide L I pos ->
            exists e, travee.ctor_var L E I pos d = Throw e))
     /\ (length I = 1%nat ->
        ((length pos = 1%nat /\ 0 <= pos.[0] <= L) ->
           exists tr, travee.ctor_var L E I pos d = Ok tr)
        /\ (~ (length pos = 1%nat /\ 0 <= pos.[0] <= L) ->
           exists e, travee.ctor_var L E I pos d = Throw e)))
  /\ ((d <= -2)%Z -> exists e, travee.ctor_var L E I pos d = Throw e)
  /\ (forall Inertie,
        travee.construction L E Inertie d
        = if Z.leb d (-2) then Throw Length_error
          else Ok (travee.ctor L E Inertie d)).
Proof.
  intros _ _ Hne. split; [|split].
  - intros Hd. split.
    + intros H1.
      destruct (ctor_var_decide L E I pos d Hd H1 Hne) as [[Hv H] | [Hv H]].
      * split; [intros _; exact H | intros Hn; contradiction].
      * split; [intros Hn; contradiction | intros _; exact H].
    + intros H1. destruct I as [|v [|w I]]; try discriminate.
      destruct (ctor_var_une_valeur L E v pos d Hd) as [[Hv H] | [Hv H]].
      * split; [intros _; exact H | intros Hn; contradiction].
      * split; [intros Hn; contradiction | intros _; exact H].
  - intros Hd. apply ctor_var_sans_grille; assumption.
  - intros Inertie. apply construction_decide.
Qed.

Lemma ctor_var_validation_witness :
  (exists tr, travee.ctor_var 4 1 [5; 7] [0; 4] 0 = Ok tr)
  /\ (exists e, travee.ctor_var 4 1 [5; 7] [0; 3] 4 = Throw e)
  /\ (exists e, travee.ctor_var 4 1 [5; 7] [0; 4] (-3) = Throw e).
Proof.
  assert (H4 : binary32 4).
  { exists 4%Z, 0%Z. split; [simpl; lia|]. split; [lia | simpl; lra]. }
  split; [|split].
  - destruct (ctor_var_validation 4 1 [5; 7] [0; 4] 0 H4) as [H _];
      [lia | left; discriminate|].
    destruct (H ltac:(lia)) as [H' _].
    destruct H' as [Hok _]; [discriminate|]. apply Hok.
    split; [reflexivity|]. split; [|split].
    + intros q [<- | [<- | []]]; lra.
    + intros [|[|i]] Hi; simpl in *; try lia; lra.
    + simpl. reflexivity.
  - destruct (ctor_var_validation 4 1 [5; 7] [0; 3] 4 H4) as [H _];
      [lia | left; discriminate|].
    destruct (H ltac:(lia)) as [H' _].
    destruct H' as [_ Hko]; [discriminate|]. apply Hko.
    intros (_ & _ & _ & Hl). simpl in Hl. lra.
  - destruct (ctor_var_validation 4 1 [5; 7] [0; 4] (-3) H4) as (_ & H & _);
      [lia | left; discriminate|].
    apply H. lia.
Defined.

(** ** C4: a variable-inertia span with a single inertia value *)

(** The base class normalises the table of one value. *)
Lemma iso_ctor_var_une_valeur (L E v : R) (pos : list R) (d : Z) :
  (-1 <= d)%Z ->
  isostatique.ctor_var L E [v] pos d
  = Ok (isostatique.mk E 0 [v; v] [0; L] L d).
Proof.
  intros Hd. unfold isostatique.ctor_var. cbn [length Nat.eqb negb last nth].
  rewrite Req_b_true, (reserve_ok d Hd) by reflexivity. reflexivity.
Qed.

(** On the normalised table every grid point lies in the first segment. *)
Lemma premier_segment_normalise (L x : R) :
  0 <= x <= L -> premier_segment [0; L] x = Some 0%nat.
Proof.
  intros H. unfold premier_segment. cbn [length Nat.sub seq find nth].
  rewrite !Rle_b_true by lra. reflexivity.
Qed.

Lemma In_alpha_borne (self : isostatique.t) (x : R) :
  0 < isostatique.L self -> (1 <= isostatique.division self)%Z ->
  In x (isostatique.alpha self) -> 0 <= x <= isostatique.L self.
Proof.
  intros HL Hd Hx. rewrite alpha_point in Hx. apply in_map_iff in Hx.
  destruct Hx as (k & <- & Hk). apply in_seq in Hk.
  apply point_borne; assumption || lia.
Qed.

(** The part of C4 that holds: with the normalised table, the shear, the
    moment, the rotation and the deflection are those of the
    constant-inertia span, for every load position. *)
Lemma une_valeur_memes_courbes (L E v : R) (pos : list R) (d : Z) :
  0 < L -> (1 <= d)%Z ->
  exists b, isostatique.ctor_var L E [v] pos d = Ok b
  /\ isostatique.I_varer b = [v; v] /\ isostatique.pos_I_varier b = [0; L]
  /\ forall sigma,
       (forall abscisse, isostatique.T b sigma abscisse
                         = isostatique.T (isostatique.ctor L E v d) sigma abscisse)
       /\ isostatique.M b sigma = isostatique.M (isostatique.ctor L E v d) sigma
       /\ isostatique.OMEGA b sigma = isostatique.OMEGA (isostatique.ctor L E v d) sigma
       /\ isostatique.V b sigma = isostatique.V (isostatique.ctor L E v d) sigma.
Proof.
  intros HL Hd. eexists. split; [apply iso_ctor_var_une_valeur; lia|].
  split; [reflexivity|]. split; [reflexivity|].
  intros sigma. split; [reflexivity|]. split; [reflexivity|].
  set (c := isostatique.ctor L E v d).
  assert (Hin : forall x, In x (isostatique.alpha c) -> 0 <= x <= L)
    by (intros x; apply (In_alpha_borne c); assumption).
  split.
  - unfold isostatique.OMEGA, isostatique.fonct_OMEGA.
    cbn [isostatique.I_varer isostatique.pos_I_varier isostatique.L isostatique.E
         isostatique.I isostatique.ctor c].
    change (isostatique.alpha (isostatique.mk E 0 [v; v] [0; L] L d))
      with (isostatique.alpha c).
    destruct (Rle_b sigma L); [|reflexivity].
    apply map_ext_in. intros x Hx.
    rewrite (premier_segment_normalise L x (Hin x Hx)). reflexivity.
  - unfold isostatique.V, isostatique.fonct_V.
    cbn [isostatique.I_varer isostatique.pos_I_varier isostatique.L isostatique.E
         isostatique.I isostatique.ctor c].
    change (isostatique.alpha (isostatique.mk E 0 [v; v] [0; L] L d))
      with (isostatique.alpha c).
    destruct (Rle_b sigma L); [|reflexivity].
    apply map_ext_in. intros x Hx.
    rewrite (premier_segment_normalise L x (Hin x Hx)). reflexivity.
Qed.

(** The flexibility coefficients of a span built on the normalised table:
    a and b are those of the constant inertia, c is three times too large. *)
Lemma coefficients_table_normalisee (L E v : R) (b : isostatique.t) :
  L <> 0 -> E <> 0 -> v <> 0 ->
  let tr := travee.mk b E L 0 [0; L] [v; v] in
  travee.a tr = L / (3 * E * v)
  /\ travee.b tr = L / (6 * E * v)
  /\ travee.c tr = L / (E * v).
Proof.
  intros HL HE Hv tr.
  unfold travee.a, travee.b, travee.c, travee.somme_segments, travee.B.
  cbn [tr travee.I_varer travee.pos_I_varier travee.longueur travee.Young
       length Nat.sub seq fold_left nth].
  repeat split; field; repeat split; assumption.
Qed.

Lemma travee_table_normalisee :
  travee.ctor_var 2 1 [5; 5] [0; 2] 4
  = Ok (travee.mk (isostatique.mk 1 0 [5; 5] [0; 2] 2 4) 1 2 0 [0; 2] [5; 5]).
Proof.
  unfold travee.ctor_var, isostatique.ctor_var, travee.non_croissantes.
  rewrite reserve_ok by lia.
  cbn [length Nat.eqb negb last bind travee.verifier_positions Nat.sub seq existsb nth].
  comparer. cbn [negb bind orb]. reflexivity.
Qed.

Lemma travee_une_valeur_directe :
  travee.ctor_var 2 1 [5] [2] 4
  = Ok (travee.mk (isostatique.mk 1 0 [5; 5] [0; 2] 2 4) 1 2 0 [2] [5]).
Proof.
  unfold travee.ctor_var. rewrite iso_ctor_var_une_valeur by lia.
  unfold travee.non_croissantes.
  cbn [length Nat.eqb negb bind travee.verifier_positions Nat.sub seq existsb nth].
  comparer. reflexivity.
Qed.

(** The constructors of a structure of one span. *)
Lemma mise_en_place_une_travee (L E I : R) (d : Z) :
  (-1 <= d)%Z ->
  hyperstatique.mise_en_place [L] [E] [I] d 1 None None
  = Ok [travee.ctor L E I d].
Proof.
  intros Hd. unfold hyperstatique.mise_en_place, hyperstatique.travees.
  change (Z.to_nat 1) with 1%nat. cbn [seq fold_left bind nth].
  rewrite construction_decide.
  destruct (Z.leb_spec d (-2)); [lia | reflexivity].
Qed.

Lemma mise_en_place_une_travee_var (L E : R) (I_tr Iv pos : list R) (d : Z) :
  hyperstatique.mise_en_place [L] [E] I_tr d 1 (Some [Iv]) (Some [pos])
  = (tr <- travee.ctor_var L E Iv pos d ;; Ok [tr]).
Proof. reflexivity. Qed.

Lemma ctor_une_travee (L E I : R) (d : Z) :
  (1 <= d)%Z ->
  hyperstatique.ctor [L] [E] [I] d
  = hyperstatique.initialiser_donnees [L] [E] [I] d 1 None None.
Proof.
  intros Hd. unfold hyperstatique.ctor, hyperstatique.taille. cbn [length].
  change (Z.of_nat 1) with 1%Z. rewrite Z.eqb_refl. cbn [negb orb].
  replace (Z.leb d 0) with false by (symmetry; apply Z.leb_gt; lia).
  reflexivity.
Qed.

Lemma ctor_var_une_travee_une_valeur (L E v : R) (pos : list R) (d : Z) :
  (1 <= d)%Z ->
  hyperstatique.ctor_var [L] [E] [[v]] [pos] d
  = hyperstatique.initialiser_donnees [L] [E] [] d 1
      (Some [[v; v]]) (Some [[0; L]]).
Proof.
  intros Hd. unfold hyperstatique.ctor_var, hyperstatique.taille. cbn [length].
  change (Z.of_nat 1) with 1%Z. rewrite Z.eqb_refl. cbn [negb orb].
  cbn [seq fold_left nth length Nat.eqb remplacer].
  replace (Z.leb d 0) with false by (symmetry; apply Z.leb_gt; lia).
  reflexivity.
Qed.

(** C4, at L = 2, E = 1, v = 5, division = 4.  Through the multi-span
    constructor the one-value table is normalised to values [5, 5] at
    positions [0, 2] and the span built on it has the a and the b of the
    constant-inertia span, but c = 2/5 where the constant-inertia span has
    c = 2/15.  A span constructed directly with the one-value table has its
    base class normalised but keeps the table of one value for its own
    coefficients: a = b = c = 0. *)
Theorem single_value_coefficients_differ :
  let constante := travee.ctor 2 1 5 4 in
  travee.a constante = 2 / 15 /\ travee.b constante = 1 / 15
  /\ travee.c constante = 2 / 15
  /\ (exists h tr,
        hyperstatique.ctor_var [2] [1] [[5]] [[2]] 4 = Ok h
        /\ hyperstatique.I_var h = Some [[5; 5]]
        /\ hyperstatique.pos_I_var h = Some [[0; 2]]
        /\ hyperstatique.iso_cache h = [tr]
        /\ travee.a tr = 2 / 15 /\ travee.b tr = 1 / 15 /\ travee.c tr = 2 / 5)
  /\ (exists tr,
        travee.ctor_var 2 1 [5] [2] 4 = Ok tr
        /\ isostatique.I_varer (travee.base tr) = [5; 5]
        /\ isostatique.pos_I_varier (travee.base tr) = [0; 2]
        /\ travee.a tr = 0 /\ travee.b tr = 0 /\ travee.c tr = 0).
Proof.
  intros constante.
  split; [unfold travee.a; simpl; field|].
  split; [unfold travee.b; simpl; field|].
  split; [unfold travee.c; simpl; field|].
  split.
  - rewrite ctor_var_une_travee_une_valeur by lia.
    unfold hyperstatique.initialiser_donnees.
    rewrite mise_en_place_une_travee_var, travee_table_normalisee. cbn [bind].
    eexists. eexists. split; [reflexivity|].
    cbn [hyperstatique.I_var hyperstatique.pos_I_var hyperstatique.iso_cache].
    split; [reflexivity|]. split; [reflexivity|]. split; [reflexivity|].
    destruct (coefficients_table_normalisee 2 1 5 (isostatique.mk 1 0 [5; 5] [0; 2] 2 4))
      as (Ha & Hb & Hc); lra.
  - eexists. split; [apply travee_une_valeur_directe|].
    split; [reflexivity|]. split; [reflexivity|].
    unfold travee.a, travee.b, travee.c, travee.somme_segments.
    cbn [travee.I_varer travee.pos_I_varier length Nat.sub seq fold_left].
    repeat split; ring.
Qed.

(** ** C2: superposition of the bending moment *)

Lemma nth_map_dans {A B : Type} (f : A -> B) (l : list A) (k : nat) (d : A) (d' : B) :
  (k < length l)%nat -> nth k (map f l) d' = f (nth k l d).
Proof.
  intros H. rewrite (nth_indep _ d' (f d)) by (rewrite length_map; exact H).
  apply map_nth.
Qed.

(** C2. In the row of M_flechissant for the observed span t and the
    section s, the entry of the loaded span i and the load position j is the
    linear interpolation between GAUCHE_DROITE[i][t][j] and
    GAUCHE_DROITE[i][t+1][j] at the section, over the length of span t, to
    which the isostatic moment Mu_iso_total[t][s][j] is added when t = i
    and only then. *)
Theorem moment_superposition
    (L_tr : list R) (division nombre_travee : Z) (alpha : list (list R))
    (GAUCHE_DROITE Mu_iso_total : list (list (list R))) (t s i j : nat) :
  (t < Z.to_nat nombre_travee)%nat ->
  (s < length alpha.{t})%nat ->
  (i < Z.to_nat nombre_travee)%nat ->
  (j < Z.to_nat (division + 1))%nat ->
  let interpolation :=
    GAUCHE_DROITE.{i}.{t}.[j] * (1 - alpha.{t}.[s] / L_tr.[t])
    + GAUCHE_DROITE.{i}.{t + 1}.[j] * alpha.{t}.[s] / L_tr.[t] in
  (hyperstatique.M_flechissant L_tr division nombre_travee alpha
     GAUCHE_DROITE Mu_iso_total).{t}.{s}.[i * Z.to_nat (division + 1) + j]
  = if Nat.eqb t i then Mu_iso_total.{t}.{s}.[j] + interpolation
    else interpolation.
Proof.
  intros Ht Hs Hi Hj interpolation.
  unfold hyperstatique.M_flechissant, hyperstatique.travees, hyperstatique.positions.
  rewrite nth_map_seq by exact Ht. cbn [Nat.add].
  rewrite (nth_map_dans _ (enumerate alpha.{t}) s (O, 0))
    by (rewrite length_enumerate; exact Hs).
  rewrite nth_enumerate by exact Hs.
  rewrite (nth_flat_map_seq _ (Z.to_nat (division + 1)))
    by (try assumption; intros k; rewrite length_map, length_seq; reflexivity).
  rewrite nth_map_seq by exact Hj. cbn [Nat.add].
  reflexivity.
Qed.

Lemma moment_superposition_witness :
  (hyperstatique.M_flechissant [4; 6] 1 2 [[0; 4]; [0; 6]]
     [[[0; 1]; [2; 3]; [0; 0]]; [[0; 0]; [5; 7]; [0; 0]]]
     [[[0; 0]; [0; 0]]; [[0; 0]; [0; 0]]]).{1}.{1}.[0 * Z.to_nat (1 + 1) + 1]
  = 3 * (1 - 6 / 6) + 0 * 6 / 6.
Proof.
  apply (moment_superposition [4; 6] 1 2 [[0; 4]; [0; 6]]
           [[[0; 1]; [2; 3]; [0; 0]]; [[0; 0]; [5; 7]; [0; 0]]]
           [[[0; 0]; [0; 0]]; [[0; 0]; [0; 0]]] 1 1 0 1); simpl; lia.
Defined.

(** The isostatic term of the superposition.  Row [s] of
    moment_flechissant() is M(alpha[s]), whose entry [j] is the moment at the
    grid point j for a load at the grid point s; by reciprocity it is also
    the moment at the section s for a load at the position j, which is how
    M_flechissant reads it. *)
Lemma moment_at_symetrique (self : isostatique.t) (x sigma : R) :
  moment_at self x sigma = moment_at self sigma x.
Proof.
  unfold moment_at, Rle_b.
  destruct (Rle_dec x sigma), (Rle_dec sigma x); try reflexivity; lra.
Qed.

Lemma moment_flechissant_entree (self : isostatique.t) (s j : nat) :
  0 < isostatique.L self -> (1 <= isostatique.division self)%Z ->
  (s <= Z.to_nat (isostatique.division self))%nat ->
  (j <= Z.to_nat (isostatique.division self))%nat ->
  (isostatique.moment_flechissant self).{s}.[j]
  = moment_at self (point self s) (point self j).
Proof.
  intros HL Hd Hs Hj. unfold isostatique.moment_flechissant.
  rewrite (nth_map_dans _ _ s 0) by (rewrite length_alpha; lia).
  rewrite nth_alpha by exact Hs.
  rewrite M_dans by (apply point_borne; assumption).
  rewrite (nth_map_dans _ _ j 0) by (rewrite length_alpha; lia).
  rewrite nth_alpha by exact Hj.
  apply moment_at_symetrique.
Qed.

(** ** C8: reciprocity of the moment influence function *)

(** Every grid point lies in the span, whatever the number of divisions:
    without any division the grid is the single point L. *)
Lemma point_dans_travee (self : isostatique.t) (k : nat) :
  0 < isostatique.L self ->
  (k <= Z.to_nat (isostatique.division self))%nat ->
  0 <= point self k <= isostatique.L self.
Proof.
  intros HL Hk.
  destruct (Z.le_gt_cases 1 (isostatique.division self)) as [Hd | Hd].
  - apply point_borne; assumption.
  - unfold point.
    destruct (Nat.ltb_spec k (Z.to_nat (isostatique.division self))); [lia | lra].
Qed.

(** C8. For a span of length L > 0, M(sigma) holds, for every load position
    sigma in [0, L], one entry per grid point x, equal to x*(1 - sigma/L)
    when x <= sigma and to sigma*(1 - x/L) when x > sigma.  That value is
    unchanged when x and sigma, both in [0, L], are exchanged
    (Maxwell-Betti), so that the entry of M(alpha[s]) for the grid point j
    equals the entry of M(alpha[j]) for the grid point s: the surface
    moment_flechissant() is a symmetric matrix. *)
Theorem moment_symmetric (self : isostatique.t) :
  0 < isostatique.L self ->
  let L := isostatique.L self in
  let D := Z.to_nat (isostatique.division self) in
  let moment := fun x sigma : R =>
    if Rle_b x sigma then x * (1 - sigma / L) else sigma * (1 - x / L) in
  (forall sigma, 0 <= sigma <= L ->
     isostatique.M self sigma = map (fun x => moment x sigma) (isostatique.alpha self)
     /\ length (isostatique.M self sigma) = (D + 1)%nat)
  /\ (forall x sigma, 0 <= x <= L -> 0 <= sigma <= L ->
        isostatique.M_point self sigma x = [moment x sigma]
        /\ moment x sigma = moment sigma x)
  /\ (forall s j, (s <= D)%nat -> (j <= D)%nat ->
        0 <= (isostatique.alpha self).[s] <= L
        /\ (isostatique.M self (isostatique.alpha self).[s]).[j]
           = moment (isostatique.alpha self).[j] (isostatique.alpha self).[s]
        /\ (isostatique.M self (isostatique.alpha self).[s]).[j]
           = (isostatique.M self (isostatique.alpha self).[j]).[s]
        /\ (isostatique.moment_flechissant self).{s}.[j]
           = (isostatique.moment_flechissant self).{j}.[s]).
Proof.
  intros HL L D moment.
  assert (Hm : forall x sigma, moment x sigma = moment_at self x sigma)
    by reflexivity.
  assert (Hb : forall s, (s <= D)%nat -> 0 <= (isostatique.alpha self).[s] <= L).
  { intros s Hs. rewrite (nth_alpha self s) by exact Hs.
    apply point_dans_travee; assumption. }
  assert (HM : forall s j, (s <= D)%nat -> (j <= D)%nat ->
            (isostatique.M self (isostatique.alpha self).[s]).[j]
            = moment (isostatique.alpha self).[j] (isostatique.alpha self).[s]).
  { intros s j Hs Hj. rewrite M_dans by apply (Hb s Hs).
    rewrite (nth_map_dans _ _ j 0) by (rewrite length_alpha; fold D; lia).
    reflexivity. }
  assert (Hsym : forall s j, (s <= D)%nat -> (j <= D)%nat ->
            (isostatique.M self (isostatique.alpha self).[s]).[j]
            = (isostatique.M self (isostatique.alpha self).[j]).[s]).
  { intros s j Hs Hj. rewrite (HM s j Hs Hj), (HM j s Hj Hs), !Hm.
    apply moment_at_symetrique. }
  split; [|split].
  - intros sigma Hs. rewrite M_dans by apply Hs. split.
    + reflexivity.
    + rewrite length_map, length_alpha. reflexivity.
  - intros x sigma _ _. split.
    + apply M_point_moment_at.
    + rewrite !Hm. apply moment_at_symetrique.
  - intros s j Hs Hj. split; [apply Hb; exact Hs|].
    split; [apply HM; assumption|]. split; [apply Hsym; assumption|].
    unfold isostatique.moment_flechissant.
    rewrite (nth_map_dans _ _ s 0), (nth_map_dans _ _ j 0)
      by (rewrite length_alpha; fold D; lia).
    apply Hsym; assumption.
Qed.

Lemma moment_symmetric_witness :
  isostatique.M (isostatique.ctor 4 1 1 4) 3
  = map (fun x => if Rle_b x 3 then x * (1 - 3 / 4) else 3 * (1 - x / 4))
        (isostatique.alpha (isostatique.ctor 4 1 1 4))
  /\ (isostatique.moment_flechissant (isostatique.ctor 4 1 1 4)).{1}.[3]
     = (isostatique.moment_flechissant (isostatique.ctor 4 1 1 4)).{3}.[1].
Proof.
  assert (HL : 0 < isostatique.L (isostatique.ctor 4 1 1 4)) by (simpl; lra).
  pose proof (moment_symmetric (isostatique.ctor 4 1 1 4) HL) as H.
  cbv zeta in H. destruct H as (HM & _ & Hsym). split.
  - apply (HM 3). simpl. lra.
  - apply (Hsym 1%nat 3%nat); simpl; lia.
Defined.

(** ** C1: a structure of one span *)

Section Une_travee.

Variables L E I : R.
Variable d : Z.
Hypothesis L_pos : 0 < L.
Hypothesis d_pos : (1 <= d)%Z.

Lemma positions_division :
  hyperstatique.positions d = seq 0 (Z.to_nat d + 1).
Proof.
  unfold hyperstatique.positions. rewrite Z2Nat.inj_add by lia. reflexivity.
Qed.

Lemma phy_une_travee :
  rapport_focau.phy (hyperstatique.rap 1 [travee.ctor L E I d]) = [0].
Proof. reflexivity. Qed.

Lemma phy_prime_une_travee :
  rapport_focau.phy_prime (hyperstatique.rap 1 [travee.ctor L E I d]) = [0].
Proof. reflexivity. Qed.

(** No redundant support: every induced support moment is zero. *)
Lemma GAUCHE_DROITE_nulle :
  hyperstatique.tr_G_D d 1 [travee.ctor L E I d] [0] [0]
  = [[map (fun _ => 0) (hyperstatique.positions d);
      map (fun _ => 0) (hyperstatique.positions d)]].
Proof.
  unfold hyperstatique.tr_G_D, hyperstatique.tr_m_appuis_gauche,
    hyperstatique.tr_m_appuis_droite, hyperstatique.travees,
    hyperstatique.m_appuis_gauche, hyperstatique.m_appuis_droite,
    hyperstatique.moment_au_appuit_travee_charger_gauche,
    hyperstatique.moment_au_appuit_travee_charger_droite,
    hyperstatique.travees, hyperstatique.prod_list.
  change (Z.to_nat 1) with 1%nat.
  cbn [seq map nth app Nat.add Nat.sub].
  rewrite !map_map.
  f_equal. f_equal; [|f_equal]; apply map_ext; intros j; simpl; unfold Rdiv; ring.
Qed.

Lemma nth_nulle {A : Type} (l : list A) (k : nat) : (map (fun _ => 0) l).[k] = 0.
Proof.
  revert k. induction l as [|x l IH]; intros [|k]; simpl; auto.
Qed.

Lemma map_nulle {A : Type} (l : list A) :
  map (fun _ => 0) l = repeat 0 (length l).
Proof. induction l as [|x l IH]; simpl; [reflexivity | rewrite IH; reflexivity]. Qed.

Lemma GAUCHE_DROITE_entree (t j : nat) :
  (hyperstatique.tr_G_D d 1 [travee.ctor L E I d] [0] [0]).{0}.{t}.[j] = 0.
Proof.
  rewrite GAUCHE_DROITE_nulle. cbn [nth].
  destruct t as [|[|t]]; cbn [nth]; try apply nth_nulle.
  destruct t, j; reflexivity.
Qed.


End Une_travee.

(** A loop on a pair (local variable, vector) that leaves the variable as it
    is and appends [f x] to the vector. *)
Lemma fold_left_pousse {S A B : Type} (pas : S * list B -> A -> S * list B)
    (f : A -> list B) (s : S) :
  (forall acc x, pas (s, acc) x = (s, acc ++ f x)) ->
  forall l acc, fold_left pas l (s, acc) = (s, acc ++ flat_map f l).
Proof.
  intros H. induction l as [|x l IH]; intros acc; cbn [fold_left flat_map].
  - rewrite app_nil_r. reflexivity.
  - rewrite H, IH, <- app_assoc. reflexivity.
Qed.

(** Adding a null correction to every entry of a surface whose rows have the
    length of the grid gives the surface back. *)
Lemma surface_inchangee (f : R -> list R) (corr : nat -> nat -> R)
    (l : list R) (n : nat) :
  length l = n ->
  (forall x, In x l -> length (f x) = n) ->
  (forall k j, corr k j = 0) ->
  map (fun k => map (fun j => (map f l).{k}.[j] + corr k j) (seq 0 n)) (seq 0 n)
  = map f l.
Proof.
  intros Hl Hf Hc.
  transitivity (map (fun k => (map f l).{k}) (seq 0 (length (map f l))));
    [| apply map_nth_seq].
  rewrite length_map, Hl.
  apply map_ext_in. intros k Hk. apply in_seq in Hk.
  assert (Hn : length (map f l).{k} = n).
  { rewrite (nth_map_dans f l k 0) by lia. apply Hf. apply nth_In. lia. }
  transitivity (map (fun j => (map f l).{k}.[j]) (seq 0 (length (map f l).{k})));
    [| apply map_nth_seq].
  rewrite Hn. apply map_ext. intros j. rewrite Hc. ring.
Qed.

Lemma flat_map_single {A B : Type} (g : A -> B) (l : list A) :
  flat_map (fun x => [g x]) l = map g l.
Proof. induction l as [|x l IH]; simpl; [reflexivity | rewrite IH; reflexivity]. Qed.

Lemma length_T_poids (self : isostatique.t) (sigma : R) (l : list R) :
  length (flat_map (T_point self sigma) l) = poids sigma l.
Proof.
  induction l as [|x l IH]; cbn [flat_map poids]; [reflexivity|].
  rewrite length_app, IH. f_equal.
  unfold T_point, Rlt_b, Req_b.
  destruct (Rlt_dec x sigma); destruct (Rlt_dec sigma x);
    destruct (Req_dec_T sigma x); try reflexivity; lra.
Qed.

(** The loop of T_effort_tranchant on the loaded span itself, when the
    correction is null: it copies the isostatic row, sample by sample. *)
Lemma T_hyp_boucle (Tl : list R) (section : R) (g corr : nat -> R) :
  (forall j, corr j = 0) ->
  forall l compteur hyp,
  fold_left (fun '(compteur, hyp_T) j =>
      if Req_b section (g j) then
        ((compteur + 2)%nat,
         hyp_T ++ [Tl.[compteur] + corr j; Tl.[compteur + 1] + corr j])
      else ((compteur + 1)%nat, hyp_T ++ [Tl.[compteur] + corr j]))
    l (compteur, hyp)
  = ((compteur + poids section (map g l))%nat,
     hyp ++ map (fun k => Tl.[k]) (seq compteur (poids section (map g l)))).
Proof.
  intros Hc. induction l as [|j l IH]; intros compteur hyp;
    cbn [fold_left map poids].
  - rewrite Nat.add_0_r, app_nil_r. reflexivity.
  - destruct (Req_b section (g j)); rewrite IH, Hc, !Rplus_0_r, <- app_assoc.
    + f_equal; [lia|]. f_equal. cbn [Nat.add seq map app].
      rewrite Nat.add_1_r. replace (compteur + 2)%nat with (S (S compteur)) by lia.
      reflexivity.
    + f_equal; [lia|]. f_equal. cbn [Nat.add seq map app].
      rewrite Nat.add_1_r. reflexivity.
Qed.

Section Une_travee_courbes.

Variables L E I : R.
Variable d : Z.
Hypothesis L_pos : 0 < L.
Hypothesis d_pos : (1 <= d)%Z.

(** Any table of support moments that is null on the only span. *)
Variable GAUCHE_DROITE : list (list (list R)).
Hypothesis nulle : forall t j, GAUCHE_DROITE.{0}.{t}.[j] = 0.

Lemma grille_dans_travee (x : R) :
  In x (isostatique.alpha (isostatique.ctor L E I d)) -> x <= L.
Proof.
  intros Hx. apply (In_alpha_borne (isostatique.ctor L E I d)) in Hx; try assumption.
  apply Hx.
Qed.

Lemma length_M_grille (x : R) :
  In x (isostatique.alpha (isostatique.ctor L E I d)) ->
  length (isostatique.M (isostatique.ctor L E I d) x) = (Z.to_nat d + 1)%nat.
Proof.
  intros Hx. rewrite M_dans by (apply grille_dans_travee; exact Hx).
  rewrite length_map. apply length_alpha.
Qed.

Lemma length_OMEGA (x : R) :
  length (isostatique.OMEGA (isostatique.ctor L E I d) x) = (Z.to_nat d + 1)%nat.
Proof.
  unfold isostatique.OMEGA. cbn [isostatique.I_varer isostatique.ctor].
  destruct (Rle_b x _); [rewrite length_map | rewrite repeat_length]; apply length_alpha.
Qed.

Lemma length_V (x : R) :
  length (isostatique.V (isostatique.ctor L E I d) x) = (Z.to_nat d + 1)%nat.
Proof.
  unfold isostatique.V. cbn [isostatique.I_varer isostatique.ctor].
  destruct (Rle_b x _); [rewrite length_map | rewrite repeat_length]; apply length_alpha.
Qed.

Lemma moment_une_travee :
  hyperstatique.M_flechissant [L] d 1
    (hyperstatique.abscisse [travee.ctor L E I d]) GAUCHE_DROITE
    (hyperstatique.Mu_total [travee.ctor L E I d])
  = [isostatique.moment_flechissant (isostatique.ctor L E I d)].
Proof.
  unfold hyperstatique.M_flechissant, hyperstatique.travees,
    hyperstatique.abscisse, hyperstatique.Mu_total.
  change (Z.to_nat 1) with 1%nat.
  cbn [seq map nth travee.base travee.ctor flat_map Nat.eqb].
  f_equal. rewrite positions_division by exact d_pos.
  unfold isostatique.moment_flechissant.
  apply map_enumerate with (d := 0). intros k Hk.
  rewrite app_nil_r.
  rewrite (nth_map_dans _ _ k 0) by exact Hk.
  set (sigma := (isostatique.alpha (isostatique.ctor L E I d)).[k]).
  assert (Hin : In sigma (isostatique.alpha (isostatique.ctor L E I d)))
    by (apply nth_In; exact Hk).
  rewrite <- (length_M_grille sigma Hin).
  transitivity (map (fun j => (isostatique.M (isostatique.ctor L E I d) sigma).[j])
                    (seq 0 (length (isostatique.M (isostatique.ctor L E I d) sigma))));
    [| apply map_nth_seq].
  apply map_ext. intros j. rewrite !nulle. unfold hyperstatique.interpolate.
  unfold Rdiv. ring.
Qed.

Lemma rotation_une_travee :
  hyperstatique.W_rotaion [L] [E] [I] d 1 None None
    (hyperstatique.abscisse [travee.ctor L E I d]) GAUCHE_DROITE
    (hyperstatique.W_total [travee.ctor L E I d])
  = [isostatique.rotation (isostatique.ctor L E I d)].
Proof.
  unfold hyperstatique.W_rotaion, hyperstatique.travees,
    hyperstatique.abscisse, hyperstatique.W_total, hyperstatique.I_tr_empty.
  change (Z.to_nat 1) with 1%nat.
  cbn [seq map nth travee.base travee.ctor].
  f_equal. rewrite positions_division by exact d_pos.
  erewrite (fold_left_pousse _ _ I);
    [| intros acc section; cbn [fold_left Nat.eqb];
       erewrite (fold_left_pousse _ _ I);
       [cbn [app]; reflexivity | intros acc' j; reflexivity]].
  cbn [snd app]. rewrite flat_map_single. unfold isostatique.rotation.
  etransitivity;
    [| apply (surface_inchangee (isostatique.OMEGA (isostatique.ctor L E I d))
                (fun _ j => hyperstatique.calcul_rotation
                   GAUCHE_DROITE.{0}.{0}.[j] GAUCHE_DROITE.{0}.{0 + 1}.[j]
                   (isostatique.alpha (isostatique.ctor L E I d)).[j] L E I)
                (isostatique.alpha (isostatique.ctor L E I d)) (Z.to_nat d + 1))].
  - apply map_ext. intros section. apply flat_map_single.
  - apply length_alpha.
  - intros x _. apply length_OMEGA.
  - intros k j. rewrite !nulle. unfold hyperstatique.calcul_rotation.
    unfold Rdiv. ring.
Qed.

Lemma fleche_une_travee :
  hyperstatique.V_fleche [L] [E] [I] d 1 None None
    (hyperstatique.abscisse [travee.ctor L E I d]) GAUCHE_DROITE
    (hyperstatique.V_total [travee.ctor L E I d])
  = [isostatique.fleche (isostatique.ctor L E I d)].
Proof.
  unfold hyperstatique.V_fleche, hyperstatique.travees,
    hyperstatique.abscisse, hyperstatique.V_total, hyperstatique.I_tr_empty.
  change (Z.to_nat 1) with 1%nat.
  cbn [seq map nth travee.base travee.ctor].
  f_equal. rewrite positions_division by exact d_pos.
  erewrite (fold_left_pousse _ _ I);
    [| intros acc section; cbn [fold_left Nat.eqb];
       erewrite (fold_left_pousse _ _ I);
       [cbn [app]; reflexivity | intros acc' j; reflexivity]].
  cbn [snd app]. rewrite flat_map_single. unfold isostatique.fleche.
  etransitivity;
    [| apply (surface_inchangee (isostatique.V (isostatique.ctor L E I d))
                (fun _ j => hyperstatique.calcul_fleche
                   GAUCHE_DROITE.{0}.{0}.[j] GAUCHE_DROITE.{0}.{0 + 1}.[j]
                   (isostatique.alpha (isostatique.ctor L E I d)).[j] L E I)
                (isostatique.alpha (isostatique.ctor L E I d)) (Z.to_nat d + 1))].
  - apply map_ext. intros section. apply flat_map_single.
  - apply length_alpha.
  - intros x _. apply length_V.
  - intros k j. rewrite !nulle. unfold hyperstatique.calcul_fleche.
    unfold Rdiv. ring.
Qed.

Lemma tranchant_une_travee :
  hyperstatique.T_effort_tranchant [L] d 1
    (hyperstatique.abscisse [travee.ctor L E I d]) GAUCHE_DROITE
    (hyperstatique.T_total [travee.ctor L E I d])
    (hyperstatique.abscisse_T_total [travee.ctor L E I d]) false
  = [isostatique.effort_tranchant (isostatique.ctor L E I d)].
Proof.
  unfold hyperstatique.T_effort_tranchant, hyperstatique.travees,
    hyperstatique.abscisse, hyperstatique.T_total.
  change (Z.to_nat 1) with 1%nat.
  cbn [seq map nth travee.base travee.ctor flat_map Nat.eqb].
  f_equal. rewrite positions_division by exact d_pos.
  unfold isostatique.effort_tranchant.
  apply map_enumerate with (d := 0). intros k Hk.
  rewrite app_nil_r.
  rewrite (nth_map_dans _ _ k 0) by exact Hk.
  set (sigma := (isostatique.alpha (isostatique.ctor L E I d)).[k]).
  assert (Hin : In sigma (isostatique.alpha (isostatique.ctor L E I d)))
    by (apply nth_In; exact Hk).
  rewrite (T_hyp_boucle (isostatique.T (isostatique.ctor L E I d) sigma false) sigma
             (fun j => (isostatique.alpha (isostatique.ctor L E I d)).[j])
             (fun j => hyperstatique.interpolate_effort_tranchant
                         GAUCHE_DROITE.{0}.{0}.[j] GAUCHE_DROITE.{0}.{0 + 1}.[j] L)).
  2:{ intros j. rewrite !nulle. unfold hyperstatique.interpolate_effort_tranchant.
      unfold Rdiv. ring. }
  cbn [snd app].
  replace (Z.to_nat d + 1)%nat
    with (length (isostatique.alpha (isostatique.ctor L E I d)))
    by apply length_alpha.
  rewrite map_nth_seq.
  rewrite <- (length_T_poids (isostatique.ctor L E I d)).
  rewrite (T_dans _ sigma false) by (apply grille_dans_travee; exact Hin).
  apply map_nth_seq.
Qed.

End Une_travee_courbes.

(** C1. For a structure of one span (L > 0, E > 0, I > 0, division >= 1)
    the constructor succeeds, phi = [0] and phi_prime = [0], GAUCHE_DROITE
    holds two rows of division+1 zeros (supports 0 and 1), and the final moment, rotation, deflection and
    shear surfaces are exactly the isostatic surfaces of the span. *)
Theorem single_span_hyperstatic_is_isostatic (L E I : R) (d : Z) :
  0 < L -> 0 < E -> 0 < I -> (1 <= d)%Z ->
  let iso := isostatique.ctor L E I d in
  exists h,
    hyperstatique.ctor [L] [E] [I] d = Ok h
    /\ hyperstatique.phy h = [0] /\ hyperstatique.phy_prime h = [0]
    /\ hyperstatique.GAUCHE_DROITE h
       = [[repeat 0 (Z.to_nat d + 1); repeat 0 (Z.to_nat d + 1)]]
    /\ hyperstatique.Courbe_moment_en_travee h = [isostatique.moment_flechissant iso]
    /\ hyperstatique.Courbe_rotation_en_travee h = [isostatique.rotation iso]
    /\ hyperstatique.Courbe_fleche_en_travee h = [isostatique.fleche iso]
    /\ hyperstatique.Courbe_effort_tranchant_en_travee h
       = [isostatique.effort_tranchant iso].
Proof.
  intros HL _ _ Hd iso.
  rewrite ctor_une_travee by exact Hd.
  unfold hyperstatique.initialiser_donnees.
  rewrite mise_en_place_une_travee by lia. cbn [bind].
  rewrite phy_une_travee, phy_prime_une_travee.
  eexists. split; [reflexivity|].
  cbn [hyperstatique.phy hyperstatique.phy_prime hyperstatique.GAUCHE_DROITE
       hyperstatique.Courbe_moment_en_travee hyperstatique.Courbe_rotation_en_travee
       hyperstatique.Courbe_fleche_en_travee
       hyperstatique.Courbe_effort_tranchant_en_travee].
  split; [reflexivity|]. split; [reflexivity|].
  split.
  { rewrite GAUCHE_DROITE_nulle, positions_division, map_nulle, length_seq
      by exact Hd.
    reflexivity. }
  split; [apply moment_une_travee; try assumption; apply GAUCHE_DROITE_entree|].
  split; [apply rotation_une_travee; try assumption; apply GAUCHE_DROITE_entree|].
  split; [apply fleche_une_travee; try assumption; apply GAUCHE_DROITE_entree|].
  apply tranchant_une_travee; try assumption. apply GAUCHE_DROITE_entree.
Qed.

Lemma single_span_hyperstatic_is_isostatic_witness :
  exists h,
    hyperstatique.ctor [5] [1] [1] 4 = Ok h
    /\ hyperstatique.Courbe_moment_en_travee h
       = [isostatique.moment_flechissant (isostatique.ctor 5 1 1 4)]
    /\ hyperstatique.Courbe_effort_tranchant_en_travee h
       = [isostatique.effort_tranchant (isostatique.ctor 5 1 1 4)].
Proof.
  destruct (single_span_hyperstatic_is_isostatic 5 1 1 4)
    as (h & Hh & _ & _ & _ & HM & _ & _ & HT); try lra; try lia.
  exists h. repeat split; assumption.
Defined.

(** * Further properties of the code *)

(** ** trapeze: value and errors *)

Lemma size_moins_un_exact {A : Type} (v : list A) :
  v <> [] -> (Z.of_nat (length v) <= 2 ^ 64)%Z ->
  traitement.size_moins_un v = (Z.of_nat (length v) - 1)%Z.
Proof.
  intros Hne Hmax. unfold traitement.size_moins_un.
  destruct v as [|a v]; [contradiction|].
  apply Z.mod_small. cbn [length] in *. lia.
Qed.

Lemma strictement_croissante_sorted (x : list R) :
  strictement_croissante x -> traitement.is_sorted x = true.
Proof.
  induction x as [|a [|b x] IH]; intros H; try reflexivity.
  cbn [traitement.is_sorted]. rewrite Rlt_b_false.
  - cbn [negb andb]. apply IH. intros i Hi. apply (H (S i)). cbn [length] in *. lia.
  - left. apply (H 0%nat). cbn [length]. lia.
Qed.

(** The loop on strictly increasing abscissas: the compensation term never
    changes and the area grows by the remaining trapezoids. *)
Lemma boucle_trapeze_valeur (x y : list R) :
  x <> [] -> (Z.of_nat (length x) <= 2 ^ 64)%Z ->
  length x = length y -> strictement_croissante x ->
  forall fuel i aire erreur,
  (i <= length x - 1)%nat -> (length x <= fuel + i)%nat ->
  exists a,
    traitement.boucle_trapeze fuel x y i aire erreur = Some (Ok (a, erreur))
    /\ a = aire + somme_trapezes x y i (length x - 1 - i).
Proof.
  intros Hne Hmax Hlen Hs.
  pose proof (size_moins_un_exact x Hne Hmax) as Hb.
  induction fuel as [|fuel IH]; intros i aire erreur Hi Hf.
  - cbn [traitement.boucle_trapeze]. rewrite Hb.
    destruct (Z.ltb_spec (Z.of_nat i) (Z.of_nat (length x) - 1)); [lia|].
    cbn [negb]. replace (length x - 1 - i)%nat with 0%nat by lia.
    exists aire. split; [reflexivity | simpl; ring].
  - cbn [traitement.boucle_trapeze]. rewrite Hb.
    destruct (Z.ltb_spec (Z.of_nat i) (Z.of_nat (length x) - 1)) as [Hlt | Hge];
      cbn [negb].
    + rewrite (lire_dans x (i + 1)), (lire_dans x i) by lia.
      rewrite Nat.add_1_r.
      rewrite Rle_b_false by (specialize (Hs i ltac:(lia)); lra).
      rewrite (lire_dans y i), (lire_dans y (S i)) by lia.
      match goal with |- context [traitement.boucle_trapeze _ _ _ _ ?t ?e] =>
        replace e with erreur by ring;
        destruct (IH (S i) t erreur ltac:(lia) ltac:(lia)) as (a & Ha & Hv)
      end.
      exists a. split; [exact Ha|].
      rewrite Hv. replace (length x - 1 - i)%nat with (S (length x - 1 - S i)) by lia.
      cbn [somme_trapezes]. ring.
    + replace (length x - 1 - i)%nat with 0%nat by lia.
      exists aire. split; [reflexivity | simpl; ring].
Qed.

Lemma trapeze_somme (x y : list R) :
  x <> [] -> (Z.of_nat (length x) <= 2 ^ 64)%Z ->
  length x = length y -> strictement_croissante x ->
  exists r, traitement.trapeze x y = Some (Ok r)
            /\ r = somme_trapezes x y 0 (length x - 1).
Proof.
  intros Hne Hmax Hlen Hs. unfold traitement.trapeze.
  rewrite Hlen, Nat.eqb_refl, <- Hlen, (strictement_croissante_sorted x Hs).
  cbn [negb].
  destruct (boucle_trapeze_valeur x y Hne Hmax Hlen Hs (S (length x)) 0%nat 0 0
              ltac:(lia) ltac:(lia)) as (a & Ha & Hv).
  rewrite Ha. eexists. split; [reflexivity|].
  rewrite Hv, Nat.sub_0_r. ring.
Qed.

(** X1. On a non-empty vector of strictly increasing abscissas (of a size
    that a vector can have) and as many ordinates, trapeze returns the sum
    of the trapezoid areas: on exact reals the compensated accumulation is
    the plain sum. *)
Theorem trapeze_valeur (x y : list R) :
  x <> [] -> (Z.of_nat (length x) <= 2 ^ 64)%Z ->
  length x = length y -> strictement_croissante x ->
  exists r, traitement.trapeze x y = Some (Ok r)
            /\ r = somme_trapezes x y 0 (length x - 1).
Proof. exact (trapeze_somme x y). Qed.

Lemma trapeze_valeur_witness :
  exists r, traitement.trapeze [0; 1; 3] [2; 4; 4] = Some (Ok r)
            /\ r = somme_trapezes [0; 1; 3] [2; 4; 4] 0 2.
Proof.
  apply (trapeze_valeur [0; 1; 3] [2; 4; 4]).
  - discriminate.
  - cbn [length]. lia.
  - reflexivity.
  - intros [|[|i]] Hi; cbn [length nth] in *; try lia; lra.
Defined.

Lemma somme_trapezes_constante (x y : list R) (c : R) (n : nat) :
  forall i, (forall k, (i <= k <= i + n)%nat -> y.[k] = c) ->
  somme_trapezes x y i n = c * (x.[i + n] - x.[i]).
Proof.
  induction n as [|n IH]; intros i Hy; cbn [somme_trapezes].
  - rewrite Nat.add_0_r. ring.
  - rewrite (IH (S i)) by (intros k Hk; apply Hy; lia).
    rewrite (Hy i), (Hy (S i)) by lia.
    replace (S i + n)%nat with (i + S n)%nat by lia. field.
Qed.

Lemma somme_trapezes_signe (x y : list R) (n : nat) :
  forall i, (forall k, (i <= k < i + n)%nat -> x.[k] <= x.[S k]) ->
  ((forall k, (i <= k <= i + n)%nat -> 0 <= y.[k]) -> 0 <= somme_trapezes x y i n)
  /\ ((forall k, (i <= k <= i + n)%nat -> y.[k] <= 0) -> somme_trapezes x y i n <= 0).
Proof.
  induction n as [|n IH]; intros i Hx; cbn [somme_trapezes].
  - split; intros _; lra.
  - destruct (IH (S i)) as [Hp Hn]; [intros k Hk; apply Hx; lia|].
    pose proof (Hx i ltac:(lia)) as Hxi.
    split; intros Hy.
    + specialize (Hp ltac:(intros k Hk; apply Hy; lia)).
      pose proof (Hy i ltac:(lia)). pose proof (Hy (S i) ltac:(lia)). nra.
    + specialize (Hn ltac:(intros k Hk; apply Hy; lia)).
      pose proof (Hy i ltac:(lia)). pose proof (Hy (S i) ltac:(lia)). nra.
Qed.

(** X2. For a constant ordinate c over strictly increasing abscissas the
    area is c times the distance from the first to the last abscissa. *)
Theorem trapeze_constante (x : list R) (c : R) :
  x <> [] -> (Z.of_nat (length x) <= 2 ^ 64)%Z ->
  strictement_croissante x ->
  exists r, traitement.trapeze x (repeat c (length x)) = Some (Ok r)
            /\ r = c * (x.[length x - 1] - x.[0]).
Proof.
  intros Hne Hmax Hs.
  destruct (trapeze_somme x (repeat c (length x)) Hne Hmax) as (r & Hr & Hv);
    [rewrite repeat_length; reflexivity | exact Hs |].
  exists r. split; [exact Hr|]. rewrite Hv.
  rewrite (somme_trapezes_constante x _ c); [reflexivity|].
  intros k Hk. destruct (Nat.lt_ge_cases k (length x)) as [Hlt | Hge].
  - apply nth_repeat_lt. exact Hlt.
  - destruct x; [contradiction | cbn [length] in *; lia].
Qed.

Lemma trapeze_constante_witness :
  exists r, traitement.trapeze [0; 1; 3] (repeat 7 (length [0; 1; 3])) = Some (Ok r)
            /\ r = 7 * ([0; 1; 3].[length [0; 1; 3] - 1] - [0; 1; 3].[0]).
Proof.
  apply (trapeze_constante [0; 1; 3] 7).
  - discriminate.
  - cbn [length]. lia.
  - intros [|[|i]] Hi; cbn [length nth] in *; try lia; lra.
Defined.

(** X3. The area of a lobe has the sign of the lobe: ordinates that are all
    non-negative give a non-negative area, ordinates that are all
    non-positive give a non-positive one. *)
Theorem trapeze_signe (x y : list R) :
  x <> [] -> (Z.of_nat (length x) <= 2 ^ 64)%Z ->
  length x = length y -> strictement_croissante x ->
  exists r, traitement.trapeze x y = Some (Ok r)
    /\ ((forall v, In v y -> 0 <= v) -> 0 <= r)
    /\ ((forall v, In v y -> v <= 0) -> r <= 0).
Proof.
  intros Hne Hmax Hlen Hs.
  destruct (trapeze_somme x y Hne Hmax Hlen Hs) as (r & Hr & Hv).
  exists r. split; [exact Hr|]. rewrite Hv.
  assert (Hlx : (1 <= length x)%nat) by (destruct x; [contradiction | cbn [length]; lia]).
  destruct (somme_trapezes_signe x y (length x - 1) 0) as [Hp Hn].
  { intros k Hk. left. apply Hs. lia. }
  split; intros Hy; [apply Hp | apply Hn];
    intros k Hk; apply Hy; apply nth_In; lia.
Qed.

Lemma trapeze_signe_witness :
  exists r, traitement.trapeze [0; 1; 3] [-2; -4; 0] = Some (Ok r) /\ r <= 0.
Proof.
  destruct (trapeze_signe [0; 1; 3] [-2; -4; 0]) as (r & Hr & _ & Hn).
  - discriminate.
  - cbn [length]. lia.
  - reflexivity.
  - intros [|[|i]] Hi; cbn [length nth] in *; try lia; lra.
  - exists r. split; [exact Hr|]. apply Hn.
    intros v [<- | [<- | [<- | []]]]; lra.
Defined.

Lemma is_sorted_croissante (x : list R) :
  (forall i, (S i < length x)%nat -> x.[i] <= x.[S i]) ->
  traitement.is_sorted x = true.
Proof.
  induction x as [|a [|b x] IH]; intros H; try reflexivity.
  cbn [traitement.is_sorted]. rewrite Rlt_b_false.
  - cbn [negb andb]. apply IH. intros i Hi. apply (H (S i)). cbn [length] in *. lia.
  - apply (H 0%nat). cbn [length]. lia.
Qed.

Lemma is_sorted_descente (x : list R) :
  (exists i, (S i < length x)%nat /\ x.[S i] < x.[i]) ->
  traitement.is_sorted x = false.
Proof.
  induction x as [|a [|b x] IH]; intros (i & Hi & Hd); cbn [length] in Hi; try lia.
  change (negb (Rlt_b b a) && traitement.is_sorted (b :: x) = false).
  destruct i as [|i].
  - cbn [nth] in Hd. rewrite (Rlt_b_true _ _ Hd). reflexivity.
  - rewrite IH; [apply andb_false_r|]. exists i. split; [cbn [length]; lia | exact Hd].
Qed.

(** The loop stops with the error at the first interval that is not
    positive. *)
Lemma boucle_trapeze_intervalle (x y : list R) :
  (Z.of_nat (length x) <= 2 ^ 64)%Z -> length x = length y ->
  forall fuel i aire erreur,
  (exists k, (i <= k)%nat /\ (S k < length x)%nat /\ x.[S k] <= x.[k]) ->
  (length x <= fuel + i)%nat ->
  traitement.boucle_trapeze fuel x y i aire erreur = Some (Throw Invalid_interval).
Proof.
  intros Hmax Hlen.
  induction fuel as [|fuel IH]; intros i aire erreur (k & Hik & Hk & Hx) Hf; [lia|].
  assert (Hne : x <> []) by (destruct x; [cbn [length] in Hk; lia | discriminate]).
  cbn [traitement.boucle_trapeze]. rewrite (size_moins_un_exact x Hne Hmax).
  destruct (Z.ltb_spec (Z.of_nat i) (Z.of_nat (length x) - 1)); [|lia].
  cbn [negb].
  rewrite (lire_dans x (i + 1)), (lire_dans x i) by lia. rewrite Nat.add_1_r.
  destruct (Rle_b (x.[S i] - x.[i]) 0) eqn:Hh; [reflexivity|].
  rewrite (lire_dans y i), (lire_dans y (S i)) by lia.
  apply IH; [|lia]. exists k. split; [|split; assumption].
  destruct (Nat.eq_dec k i) as [-> | Hne']; [|lia].
  rewrite Rle_b_true in Hh by lra. discriminate.
Qed.

(** X4. The errors of trapeze: vectors of different sizes, abscissas with a
    descent, and abscissas in ascending order with a repeated value, which
    pass the sorting test but make an interval of length zero. *)
Theorem trapeze_erreurs (x y : list R) :
  (length x <> length y ->
     traitement.trapeze x y = Some (Throw Mismatch_dimensions))
  /\ (length x = length y ->
      (exists i, (S i < length x)%nat /\ x.[S i] < x.[i]) ->
      traitement.trapeze x y = Some (Throw Abscisses_not_sorted))
  /\ (length x = length y -> (Z.of_nat (length x) <= 2 ^ 64)%Z ->
      (forall i, (S i < length x)%nat -> x.[i] <= x.[S i]) ->
      (exists i, (S i < length x)%nat /\ x.[i] = x.[S i]) ->
      traitement.trapeze x y = Some (Throw Invalid_interval)).
Proof.
  unfold traitement.trapeze. split; [|split].
  - intros H. apply Nat.eqb_neq in H. rewrite H. reflexivity.
  - intros Hlen Hd. rewrite Hlen, Nat.eqb_refl, <- Hlen.
    rewrite (is_sorted_descente x Hd). reflexivity.
  - intros Hlen Hmax Hc (i & Hi & He). rewrite Hlen, Nat.eqb_refl, <- Hlen.
    rewrite (is_sorted_croissante x Hc). cbn [negb].
    rewrite (boucle_trapeze_intervalle x y Hmax Hlen); [reflexivity | | lia].
    exists i. split; [lia|]. split; [exact Hi | lra].
Qed.

Lemma trapeze_erreurs_witness :
  traitement.trapeze [0; 1] [2] = Some (Throw Mismatch_dimensions)
  /\ traitement.trapeze [0; 2; 1] [1; 1; 1] = Some (Throw Abscisses_not_sorted)
  /\ traitement.trapeze [0; 1; 1] [1; 1; 1] = Some (Throw Invalid_interval).
Proof.
  split; [|split].
  - apply (trapeze_erreurs [0; 1] [2]). cbn [length]. lia.
  - apply (trapeze_erreurs [0; 2; 1] [1; 1; 1]); [reflexivity|].
    exists 1%nat. cbn [length nth]. split; [lia | lra].
  - apply (trapeze_erreurs [0; 1; 1] [1; 1; 1]).
    + reflexivity.
    + cbn [length]. lia.
    + intros [|[|i]] Hi; cbn [length nth] in *; try lia; lra.
    + exists 1%nat. cbn [length nth]. split; [lia | reflexivity].
Defined.

(** ** The single span: grid, moment, deflection, rotation *)

(** X5. For L > 0 and division >= 1 the grid has division+1 points, starts
    at 0, ends exactly at L and is strictly increasing. *)
Theorem grille_croissante (self : isostatique.t) :
  0 < isostatique.L self -> (1 <= isostatique.division self)%Z ->
  let D := Z.to_nat (isostatique.division self) in
  length (isostatique.alpha self) = (D + 1)%nat
  /\ (isostatique.alpha self).[0] = 0
  /\ (isostatique.alpha self).[D] = isostatique.L self
  /\ strictement_croissante (isostatique.alpha self).
Proof.
  intros HL Hd D.
  split; [apply length_alpha|].
  split; [rewrite nth_alpha by lia; apply point_0; assumption|].
  split; [rewrite nth_alpha by lia; apply point_dernier|].
  intros i Hi. rewrite length_alpha in Hi.
  rewrite !nth_alpha by lia. apply point_croissant; assumption || lia.
Qed.

Lemma grille_croissante_witness :
  strictement_croissante (isostatique.alpha (isostatique.ctor 4 1 1 4)).
Proof.
  apply (grille_croissante (isostatique.ctor 4 1 1 4)); simpl; lra || lia.
Defined.

Lemma quotient_unite (s L : R) : 0 < L -> 0 <= s <= L -> 0 <= s / L <= 1.
Proof.
  intros HL Hs. split.
  - unfold Rdiv. apply Rmult_le_pos; [lra|]. left. apply Rinv_0_lt_compat. exact HL.
  - apply Rmult_le_reg_r with L; [exact HL|].
    replace (s / L * L) with s by (field; lra). lra.
Qed.

Lemma moment_at_bornes (self : isostatique.t) (x sigma : R) :
  0 < isostatique.L self ->
  0 <= x <= isostatique.L self -> 0 <= sigma <= isostatique.L self ->
  0 <= moment_at self x sigma <= sigma * (1 - sigma / isostatique.L self)
  /\ moment_at self x sigma <= isostatique.L self / 4.
Proof.
  intros HL Hx Hs. unfold moment_at.
  set (L := isostatique.L self) in *.
  assert (Hu : sigma / L * L = sigma) by (field; lra).
  assert (Hw : x / L * L = x) by (field; lra).
  assert (Hu1 : 0 <= sigma / L <= 1) by (apply quotient_unite; lra).
  assert (Hw1 : 0 <= x / L <= 1) by (apply quotient_unite; lra).
  set (u := sigma / L) in *. set (w := x / L) in *. clearbody u w L.
  assert (Hq : u * (1 - u) <= 1 / 4)
    by (pose proof (Rle_0_sqr (u - 1 / 2)) as Hsq; unfold Rsqr in Hsq; lra).
  assert (Hmax : sigma * (1 - u) <= L / 4).
  { rewrite <- Hu. replace (L / 4) with (1 / 4 * L) by field.
    replace (u * L * (1 - u)) with (u * (1 - u) * L) by ring.
    apply Rmult_le_compat_r; lra. }
  unfold Rle_b. destruct (Rle_dec x sigma) as [Hle | Hgt].
  - assert (H1 : 0 <= x * (1 - u)) by (apply Rmult_le_pos; lra).
    assert (H2 : x * (1 - u) <= sigma * (1 - u))
      by (apply Rmult_le_compat_r; lra).
    lra.
  - assert (Hwu : u <= w) by nra.
    assert (H1 : 0 <= sigma * (1 - w)) by (apply Rmult_le_pos; lra).
    assert (H2 : sigma * (1 - w) <= sigma * (1 - u))
      by (apply Rmult_le_compat_l; lra).
    lra.
Qed.

(** X6. For a load position sigma in [0, L] the moment row M(sigma) has
    division+1 entries, is zero at both ends of the span, and every entry
    lies between 0 and the value sigma*(1 - sigma/L) under the load, itself
    at most L/4. *)
Theorem moment_bornes (self : isostatique.t) (sigma : R) :
  0 < isostatique.L self -> (1 <= isostatique.division self)%Z ->
  0 <= sigma <= isostatique.L self ->
  let D := Z.to_nat (isostatique.division self) in
  length (isostatique.M self sigma) = (D + 1)%nat
  /\ (isostatique.M self sigma).[0] = 0
  /\ (isostatique.M self sigma).[D] = 0
  /\ forall v, In v (isostatique.M self sigma) ->
       0 <= v <= sigma * (1 - sigma / isostatique.L self)
       /\ v <= isostatique.L self / 4.
Proof.
  intros HL Hd Hs D. rewrite M_dans by lra.
  split; [rewrite length_map; apply length_alpha|].
  split.
  { rewrite (nth_map_dans _ _ 0 0) by (rewrite length_alpha; lia).
    rewrite nth_alpha, point_0 by (assumption || lia).
    unfold moment_at. rewrite Rle_b_true by lra. ring. }
  split.
  { rewrite (nth_map_dans _ _ D 0) by (rewrite length_alpha; lia).
    rewrite nth_alpha, point_dernier by (assumption || lia).
    unfold moment_at, Rle_b. destruct (Rle_dec (isostatique.L self) sigma).
    - replace sigma with (isostatique.L self) by lra. field. lra.
    - field. lra. }
  intros v Hv. apply in_map_iff in Hv. destruct Hv as (x & <- & Hx).
  apply moment_at_bornes; try assumption.
  apply In_alpha_borne; assumption.
Qed.

Lemma moment_bornes_witness :
  (isostatique.M (isostatique.ctor 4 1 1 4) 1).[0] = 0
  /\ (isostatique.M (isostatique.ctor 4 1 1 4) 1).[Z.to_nat 4] = 0.
Proof.
  destruct (moment_bornes (isostatique.ctor 4 1 1 4) 1)
    as (_ & H0 & HD & _); simpl; try lra; try lia.
  split; assumption.
Defined.

Lemma V_dans (self : isostatique.t) (sigma : R) :
  isostatique.I_varer self = [] -> sigma <= isostatique.L self ->
  isostatique.V self sigma
  = map (fun x => fleche_at self x sigma) (isostatique.alpha self).
Proof.
  intros HI Hs. unfold isostatique.V. rewrite HI, (Rle_b_true _ _ Hs). reflexivity.
Qed.

Lemma OMEGA_dans (self : isostatique.t) (sigma : R) :
  isostatique.I_varer self = [] -> sigma <= isostatique.L self ->
  isostatique.OMEGA self sigma
  = map (fun x => rotation_at self x sigma) (isostatique.alpha self).
Proof.
  intros HI Hs. unfold isostatique.OMEGA. rewrite HI, (Rle_b_true _ _ Hs).
  apply map_ext. intros x. unfold rotation_at, Rle_b, Rlt_b.
  destruct (Rle_dec x sigma); [reflexivity|].
  destruct (Rlt_dec sigma x); [reflexivity | lra].
Qed.

Lemma fleche_at_symetrique (self : isostatique.t) (x sigma : R) :
  fleche_at self x sigma = fleche_at self sigma x.
Proof.
  unfold fleche_at, Rle_b, isostatique.F_gauche, isostatique.F_droite.
  destruct (Rle_dec x sigma), (Rle_dec sigma x);
    try (unfold Rdiv; ring); try lra.
  replace x with sigma by lra. reflexivity.
Qed.

Lemma fleche_at_negative (self : isostatique.t) (x sigma : R) :
  0 < isostatique.L self -> 0 < isostatique.E self -> 0 < isostatique.I self ->
  0 <= x <= isostatique.L self -> 0 <= sigma <= isostatique.L self ->
  fleche_at self x sigma <= 0.
Proof.
  intros HL HE HI Hx Hs. unfold fleche_at, Rle_b,
    isostatique.F_gauche, isostatique.F_droite.
  set (L := isostatique.L self) in *. set (E := isostatique.E self) in *.
  set (I0 := isostatique.I self) in *. clearbody L E I0.
  assert (Hden : 0 < 6 * E * I0 * L).
  { apply Rmult_lt_0_compat; [|exact HL].
    apply Rmult_lt_0_compat; [|exact HI]. lra. }
  destruct (Rle_dec x sigma) as [Hle | Hgt].
  - assert (H1 : 0 <= x * (L - sigma) / (6 * E * I0 * L)).
    { unfold Rdiv. apply Rmult_le_pos;
        [apply Rmult_le_pos; lra | left; apply Rinv_0_lt_compat; exact Hden]. }
    assert (H2 : 0 <= sigma * (2 * L - sigma) - x ^ 2) by nra.
    pose proof (Rmult_le_pos _ _ H1 H2). lra.
  - assert (H1 : 0 <= sigma * (L - x) / (6 * E * I0 * L)).
    { unfold Rdiv. apply Rmult_le_pos;
        [apply Rmult_le_pos; lra | left; apply Rinv_0_lt_compat; exact Hden]. }
    assert (H2 : 0 <= x * (2 * L - x) - sigma ^ 2) by nra.
    pose proof (Rmult_le_pos _ _ H1 H2). lra.
Qed.

Lemma fleche_entree (self : isostatique.t) (k j : nat) :
  isostatique.I_varer self = [] ->
  0 < isostatique.L self -> (1 <= isostatique.division self)%Z ->
  (k <= Z.to_nat (isostatique.division self))%nat ->
  (j <= Z.to_nat (isostatique.division self))%nat ->
  (isostatique.fleche self).{k}.[j] = fleche_at self (point self j) (point self k).
Proof.
  intros HI HL Hd Hk Hj. unfold isostatique.fleche.
  rewrite (nth_map_dans _ _ k 0) by (rewrite length_alpha; lia).
  rewrite nth_alpha by exact Hk.
  rewrite V_dans by (try assumption; apply point_borne; assumption).
  rewrite (nth_map_dans _ _ j 0) by (rewrite length_alpha; lia).
  rewrite nth_alpha by exact Hj. reflexivity.
Qed.

(** X7. Constant inertia with E <> 0 and I <> 0, L > 0, division >= 1: the
    deflection surface is symmetric (the deflection at grid point j for a
    load at grid point k is the deflection at k for a load at j), it
    vanishes at both supports, and with E > 0 and I > 0 no deflection is
    positive. *)
Theorem fleche_reciproque (self : isostatique.t) (k j : nat) :
  isostatique.I_varer self = [] ->
  isostatique.E self <> 0 -> isostatique.I self <> 0 ->
  0 < isostatique.L self -> (1 <= isostatique.division self)%Z ->
  (k <= Z.to_nat (isostatique.division self))%nat ->
  (j <= Z.to_nat (isostatique.division self))%nat ->
  let D := Z.to_nat (isostatique.division self) in
  (isostatique.fleche self).{k}.[j] = (isostatique.fleche self).{j}.[k]
  /\ (isostatique.fleche self).{k}.[0] = 0
  /\ (isostatique.fleche self).{k}.[D] = 0
  /\ (0 < isostatique.E self -> 0 < isostatique.I self ->
      (isostatique.fleche self).{k}.[j] <= 0).
Proof.
  intros HI HEn HIn HL Hd Hk Hj D.
  pose proof (point_borne self HL Hd k Hk) as Hbk.
  pose proof (point_borne self HL Hd j Hj) as Hbj.
  rewrite !fleche_entree by (assumption || lia).
  split; [apply fleche_at_symetrique|].
  split.
  { rewrite point_0 by assumption. unfold fleche_at, isostatique.F_gauche.
    rewrite Rle_b_true by lra. field; repeat split; (assumption || lra). }
  split.
  { unfold D. rewrite point_dernier. unfold fleche_at, Rle_b,
      isostatique.F_gauche, isostatique.F_droite.
    destruct (Rle_dec (isostatique.L self) (point self k)).
    - replace (point self k) with (isostatique.L self) by lra. field; repeat split; (assumption || lra).
    - field; repeat split; (assumption || lra). }
  intros HE HIp. apply fleche_at_negative; assumption.
Qed.

Lemma fleche_reciproque_witness :
  (isostatique.fleche (isostatique.ctor 4 1 1 4)).{1}.[3]
  = (isostatique.fleche (isostatique.ctor 4 1 1 4)).{3}.[1].
Proof.
  apply (fleche_reciproque (isostatique.ctor 4 1 1 4) 1 3); simpl; lra || lia || reflexivity.
Defined.

(** X8. Constant inertia with E <> 0 and I <> 0, L > 0, division >= 1, load
    argument sigma in [0, L]: the rotation row OMEGA(sigma) has division+1
    entries and its first and last entries are zero; the two formulas of
    the row agree at the point x = sigma. *)
Theorem rotation_aux_extremites (self : isostatique.t) (sigma : R) :
  isostatique.I_varer self = [] ->
  isostatique.E self <> 0 -> isostatique.I self <> 0 ->
  0 < isostatique.L self -> (1 <= isostatique.division self)%Z ->
  0 <= sigma <= isostatique.L self ->
  let D := Z.to_nat (isostatique.division self) in
  length (isostatique.OMEGA self sigma) = (D + 1)%nat
  /\ (isostatique.OMEGA self sigma).[0] = 0
  /\ (isostatique.OMEGA self sigma).[D] = 0
  /\ isostatique.ohm_gauche sigma (isostatique.L self) (isostatique.E self)
       (isostatique.I self) sigma
     = isostatique.ohm_droite sigma (isostatique.L self) (isostatique.E self)
         (isostatique.I self) sigma.
Proof.
  intros HI HEn HIn HL Hd Hs D. rewrite OMEGA_dans by (assumption || lra).
  split; [rewrite length_map; apply length_alpha|].
  split.
  { rewrite (nth_map_dans _ _ 0 0) by (rewrite length_alpha; lia).
    rewrite nth_alpha, point_0 by (assumption || lia).
    unfold rotation_at, isostatique.ohm_gauche. rewrite Rle_b_true by lra.
    field; repeat split; (assumption || lra). }
  split.
  { rewrite (nth_map_dans _ _ D 0) by (rewrite length_alpha; lia).
    rewrite nth_alpha, point_dernier by (assumption || lia).
    unfold rotation_at, Rle_b, isostatique.ohm_gauche, isostatique.ohm_droite.
    destruct (Rle_dec (isostatique.L self) sigma).
    - replace sigma with (isostatique.L self) by lra. field; repeat split; (assumption || lra).
    - field; repeat split; (assumption || lra). }
  unfold isostatique.ohm_gauche, isostatique.ohm_droite. field; repeat split; (assumption || lra).
Qed.

Lemma rotation_aux_extremites_witness :
  (isostatique.OMEGA (isostatique.ctor 4 1 1 4) 1).[0] = 0.
Proof.
  apply (rotation_aux_extremites (isostatique.ctor 4 1 1 4) 1);
    simpl; lra || lia || reflexivity.
Defined.




(** ** Variable inertia: what the table must cover *)

(** In a table whose positions increase from pos[0] <= x, a point x that no
    segment contains lies beyond the last position. *)
Lemma premier_segment_None (pos : list R) (x : R) :
  premier_segment pos x = None -> pos.[0] <= x ->
  forall j, (j < length pos)%nat -> pos.[j] <= x.
Proof.
  intros Hn H0 j. induction j as [|j IH]; intros Hj; [exact H0|].
  specialize (IH ltac:(lia)).
  unfold premier_segment in Hn.
  pose proof (find_none _ _ Hn j) as Hj'. cbv beta in Hj'.
  rewrite (Rle_b_true _ _ IH) in Hj'. cbn [andb] in Hj'.
  specialize (Hj' ltac:(apply in_seq; lia)).
  unfold Rle_b in Hj'. destruct (Rle_dec x pos.[S j]); [discriminate | lra].
Qed.

Lemma last_nth (pos : list R) : last pos 0 = pos.[length pos - 1].
Proof.
  induction pos as [|a [|b pos] IH]; try reflexivity.
  change (last (a :: b :: pos) 0) with (last (b :: pos) 0). rewrite IH.
  cbn [length Nat.sub nth]. rewrite Nat.sub_0_r. reflexivity.
Qed.

(** Every point of [0, L] lies in a segment of a table that starts at 0 and
    ends at L. *)
Lemma premier_segment_couvre (pos : list R) (L x : R) :
  (2 <= length pos)%nat -> pos.[0] = 0 -> last pos 0 = L ->
  0 <= x <= L ->
  exists j, premier_segment pos x = Some j /\ (S j < length pos)%nat
            /\ pos.[j] <= x <= pos.[S j].
Proof.
  intros Hlen H0 Hl Hx.
  destruct (premier_segment pos x) as [j|] eqn:Hp.
  - exists j. split; [reflexivity|]. unfold premier_segment in Hp.
    apply find_some in Hp. destruct Hp as [Hin Hb].
    apply in_seq in Hin. apply andb_prop in Hb. destruct Hb as [H1 H2].
    apply Rle_b_spec in H1. apply Rle_b_spec in H2.
    split; [lia | lra].
  - exfalso.
    pose proof (premier_segment_None pos x Hp ltac:(lra) (length pos - 2) ltac:(lia)) as H1.
    unfold premier_segment in Hp.
    pose proof (find_none _ _ Hp (length pos - 2)%nat ltac:(apply in_seq; lia)) as H2.
    cbv beta in H2. rewrite (Rle_b_true _ _ H1) in H2. cbn [andb] in H2.
    replace (S (length pos - 2)) with (length pos - 1)%nat in H2 by lia.
    rewrite <- last_nth, Hl in H2.
    rewrite Rle_b_true in H2 by lra. discriminate.
Qed.

Lemma length_flat_map_un {A B : Type} (f : A -> list B) (l : list A) :
  (forall x, In x l -> length (f x) = 1%nat) ->
  length (flat_map f l) = length l.
Proof.
  induction l as [|x l IH]; intros H; cbn [flat_map length]; [reflexivity|].
  rewrite length_app, (H x) by (left; reflexivity).
  rewrite IH by (intros y Hy; apply H; right; exact Hy). reflexivity.
Qed.

(** X10. A variable-inertia span (L > 0, division >= 1) whose table starts
    at position 0 and ends at L, with at least two positions: every grid
    point lies in a segment, so omega_prime(), omega_second() and
    inertie_interpolee() have division+1 entries. *)
Theorem table_couvre_la_grille (self : isostatique.t) :
  0 < isostatique.L self -> (1 <= isostatique.division self)%Z ->
  isostatique.I_varer self <> [] ->
  (2 <= length (isostatique.pos_I_varier self))%nat ->
  (isostatique.pos_I_varier self).[0] = 0 ->
  last (isostatique.pos_I_varier self) 0 = isostatique.L self ->
  let D := Z.to_nat (isostatique.division self) in
  length (isostatique.omega_prime self) = (D + 1)%nat
  /\ length (isostatique.omega_second self) = (D + 1)%nat
  /\ length (isostatique_autres.inertie_interpolee self) = (D + 1)%nat.
Proof.
  intros HL Hd HI Hlen H0 Hl D.
  assert (Hseg : forall x, In x (isostatique.alpha self) ->
            exists j, premier_segment (isostatique.pos_I_varier self) x = Some j).
  { intros x Hx.
    destruct (premier_segment_couvre _ _ x Hlen H0 Hl) as (j & Hj & _);
      [apply In_alpha_borne; assumption | exists j; exact Hj]. }
  unfold isostatique.omega_prime, isostatique.omega_second,
    isostatique_autres.inertie_interpolee.
  destruct (isostatique.I_varer self) as [|v Iv] eqn:EI; [contradiction|].
  unfold D. rewrite <- (length_alpha self).
  repeat split; apply length_flat_map_un;
    intros x Hx; destruct (Hseg x Hx) as (j & ->); reflexivity.
Qed.

Lemma table_couvre_la_grille_witness :
  length (isostatique.omega_prime (isostatique.mk 1 0 [5; 7] [0; 4] 4 4))
  = (Z.to_nat 4 + 1)%nat.
Proof.
  apply (table_couvre_la_grille (isostatique.mk 1 0 [5; 7] [0; 4] 4 4));
    simpl; lra || lia || discriminate || reflexivity.
Defined.

Lemma ctor_var_membres (L E : R) (I pos : list R) (d : Z) (tr : travee.t) :
  length I <> 1%nat ->
  travee.ctor_var L E I pos d = Ok tr ->
  tr = travee.mk (isostatique.mk E 0 I pos L d) E L 0 pos I.
Proof.
  intros H1. unfold travee.ctor_var, isostatique.ctor_var.
  destruct (Nat.eqb_spec (length I) 1) as [? | _]; [contradiction|].
  destruct (negb (Nat.eqb (length I) (length pos))); [discriminate|].
  destruct pos as [|p0 pos']; [discriminate|].
  destruct (negb (Req_b (last (p0 :: pos') 0) L)); [discriminate|].
  destruct (reserve (d + 1)) as [[]| |]; cbn [bind]; try discriminate.
  destruct (travee.verifier_positions L (p0 :: pos')); [discriminate|].
  destruct (negb (Nat.eqb (length (p0 :: pos')) (length I))); [discriminate|].
  destruct (travee.non_croissantes (p0 :: pos')); [discriminate|].
  intros H. injection H as <-. reflexivity.
Qed.

Lemma croissante_depuis_origine (pos : list R) (j : nat) :
  strictement_croissante pos -> (j < length pos)%nat -> pos.[0] <= pos.[j].
Proof.
  intros Hs. induction j as [|j IH]; intros Hj; [lra|].
  specialize (IH ltac:(lia)). specialize (Hs j Hj). lra.
Qed.

Lemma premier_segment_avant (pos : list R) (x : R) :
  strictement_croissante pos -> x < pos.[0] -> premier_segment pos x = None.
Proof.
  intros Hs Hx. destruct (premier_segment pos x) as [j|] eqn:Hp; [|reflexivity].
  exfalso. unfold premier_segment in Hp. apply find_some in Hp.
  destruct Hp as [Hin Hb]. apply in_seq in Hin.
  apply andb_prop in Hb. destruct Hb as [H1 _]. apply Rle_b_spec in H1.
  pose proof (croissante_depuis_origine pos j Hs ltac:(lia)). lra.
Qed.

Lemma length_flat_map_le {A B : Type} (f : A -> list B) (l : list A) :
  (forall x, (length (f x) <= 1)%nat) -> (length (flat_map f l) <= length l)%nat.
Proof.
  intros H. induction l as [|x l IH]; cbn [flat_map length]; [lia|].
  rewrite length_app. specialize (H x). lia.
Qed.

(** X11. The constructor does not check that the table starts at 0.  A
    well-formed table of at least two values whose first position is
    positive is accepted, and the grid point 0 then lies in no segment:
    omega_prime(), omega_second() and inertie_interpolee() have at most
    division entries, fewer than the division+1 grid points. *)
Theorem table_sans_origine (L E : R) (I pos : list R) (d : Z) :
  0 < L -> (1 <= d)%Z -> (2 <= length I)%nat ->
  table_valide L I pos -> 0 < pos.[0] ->
  exists tr, travee.ctor_var L E I pos d = Ok tr
    /\ (length (isostatique.omega_prime (travee.base tr)) <= Z.to_nat d)%nat
    /\ (length (isostatique.omega_second (travee.base tr)) <= Z.to_nat d)%nat
    /\ (length (isostatique_autres.inertie_interpolee (travee.base tr))
        <= Z.to_nat d)%nat.
Proof.
  intros HL Hd HI Hv H0.
  destruct (ctor_var_decide L E I pos d) as [[_ (tr & Htr)] | [Hn _]];
    [lia | lia | left; destruct I; [cbn [length] in HI; lia | discriminate]
     | | contradiction].
  exists tr. split; [exact Htr|].
  rewrite (ctor_var_membres L E I pos d tr ltac:(lia) Htr).
  cbn [travee.base].
  destruct Hv as (_ & _ & Hs & _).
  assert (Hnone : premier_segment pos
                    (point (isostatique.mk E 0 I pos L d) 0) = None).
  { apply premier_segment_avant; [exact Hs|].
    rewrite point_0 by (cbn; assumption). exact H0. }
  unfold isostatique.omega_prime, isostatique.omega_second,
    isostatique_autres.inertie_interpolee.
  cbn [isostatique.I_varer isostatique.pos_I_varier].
  destruct I as [|v Iv]; [cbn [length] in HI; lia|].
  rewrite alpha_point. cbn [isostatique.division].
  rewrite Nat.add_1_r. cbn [seq map flat_map]. rewrite Hnone. cbn [app].
  repeat split.
  all: match goal with |- (length (flat_map ?f ?l) <= _)%nat =>
         apply Nat.le_trans with (length l);
           [apply length_flat_map_le; intros x;
            destruct (premier_segment pos x); cbn [length]; lia
           | rewrite length_map, length_seq; lia]
       end.
Qed.

Lemma table_sans_origine_witness :
  exists tr, travee.ctor_var 4 1 [5; 7] [1; 4] 4 = Ok tr
    /\ (length (isostatique.omega_prime (travee.base tr)) <= Z.to_nat 4)%nat.
Proof.
  destruct (table_sans_origine 4 1 [5; 7] [1; 4] 4) as (tr & Htr & Hl & _).
  - lra.
  - lia.
  - cbn [length]. lia.
  - split; [reflexivity|]. split; [|split].
    + intros q [<- | [<- | []]]; lra.
    + intros [|[|i]] Hi; simpl in *; try lia; lra.
    + simpl. reflexivity.
  - simpl. lra.
  - exists tr. split; assumption.
Defined.

(** ** travee: the coefficients of a table of one repeated value *)

Lemma somme_telescope (g : nat -> R) (terme : nat -> R) (n : nat) :
  (forall i, (i < n)%nat -> terme i = g (S i) - g i) ->
  fold_left (fun acc i => acc + terme i) (seq 0 n) 0 = g n - g 0%nat.
Proof.
  induction n as [|n IH]; intros H; [simpl; ring|].
  rewrite seq_S, fold_left_app. cbn [fold_left Nat.add].
  rewrite IH by (intros i Hi; apply H; lia).
  rewrite (H n) by lia. ring.
Qed.

(** X12. For a table that gives the same inertia v on every segment of any
    partition 0 = x0, ..., xn = L of the span, the integrals of a() and b()
    telescope to the constant-inertia values L/(3 E v) and L/(6 E v). *)
Theorem coefficients_table_uniforme (L E v Inertie : R) (I pos : list R)
    (base : isostatique.t) :
  L <> 0 -> E <> 0 -> v <> 0 ->
  I <> [] -> length pos = length I ->
  pos.[0] = 0 -> last pos 0 = L ->
  (forall i, (i < length I)%nat -> I.[i] = v) ->
  let tr := travee.mk base E L Inertie pos I in
  travee.a tr = L / (3 * E * v) /\ travee.b tr = L / (6 * E * v).
Proof.
  intros HL HE Hv HI Hlen H0 Hl Hu tr.
  assert (Hn : pos.[length pos - 1] = L) by (rewrite <- last_nth; exact Hl).
  assert (Hpos : (1 <= length pos)%nat)
    by (rewrite Hlen; destruct I; [contradiction | cbn [length]; lia]).
  unfold travee.a, travee.b, travee.somme_segments.
  cbn [tr travee.I_varer travee.pos_I_varier travee.longueur travee.Young].
  destruct I as [|v0 Iv] eqn:EI; [contradiction|]. rewrite <- EI in *.
  split.
  - rewrite (somme_telescope (fun i => (1 / v) * (1 - pos.[i] / L) ^ 3)).
    + rewrite Hn, H0. field. repeat split; assumption.
    + intros i Hi. rewrite Hu by lia. ring.
  - rewrite (somme_telescope (fun i => (1 / v) * travee.B pos.[i] L)).
    + rewrite Hn, H0. unfold travee.B. field. repeat split; assumption.
    + intros i Hi. rewrite Hu by lia. ring.
Qed.

Lemma coefficients_table_uniforme_witness :
  travee.a (travee.mk (isostatique.ctor 6 2 5 4) 2 6 0 [0; 1; 4; 6] [5; 5; 5; 5])
  = 6 / (3 * 2 * 5).
Proof.
  apply (coefficients_table_uniforme 6 2 5 0 [5; 5; 5; 5] [0; 1; 4; 6]);
    try lra; try discriminate; try reflexivity.
  intros [|[|[|[|i]]]] Hi; cbn [length nth] in *; reflexivity || lia.
Defined.

(** ** inertie_interpolee *)

Lemma interpolation_dans_intervalle (x0 x1 y0 y1 x lo hi : R) :
  x0 < x1 -> x0 <= x <= x1 -> lo <= y0 <= hi -> lo <= y1 <= hi ->
  lo <= y0 + (y1 - y0) * (x - x0) / (x1 - x0) <= hi.
Proof.
  intros Hx Hin H0 H1.
  assert (Ht : 0 <= (x - x0) / (x1 - x0) <= 1) by (apply quotient_unite; lra).
  replace (y0 + (y1 - y0) * (x - x0) / (x1 - x0))
    with (y0 + (y1 - y0) * ((x - x0) / (x1 - x0))) by (field; lra).
  set (t := (x - x0) / (x1 - x0)) in *. clearbody t.
  destruct (Rle_dec y0 y1).
  - assert (0 <= (y1 - y0) * t <= (y1 - y0) * 1)
      by (split; [apply Rmult_le_pos | apply Rmult_le_compat_l]; lra).
    lra.
  - assert (0 <= (y0 - y1) * t <= (y0 - y1) * 1)
      by (split; [apply Rmult_le_pos | apply Rmult_le_compat_l]; lra).
    lra.
Qed.

(** X13. inertie_interpolee() on a span with L > 0 and division >= 1.  With
    a constant inertia it returns I at each of the division+1 grid points.
    With a well-formed table that starts at 0, it returns one value per
    grid point and every value lies within any bounds [lo, hi] of the table
    values: the interpolation never leaves the range of the table. *)
Theorem inertie_interpolee_bornee (self : isostatique.t) (lo hi : R) :
  0 < isostatique.L self -> (1 <= isostatique.division self)%Z ->
  let D := Z.to_nat (isostatique.division self) in
  (isostatique.I_varer self = [] ->
     isostatique_autres.inertie_interpolee self = repeat (isostatique.I self) (D + 1))
  /\ (isostatique.I_varer self <> [] ->
      (2 <= length (isostatique.pos_I_varier self))%nat ->
      table_valide (isostatique.L self) (isostatique.I_varer self)
                   (isostatique.pos_I_varier self) ->
      (isostatique.pos_I_varier self).[0] = 0 ->
      (forall v, In v (isostatique.I_varer self) -> lo <= v <= hi) ->
      length (isostatique_autres.inertie_interpolee self) = (D + 1)%nat
      /\ forall v, In v (isostatique_autres.inertie_interpolee self) -> lo <= v <= hi).
Proof.
  intros HL Hd D. unfold isostatique_autres.inertie_interpolee. split.
  - intros ->. rewrite length_alpha. reflexivity.
  - intros HI Hlen (Hsz & _ & Hs & Hl) H0 Hb.
    destruct (isostatique.I_varer self) as [|v0 Iv] eqn:EI; [contradiction|].
    rewrite <- EI in *.
    assert (Hseg : forall x, In x (isostatique.alpha self) ->
              exists j, premier_segment (isostatique.pos_I_varier self) x = Some j
                        /\ (S j < length (isostatique.pos_I_varier self))%nat
                        /\ (isostatique.pos_I_varier self).[j] <= x
                           <= (isostatique.pos_I_varier self).[S j]).
    { intros x Hx. apply (premier_segment_couvre _ (isostatique.L self));
        try assumption. apply In_alpha_borne; assumption. }
    split.
    + unfold D. rewrite <- (length_alpha self). apply length_flat_map_un.
      intros x Hx. destruct (Hseg x Hx) as (j & -> & _). reflexivity.
    + intros v Hv. apply in_flat_map in Hv. destruct Hv as (x & Hx & Hv).
      destruct (Hseg x Hx) as (j & Hj & Hjl & Hjx). rewrite Hj in Hv.
      destruct Hv as [<- | []].
      apply interpolation_dans_intervalle.
      * apply Hs. exact Hjl.
      * exact Hjx.
      * apply Hb. apply nth_In. lia.
      * apply Hb. apply nth_In. lia.
Qed.

Lemma inertie_interpolee_bornee_witness :
  length (isostatique_autres.inertie_interpolee (isostatique.mk 1 0 [5; 7] [0; 4] 4 4))
  = (Z.to_nat 4 + 1)%nat.
Proof.
  destruct (inertie_interpolee_bornee (isostatique.mk 1 0 [5; 7] [0; 4] 4 4) 5 7)
    as [_ H]; [simpl; lra | simpl; lia |].
  apply H.
  - discriminate.
  - cbn. lia.
  - split; [reflexivity|]. split; [|split].
    + intros q [<- | [<- | []]]; simpl; lra.
    + intros [|[|i]] Hi; simpl in *; try lia; lra.
    + reflexivity.
  - reflexivity.
  - intros v [<- | [<- | []]]; lra.
Defined.

(** ** rapport_focau: conditioning and mirror symmetry *)

Lemma rapport_borne (b den : R) : 0 < b -> 2 * b < den -> 0 <= b / den < 1 / 2.
Proof.
  intros Hb Hd. assert (Hden : 0 < den) by lra. split.
  - left. apply Rdiv_lt_0_compat; assumption.
  - apply Rmult_lt_reg_r with den; [exact Hden|].
    replace (b / den * den) with b by (field; lra). lra.
Qed.

Lemma recurrence_bornee (G : nat -> R -> R) (l : list R) (n : nat) :
  (forall k, (k < n)%nat -> l.[k] = if Nat.eqb k 0 then 0 else G k l.[k - 1]) ->
  (forall k p, (1 <= k < n)%nat -> 0 <= p < 1 / 2 -> 0 <= G k p < 1 / 2) ->
  forall k, (k < n)%nat -> 0 <= l.[k] < 1 / 2.
Proof.
  intros Hrec HG. induction k as [|k IH]; intros Hk.
  - rewrite (Hrec 0%nat Hk). cbn [Nat.eqb]. lra.
  - rewrite (Hrec (S k) Hk). cbn [Nat.eqb]. apply HG; [lia|].
    replace (S k - 1)%nat with k by lia. apply IH. lia.
Qed.

Lemma produit_borne (b p : R) : 0 < b -> 0 <= p < 1 / 2 -> b * p < b / 2.
Proof.
  intros Hb Hp. replace (b / 2) with (b * (1 / 2)) by field.
  apply Rmult_lt_compat_l; lra.
Qed.

Lemma G_phy_borne (a b c : list R) (N k : nat) (p : R) :
  (forall i, (i < N)%nat -> 0 < b.[i] /\ 2 * b.[i] <= a.[i] /\ 2 * b.[i] <= c.[i]) ->
  (1 <= k < N)%nat -> 0 <= p < 1 / 2 ->
  0 < a.[k] + c.[k - 1] - b.[k - 1] * p
  /\ 0 <= G_phy (rapport_focau.mk a b c (Z.of_nat N)) k p < 1 / 2.
Proof.
  intros H Hk Hp. unfold G_phy. cbn [rapport_focau.a rapport_focau.b rapport_focau.c].
  destruct (H k ltac:(lia)) as (Hb & Ha & _).
  destruct (H (k - 1)%nat ltac:(lia)) as (Hb' & _ & Hc').
  pose proof (produit_borne _ _ Hb' Hp).
  split; [lra | apply rapport_borne; lra].
Qed.

Lemma G_phy_prime_borne (a b c : list R) (N k : nat) (p : R) :
  (forall i, (i < N)%nat -> 0 < b.[i] /\ 2 * b.[i] <= a.[i] /\ 2 * b.[i] <= c.[i]) ->
  (1 <= k < N)%nat -> 0 <= p < 1 / 2 ->
  0 < c.[N - k - 1] + a.[N - k] - b.[N - k] * p
  /\ 0 <= G_phy_prime (rapport_focau.mk a b c (Z.of_nat N)) k p < 1 / 2.
Proof.
  intros H Hk Hp. unfold G_phy_prime.
  cbn [rapport_focau.a rapport_focau.b rapport_focau.c rapport_focau.nb_travee].
  rewrite Nat2Z.id.
  destruct (H (N - k - 1)%nat ltac:(lia)) as (Hb & _ & Hc).
  destruct (H (N - k)%nat ltac:(lia)) as (Hb' & Ha' & _).
  pose proof (produit_borne _ _ Hb' Hp).
  split; [lra | apply rapport_borne; lra].
Qed.

(** The two passes, as recurrences on the span index. *)
Lemma phy_liste (a b c : list R) (N : nat) :
  let self := rapport_focau.mk a b c (Z.of_nat N) in
  length (rapport_focau.phy self) = N
  /\ forall i, (i < N)%nat ->
       (rapport_focau.phy self).[i]
       = if Nat.eqb i 0 then 0 else G_phy self i (rapport_focau.phy self).[i - 1].
Proof.
  intros self. unfold rapport_focau.phy. rewrite phy_recurrence.
  cbn [rapport_focau.nb_travee self]. rewrite Nat2Z.id.
  destruct (fold_left (pas_recurrence (G_phy self)) (seq 0 N) (0, [])) as [p l] eqn:E.
  destruct (boucle_recurrence (G_phy self) N p l E) as (Hlen & _ & Hrec).
  cbn [snd]. split; assumption.
Qed.

Lemma phy_prime_liste (a b c : list R) (N : nat) :
  let self := rapport_focau.mk a b c (Z.of_nat N) in
  exists l,
    length l = N
    /\ (forall k, (k < N)%nat ->
          l.[k] = if Nat.eqb k 0 then 0 else G_phy_prime self k l.[k - 1])
    /\ rapport_focau.phy_prime self = map (fun k => l.[N - k - 1]) (seq 0 N)
    /\ l = snd (fold_left (pas_recurrence (G_phy_prime self)) (seq 0 N) (0, [])).
Proof.
  intros self. unfold rapport_focau.phy_prime. rewrite phy_prime_recurrence.
  unfold rapport_focau.descente. cbn [rapport_focau.nb_travee self].
  rewrite Nat2Z.id, descente_map, map_map.
  destruct (fold_left (pas_recurrence (G_phy_prime self)) (seq 0 N) (0, []))
    as [p l] eqn:E.
  destruct (boucle_recurrence (G_phy_prime self) N p l E) as (Hlen & _ & Hrec).
  exists l. cbn [snd]. repeat split; assumption.
Qed.

Lemma rapports_dans_intervalle (a b c : list R) (N i : nat) :
  (forall k, (k < N)%nat -> 0 < b.[k] /\ 2 * b.[k] <= a.[k] /\ 2 * b.[k] <= c.[k]) ->
  (i < N)%nat ->
  0 <= (rapport_focau.phy (rapport_focau.mk a b c (Z.of_nat N))).[i] < 1 / 2
  /\ 0 <= (rapport_focau.phy_prime (rapport_focau.mk a b c (Z.of_nat N))).[i] < 1 / 2.
Proof.
  intros H Hi.
  destruct (phy_liste a b c N) as (_ & Hrec).
  destruct (phy_prime_liste a b c N) as (l & Hlen & Hrec' & Hpp & _).
  split.
  - apply (recurrence_bornee (G_phy (rapport_focau.mk a b c (Z.of_nat N))) _ N);
      [exact Hrec | | exact Hi].
    intros k p Hk Hp. apply (G_phy_borne a b c N k p H Hk Hp).
  - rewrite Hpp, nth_map_seq by lia. cbn [Nat.add].
    apply (recurrence_bornee (G_phy_prime (rapport_focau.mk a b c (Z.of_nat N))) _ N);
      [exact Hrec' | | lia].
    intros k p Hk Hp. apply (G_phy_prime_borne a b c N k p H Hk Hp).
Qed.

(** X14. When every span has b > 0, a >= 2b and c >= 2b (as the
    constant-inertia coefficients a = c = 2b have), the recursion is well
    conditioned: every denominator of phy() and of phy_prime() is positive,
    every focal ratio lies in [0, 1/2), and 1 - phi[i]*phi_prime[i], by
    which the support moments are divided, exceeds 3/4. *)
Theorem rapports_focaux_bornes (a b c : list R) (N i : nat) :
  (forall k, (k < N)%nat -> 0 < b.[k] /\ 2 * b.[k] <= a.[k] /\ 2 * b.[k] <= c.[k]) ->
  (i < N)%nat ->
  let self := rapport_focau.mk a b c (Z.of_nat N) in
  let phi := rapport_focau.phy self in
  let phi_prime := rapport_focau.phy_prime self in
  0 <= phi.[i] < 1 / 2
  /\ 0 <= phi_prime.[i] < 1 / 2
  /\ ((1 <= i)%nat -> 0 < a.[i] + c.[i - 1] - b.[i - 1] * phi.[i - 1])
  /\ ((i + 1 < N)%nat -> 0 < c.[i] + a.[i + 1] - b.[i + 1] * phi_prime.[i + 1])
  /\ 3 / 4 < 1 - phi.[i] * phi_prime.[i].
Proof.
  intros H Hi self phi phi_prime.
  destruct (phy_liste a b c N) as (_ & Hrec).
  destruct (phy_prime_liste a b c N) as (l & Hlen & Hrec' & Hpp & _).
  fold self in Hrec, Hrec', Hpp. fold phi in Hrec.
  assert (Hphi : forall k, (k < N)%nat -> 0 <= phi.[k] < 1 / 2).
  { apply (recurrence_bornee (G_phy self)); [exact Hrec|].
    intros k p Hk Hp. apply (G_phy_borne a b c N k p H Hk Hp). }
  assert (Hl : forall k, (k < N)%nat -> 0 <= l.[k] < 1 / 2).
  { apply (recurrence_bornee (G_phy_prime self)); [exact Hrec'|].
    intros k p Hk Hp. apply (G_phy_prime_borne a b c N k p H Hk Hp). }
  assert (Hpk : forall k, (k < N)%nat -> phi_prime.[k] = l.[N - k - 1]).
  { intros k Hk. unfold phi_prime. rewrite Hpp, nth_map_seq by lia. reflexivity. }
  pose proof (Hphi i Hi) as Hpi.
  assert (Hqi : 0 <= phi_prime.[i] < 1 / 2) by (rewrite Hpk by lia; apply Hl; lia).
  split; [exact Hpi|]. split; [exact Hqi|].
  split.
  { intros H1. apply (G_phy_borne a b c N i _ H); [lia | apply Hphi; lia]. }
  split.
  { intros H1. rewrite (Hpk (i + 1)%nat) by lia.
    pose proof (G_phy_prime_borne a b c N (N - i - 1) (l.[N - (i + 1) - 1]) H
                  ltac:(lia) ltac:(apply Hl; lia)) as [Hden _].
    replace (N - (N - i - 1) - 1)%nat with i in Hden by lia.
    replace (N - (N - i - 1))%nat with (i + 1)%nat in Hden by lia.
    exact Hden. }
  assert (phi.[i] * phi_prime.[i] < 1 / 2 * (1 / 2)).
  { destruct (Req_dec phi.[i] 0) as [-> | Hnz]; [lra|].
    apply Rmult_le_0_lt_compat; lra. }
  lra.
Qed.

Lemma rapports_focaux_bornes_witness :
  0 <= (rapport_focau.phy (rapport_focau.mk [2; 4] [1; 2] [2; 4] 2)).[1] < 1 / 2.
Proof.
  apply (rapports_focaux_bornes [2; 4] [1; 2] [2; 4] 2 1); [|lia].
  intros [|[|k]] Hk; cbn [nth]; try lia; lra.
Defined.

Lemma rev_par_indices (l : list R) :
  rev l = map (fun k => l.[length l - k - 1]) (seq 0 (length l)).
Proof.
  apply (nth_ext _ _ 0 0).
  - rewrite length_rev, length_map, length_seq. reflexivity.
  - intros n Hn. rewrite length_rev in Hn.
    rewrite rev_nth by exact Hn. rewrite nth_map_seq by exact Hn.
    f_equal. lia.
Qed.

(** X15. The backward pass is the forward pass of the mirrored beam: for
    coefficient vectors of size nb_travee, phy_prime() on (a, b, c) is the
    reversal of phy() on the reversed vectors with a and c exchanged. *)
Theorem phy_prime_miroir (a b c : list R) (N : nat) :
  length a = N -> length b = N -> length c = N ->
  rapport_focau.phy_prime (rapport_focau.mk a b c (Z.of_nat N))
  = rev (rapport_focau.phy (rapport_focau.mk (rev c) (rev b) (rev a) (Z.of_nat N))).
Proof.
  intros Ha Hb Hc.
  destruct (phy_prime_liste a b c N) as (l & Hlen & _ & Hpp & Hl).
  rewrite Hpp.
  assert (Hm : rapport_focau.phy (rapport_focau.mk (rev c) (rev b) (rev a) (Z.of_nat N)) = l).
  { unfold rapport_focau.phy. rewrite phy_recurrence.
    cbn [rapport_focau.nb_travee]. rewrite Nat2Z.id, Hl. f_equal.
    apply fold_left_ext_in. intros st k Hk. apply in_seq in Hk.
    unfold pas_recurrence. destruct (Nat.eqb_spec k 0) as [Hz | Hnz]; [reflexivity|].
    f_equal; [|f_equal; f_equal].
    all: unfold G_phy, G_phy_prime;
      cbn [rapport_focau.a rapport_focau.b rapport_focau.c rapport_focau.nb_travee];
      rewrite Nat2Z.id;
      rewrite !rev_nth by lia; rewrite Ha, Hb, Hc;
      replace (N - S k)%nat with (N - k - 1)%nat by lia;
      replace (N - S (k - 1))%nat with (N - k)%nat by lia;
      reflexivity. }
  rewrite Hm, rev_par_indices, Hlen. reflexivity.
Qed.

Lemma phy_prime_miroir_witness :
  rapport_focau.phy_prime (rapport_focau.mk [1; 2; 3] [4; 5; 6] [7; 8; 9] 3)
  = rev (rapport_focau.phy (rapport_focau.mk (rev [7; 8; 9]) (rev [4; 5; 6])
                                             (rev [1; 2; 3]) 3)).
Proof.
  apply (phy_prime_miroir [1; 2; 3] [4; 5; 6] [7; 8; 9] 3); reflexivity.
Defined.

(** ** hyperstatique: the constant-inertia structure of any number of spans *)

Lemma mise_en_place_boucle (L E I : list R) (d : Z) (n a : nat) (acc : list travee.t) :
  (-1 <= d)%Z ->
  fold_left (fun cache i =>
      iso <- cache ;;
      tr <- travee.construction L.[i] E.[i] I.[i] d ;;
      Ok (iso ++ [tr])) (seq a n) (Ok acc)
  = Ok (acc ++ map (fun i => travee.ctor L.[i] E.[i] I.[i] d) (seq a n)).
Proof.
  intros Hd.
  revert a acc. induction n as [|n IH]; intros a acc; cbn [seq fold_left map bind].
  - rewrite app_nil_r. reflexivity.
  - rewrite construction_decide.
    destruct (Z.leb_spec d (-2)) as [Hx | _]; [lia|].
    cbn [bind]. rewrite IH, <- app_assoc. reflexivity.
Qed.

Lemma mise_en_place_constantes (L E I : list R) (d : Z) :
  (-1 <= d)%Z ->
  hyperstatique.mise_en_place L E I d (Z.of_nat (length L)) None None
  = Ok (travees_constantes L E I d).
Proof.
  intros Hd.
  unfold hyperstatique.mise_en_place, hyperstatique.travees, travees_constantes.
  rewrite Nat2Z.id. apply (mise_en_place_boucle L E I d (length L) 0 [] Hd).
Qed.

(** What the constant-inertia constructor leaves in the members. *)
Lemma ctor_etat (L E I : list R) (d : Z) (h : hyperstatique.t) :
  hyperstatique.ctor L E I d = Ok h ->
  let N := Z.of_nat (length L) in
  let iso := travees_constantes L E I d in
  length E = length L /\ length I = length L /\ L <> [] /\ (1 <= d)%Z
  /\ hyperstatique.L_tr h = L /\ hyperstatique.E_tr h = E
  /\ hyperstatique.I_tr h = I
  /\ hyperstatique.division h = d /\ hyperstatique.nombre_travee h = N
  /\ hyperstatique.iso_cache h = iso
  /\ hyperstatique.phy h = rapport_focau.phy (hyperstatique.rap N iso)
  /\ hyperstatique.phy_prime h = rapport_focau.phy_prime (hyperstatique.rap N iso)
  /\ hyperstatique.alpha h = hyperstatique.abscisse iso
  /\ hyperstatique.GAUCHE_DROITE h
     = hyperstatique.tr_G_D d N iso (hyperstatique.phy h) (hyperstatique.phy_prime h)
  /\ hyperstatique.Mu_iso_total h = hyperstatique.Mu_total iso
  /\ hyperstatique.W_iso_total h = hyperstatique.W_total iso
  /\ hyperstatique.V_iso_total h = hyperstatique.V_total iso
  /\ hyperstatique.T_iso_total h = hyperstatique.T_total iso
  /\ hyperstatique.abscisse_T_iso_total h = hyperstatique.abscisse_T_total iso
  /\ hyperstatique.Courbe_moment_en_travee h
     = hyperstatique.M_flechissant L d N (hyperstatique.alpha h)
         (hyperstatique.GAUCHE_DROITE h) (hyperstatique.Mu_iso_total h)
  /\ hyperstatique.Courbe_rotation_en_travee h
     = hyperstatique.W_rotaion L E I d N None None (hyperstatique.alpha h)
         (hyperstatique.GAUCHE_DROITE h) (hyperstatique.W_iso_total h)
  /\ hyperstatique.Courbe_fleche_en_travee h
     = hyperstatique.V_fleche L E I d N None None (hyperstatique.alpha h)
         (hyperstatique.GAUCHE_DROITE h) (hyperstatique.V_iso_total h)
  /\ hyperstatique.Courbe_effort_tranchant_en_travee h
     = hyperstatique.T_effort_tranchant L d N (hyperstatique.alpha h)
         (hyperstatique.GAUCHE_DROITE h) (hyperstatique.T_iso_total h)
         (hyperstatique.abscisse_T_iso_total h) false
  /\ hyperstatique.Abscisse_Courbe_effort_tranchant_en_travee h
     = hyperstatique.T_effort_tranchant L d N (hyperstatique.alpha h)
         (hyperstatique.GAUCHE_DROITE h) (hyperstatique.T_iso_total h)
         (hyperstatique.abscisse_T_iso_total h) true.
Proof.
  intros H N iso. unfold hyperstatique.ctor, hyperstatique.taille in H.
  rewrite Z.eqb_refl in H. cbn [negb orb] in H.
  destruct (Z.eqb_spec (Z.of_nat (length E)) (Z.of_nat (length L))) as [HE | HE];
    cbn [negb orb] in H; [|discriminate].
  destruct (Z.eqb_spec (Z.of_nat (length I)) (Z.of_nat (length L))) as [HI | HI];
    cbn [negb orb] in H; [|discriminate].
  destruct (Z.leb_spec (Z.of_nat (length L)) 0) as [HN | HN];
    cbn [orb] in H; [discriminate|].
  destruct (Z.leb_spec d 0) as [Hd | Hd]; [discriminate|].
  unfold hyperstatique.initialiser_donnees in H.
  rewrite mise_en_place_constantes in H by lia. cbn [bind] in H.
  injection H as <-.
  split; [lia|]. split; [lia|].
  split; [destruct L; [cbn [length] in HN; lia | discriminate]|].
  split; [lia|].
  cbn. repeat split.
Qed.

(** ** tr_G_D: the support moments under a load on one span *)

Lemma nth_map_lineaire (f : R -> R) (l : list R) (j : nat) :
  f 0 = 0 -> (map f l).[j] = f l.[j].
Proof.
  intros H. rewrite <- H at 1. apply map_nth.
Qed.

Lemma prod_list_debut (liste : list R) (debut : nat) (fin : Z) :
  (Z.of_nat debut <= fin)%Z ->
  hyperstatique.prod_list liste debut fin
  = liste.[debut] * hyperstatique.prod_list liste (S debut) fin.
Proof.
  intros H. unfold hyperstatique.prod_list.
  replace (Z.to_nat (fin + 1 - Z.of_nat debut))
    with (S (Z.to_nat (fin + 1 - Z.of_nat (S debut)))) by lia.
  cbn [seq fold_left].
  generalize (seq (S debut) (Z.to_nat (fin + 1 - Z.of_nat (S debut)))).
  intros l. rewrite Rmult_1_l.
  assert (G : forall r, fold_left (fun resultat a => resultat * liste.[a]) l r
                        = r * fold_left (fun resultat a => resultat * liste.[a]) l 1).
  { induction l as [|x l IH]; intros r; cbn [fold_left]; [ring|].
    rewrite (IH (r * liste.[x])), (IH (1 * liste.[x])). ring. }
  apply G.
Qed.

Lemma prod_list_fin (liste : list R) (debut fin : nat) :
  (debut <= S fin)%nat ->
  hyperstatique.prod_list liste debut (Z.of_nat (S fin))
  = hyperstatique.prod_list liste debut (Z.of_nat fin) * liste.[S fin].
Proof.
  intros H. unfold hyperstatique.prod_list.
  replace (Z.to_nat (Z.of_nat (S fin) + 1 - Z.of_nat debut))
    with (Z.to_nat (Z.of_nat fin + 1 - Z.of_nat debut) + 1)%nat by lia.
  rewrite seq_app, fold_left_app. cbn [seq fold_left].
  replace (debut + Z.to_nat (Z.of_nat fin + 1 - Z.of_nat debut))%nat
    with (S fin) by lia.
  reflexivity.
Qed.

Lemma prod_list_vide (liste : list R) (debut : nat) (fin : Z) :
  (fin < Z.of_nat debut)%Z -> hyperstatique.prod_list liste debut fin = 1.
Proof.
  intros H. unfold hyperstatique.prod_list.
  replace (Z.to_nat (fin + 1 - Z.of_nat debut)) with O by lia. reflexivity.
Qed.

Lemma prod_list_nul (liste : list R) (k debut : nat) (fin : Z) :
  liste.[k] = 0 -> (debut <= k)%nat -> (Z.of_nat k <= fin)%Z ->
  hyperstatique.prod_list liste debut fin = 0.
Proof.
  intros Hk Hd Hf. remember (k - debut)%nat as n eqn:Hn.
  revert debut Hd Hn. induction n as [|n IH]; intros debut Hd Hn.
  - assert (debut = k) by lia. subst debut.
    rewrite prod_list_debut by exact Hf. rewrite Hk. ring.
  - rewrite prod_list_debut by lia. rewrite (IH (S debut)) by lia. ring.
Qed.

Lemma powerRZ_moins_un_succ (z : Z) : powerRZ (-1) (z + 1) = - powerRZ (-1) z.
Proof.
  rewrite powerRZ_add by lra. rewrite powerRZ_1. ring.
Qed.

Section Appuis.

Variables (d N : Z) (iso : list travee.t) (phy phy_prime : list R).

Lemma tr_G_D_taille : length (hyperstatique.tr_G_D d N iso phy phy_prime) = Z.to_nat N.
Proof.
  unfold hyperstatique.tr_G_D, hyperstatique.travees.
  rewrite length_map, length_seq. reflexivity.
Qed.

Lemma tr_G_D_gauche (i k : nat) :
  (k <= i < Z.to_nat N)%nat ->
  (hyperstatique.tr_G_D d N iso phy phy_prime).{i}.{k}
  = map (fun j => powerRZ (-1) (Z.of_nat i - Z.of_nat k)
                  * hyperstatique.prod_list phy k (Z.of_nat i - 1) * j) (hyperstatique.moment_au_appuit_travee_charger_gauche d N iso phy phy_prime).{i}.
Proof.
  intros H. unfold hyperstatique.tr_G_D, hyperstatique.tr_m_appuis_gauche,
    hyperstatique.tr_m_appuis_droite, hyperstatique.travees.
  rewrite !nth_map_seq by lia. cbn [Nat.add].
  unfold hyperstatique.m_appuis_gauche at 1.
  rewrite app_nth1 by (rewrite length_map, length_seq; lia).
  rewrite nth_map_seq by lia. reflexivity.
Qed.

Lemma tr_G_D_droite (i k : nat) :
  (i < k <= Z.to_nat N)%nat ->
  (hyperstatique.tr_G_D d N iso phy phy_prime).{i}.{k}
  = map (fun j => powerRZ (-1) (Z.of_nat i - Z.of_nat (k - 1))
                  * hyperstatique.prod_list phy_prime (i + 1) (Z.of_nat (k - 1)) * j)
        (hyperstatique.moment_au_appuit_travee_charger_droite d N iso phy phy_prime).{i}.
Proof.
  intros H. unfold hyperstatique.tr_G_D, hyperstatique.tr_m_appuis_gauche,
    hyperstatique.tr_m_appuis_droite, hyperstatique.travees.
  rewrite !nth_map_seq by lia. cbn [Nat.add].
  unfold hyperstatique.m_appuis_gauche at 1.
  rewrite app_nth2 by (rewrite length_map, length_seq; lia).
  rewrite length_map, length_seq.
  unfold hyperstatique.m_appuis_droite.
  rewrite nth_map_seq by lia.
  replace (i + (k - (i + 1)))%nat with (k - 1)%nat by lia. reflexivity.
Qed.

Lemma tr_G_D_lignes (i : nat) :
  (i < Z.to_nat N)%nat -> length (hyperstatique.tr_G_D d N iso phy phy_prime).{i} = (Z.to_nat N + 1)%nat.
Proof.
  intros H. unfold hyperstatique.tr_G_D, hyperstatique.tr_m_appuis_gauche,
    hyperstatique.tr_m_appuis_droite, hyperstatique.travees.
  rewrite !nth_map_seq by lia. cbn [Nat.add].
  unfold hyperstatique.m_appuis_gauche, hyperstatique.m_appuis_droite.
  rewrite length_app, !length_map, !length_seq. lia.
Qed.

Lemma moment_gauche_ligne (i : nat) :
  (i < Z.to_nat N)%nat ->
  (hyperstatique.moment_au_appuit_travee_charger_gauche d N iso phy phy_prime).{i}
  = map (fun j =>
      (phy.[i] / (hyperstatique.b_tr iso).[i]) *
      (((hyperstatique.omega_prime_tr iso).{i}.[j]
        + (hyperstatique.omega_second_tr iso).{i}.[j] * phy_prime.[i])
       / (1 - phy.[i] * phy_prime.[i]))) (hyperstatique.positions d).
Proof.
  intros H. unfold hyperstatique.moment_au_appuit_travee_charger_gauche,
    hyperstatique.travees.
  rewrite nth_map_seq by lia. reflexivity.
Qed.

Lemma moment_droite_ligne (i : nat) :
  (i < Z.to_nat N)%nat ->
  (hyperstatique.moment_au_appuit_travee_charger_droite d N iso phy phy_prime).{i}
  = map (fun j =>
      - (phy_prime.[i] / (hyperstatique.b_tr iso).[i]) *
      (((hyperstatique.omega_prime_tr iso).{i}.[j] * phy.[i]
        + (hyperstatique.omega_second_tr iso).{i}.[j])
       / (1 - phy.[i] * phy_prime.[i]))) (hyperstatique.positions d).
Proof.
  intros H. unfold hyperstatique.moment_au_appuit_travee_charger_droite,
    hyperstatique.travees.
  rewrite nth_map_seq by lia. reflexivity.
Qed.

Lemma tr_G_D_colonnes (i k : nat) :
  (i < Z.to_nat N)%nat -> (k <= Z.to_nat N)%nat ->
  length (hyperstatique.tr_G_D d N iso phy phy_prime).{i}.{k} = Z.to_nat (d + 1).
Proof.
  intros Hi Hk. destruct (Nat.le_gt_cases k i) as [H | H].
  - rewrite tr_G_D_gauche by lia. rewrite length_map, moment_gauche_ligne by lia.
    unfold hyperstatique.positions. rewrite length_map, length_seq. reflexivity.
  - rewrite tr_G_D_droite by lia. rewrite length_map, moment_droite_ligne by lia.
    unfold hyperstatique.positions. rewrite length_map, length_seq. reflexivity.
Qed.

(** Supports on the left of the loaded span: one step to the left
    multiplies the moment by minus the focal ratio of the span crossed. *)
Lemma tr_G_D_pas_gauche (i k j : nat) :
  (1 <= k <= i)%nat -> (i < Z.to_nat N)%nat ->
  (hyperstatique.tr_G_D d N iso phy phy_prime).{i}.{k - 1}.[j] = - phy.[k - 1] * (hyperstatique.tr_G_D d N iso phy phy_prime).{i}.{k}.[j].
Proof.
  intros Hk Hi. rewrite !tr_G_D_gauche by lia.
  rewrite !nth_map_lineaire by ring.
  rewrite (prod_list_debut phy (k - 1)) by lia.
  replace (S (k - 1)) with k by lia.
  replace (Z.of_nat i - Z.of_nat (k - 1))%Z with (Z.of_nat i - Z.of_nat k + 1)%Z by lia.
  rewrite powerRZ_moins_un_succ. ring.
Qed.

(** Supports on the right of the loaded span: one step to the right
    multiplies the moment by minus the focal ratio of the span crossed. *)
Lemma tr_G_D_pas_droite (i k j : nat) :
  (i < k)%nat -> (k < Z.to_nat N)%nat ->
  (hyperstatique.tr_G_D d N iso phy phy_prime).{i}.{k + 1}.[j] = - phy_prime.[k] * (hyperstatique.tr_G_D d N iso phy phy_prime).{i}.{k}.[j].
Proof.
  intros Hk Hi. rewrite !tr_G_D_droite by lia.
  rewrite !nth_map_lineaire by ring.
  replace (k + 1 - 1)%nat with (S (k - 1)) by lia.
  rewrite (prod_list_fin phy_prime) by lia.
  replace (S (k - 1)) with k by lia.
  replace (Z.of_nat i - Z.of_nat (k - 1))%Z with (Z.of_nat i - Z.of_nat k + 1)%Z by lia.
  rewrite powerRZ_moins_un_succ. ring.
Qed.

(** The two supports of the loaded span. *)
Lemma tr_G_D_travee_chargee (i j : nat) :
  (i < Z.to_nat N)%nat ->
  (hyperstatique.tr_G_D d N iso phy phy_prime).{i}.{i}.[j] = (hyperstatique.moment_au_appuit_travee_charger_gauche d N iso phy phy_prime).{i}.[j] /\ (hyperstatique.tr_G_D d N iso phy phy_prime).{i}.{i + 1}.[j] = (hyperstatique.moment_au_appuit_travee_charger_droite d N iso phy phy_prime).{i}.[j].
Proof.
  intros Hi. rewrite tr_G_D_gauche, tr_G_D_droite by lia.
  rewrite !nth_map_lineaire by ring.
  rewrite prod_list_vide by lia.
  replace (i + 1 - 1)%nat with i by lia.
  rewrite prod_list_vide by lia.
  rewrite Z.sub_diag. cbn [powerRZ]. split; ring.
Qed.

(** With phy[0] = 0 the first support carries no moment, with
    phy_prime[N-1] = 0 the last one carries none. *)
Lemma tr_G_D_premier_appui (i j : nat) :
  phy.[0] = 0 -> (hyperstatique.tr_G_D d N iso phy phy_prime).{i}.{0}.[j] = 0.
Proof.
  intros H0. destruct (Nat.lt_ge_cases i (Z.to_nat N)) as [Hi | Hi].
  - rewrite tr_G_D_gauche by lia. rewrite nth_map_lineaire by ring.
    destruct i as [|i].
    + rewrite moment_gauche_ligne by lia.
      destruct (Nat.lt_ge_cases j (length (hyperstatique.positions d))) as [Hj | Hj].
      * rewrite (nth_map_dans _ _ j O) by exact Hj. rewrite H0.
        unfold Rdiv. ring.
      * rewrite (nth_overflow (map _ _)) by (rewrite length_map; exact Hj). ring.
    + rewrite (prod_list_nul phy 0) by (try assumption; lia). ring.
  - rewrite (nth_overflow (hyperstatique.tr_G_D _ _ _ _ _))
      by (rewrite tr_G_D_taille; exact Hi).
    destruct j; reflexivity.
Qed.

Lemma tr_G_D_dernier_appui (i j : nat) :
  phy_prime.[Z.to_nat N - 1] = 0 -> (hyperstatique.tr_G_D d N iso phy phy_prime).{i}.{Z.to_nat N}.[j] = 0.
Proof.
  intros H0. destruct (Nat.lt_ge_cases i (Z.to_nat N)) as [Hi | Hi].
  - rewrite tr_G_D_droite by lia. rewrite nth_map_lineaire by ring.
    destruct (Nat.eq_dec (S i) (Z.to_nat N)) as [He | He].
    + rewrite moment_droite_ligne by lia.
      replace (Z.to_nat N - 1)%nat with i in H0 by lia.
      destruct (Nat.lt_ge_cases j (length (hyperstatique.positions d))) as [Hj | Hj].
      * rewrite (nth_map_dans _ _ j O) by exact Hj. rewrite H0.
        unfold Rdiv. ring.
      * rewrite (nth_overflow (map _ _)) by (rewrite length_map; exact Hj). ring.
    + rewrite (prod_list_nul phy_prime (Z.to_nat N - 1)) by (try assumption; lia).
      ring.
  - rewrite (nth_overflow (hyperstatique.tr_G_D _ _ _ _ _))
      by (rewrite tr_G_D_taille; exact Hi).
    destruct (Z.to_nat N), j; reflexivity.
Qed.

End Appuis.

(** ** hyperstatique: the surfaces of a constant-inertia structure *)

Lemma ctor_reussit (L E I : list R) (d : Z) :
  length E = length L -> length I = length L ->
  (1 <= length L)%nat -> (1 <= d)%Z ->
  exists h, hyperstatique.ctor L E I d = Ok h.
Proof.
  intros HE HI HL Hd. unfold hyperstatique.ctor, hyperstatique.taille.
  rewrite HE, HI, Z.eqb_refl. cbn [negb orb].
  destruct (Z.leb_spec (Z.of_nat (length L)) 0) as [H | _]; [lia|].
  destruct (Z.leb_spec d 0) as [H | _]; [lia|]. cbn [orb].
  unfold hyperstatique.initialiser_donnees.
  rewrite mise_en_place_constantes by lia. cbn [bind]. eexists. reflexivity.
Qed.

Lemma abscisse_constantes (L E I : list R) (d : Z) :
  hyperstatique.abscisse (travees_constantes L E I d)
  = map (fun i => isostatique.alpha (isostatique.ctor L.[i] E.[i] I.[i] d))
        (seq 0 (length L)).
Proof.
  unfold hyperstatique.abscisse, travees_constantes. rewrite map_map. reflexivity.
Qed.

Lemma Mu_total_constantes (L E I : list R) (d : Z) :
  hyperstatique.Mu_total (travees_constantes L E I d)
  = map (fun i => isostatique.moment_flechissant
                    (isostatique.ctor L.[i] E.[i] I.[i] d)) (seq 0 (length L)).
Proof.
  unfold hyperstatique.Mu_total, travees_constantes. rewrite map_map. reflexivity.
Qed.

Lemma T_total_constantes (L E I : list R) (d : Z) :
  hyperstatique.T_total (travees_constantes L E I d)
  = map (fun i => isostatique.effort_tranchant
                    (isostatique.ctor L.[i] E.[i] I.[i] d)) (seq 0 (length L)).
Proof.
  unfold hyperstatique.T_total, travees_constantes. rewrite map_map. reflexivity.
Qed.

(** With a positive length every row that the superposition reads is
    complete: the row of the moment for a load at a grid point has
    division+1 entries and the row of the shear division+2 (two samples at
    the load point), so that M_flechissant reads [Mut[j]] for j <= division
    and T_effort_tranchant reads [T[compteur]] for compteur <= division+1
    inside the rows. *)
Lemma lignes_completes (self : isostatique.t) (s : nat) :
  0 < isostatique.L self -> (1 <= isostatique.division self)%Z ->
  (s <= Z.to_nat (isostatique.division self))%nat ->
  length (isostatique.moment_flechissant self).{s}
  = (Z.to_nat (isostatique.division self) + 1)%nat
  /\ length (isostatique.effort_tranchant self).{s}
     = (Z.to_nat (isostatique.division self) + 2)%nat.
Proof.
  intros HL Hd Hs.
  pose proof (point_borne self HL Hd s Hs) as Hb.
  unfold isostatique.moment_flechissant, isostatique.effort_tranchant.
  rewrite !(nth_map_dans _ _ s 0) by (rewrite length_alpha; lia).
  rewrite nth_alpha by exact Hs. split.
  - rewrite M_dans by apply Hb. rewrite length_map. apply length_alpha.
  - rewrite T_dans by apply Hb. rewrite (T_autour self HL Hd s Hs).
    rewrite !length_app, !length_map, !length_seq. cbn [length]. lia.
Qed.

Lemma grille_travee (L E I : list R) (d : Z) (t k : nat) :
  (1 <= d)%Z -> (t < length L)%nat -> (k <= Z.to_nat d)%nat ->
  (hyperstatique.abscisse (travees_constantes L E I d)).{t}.[k]
  = point (isostatique.ctor L.[t] E.[t] I.[t] d) k.
Proof.
  intros Hd Ht Hk. rewrite abscisse_constantes, nth_map_seq by exact Ht.
  cbn [Nat.add]. apply nth_alpha. exact Hk.
Qed.

Lemma length_grille_travee (L E I : list R) (d : Z) (t : nat) :
  (t < length L)%nat ->
  length (hyperstatique.abscisse (travees_constantes L E I d)).{t}
  = (Z.to_nat d + 1)%nat.
Proof.
  intros Ht. rewrite abscisse_constantes, nth_map_seq by exact Ht.
  apply length_alpha.
Qed.

Lemma length_flat_map_const {A B : Type} (f : A -> list B) (m : nat) (l : list A) :
  (forall x, length (f x) = m) -> length (flat_map f l) = (length l * m)%nat.
Proof.
  intros H. induction l as [|x l IH]; cbn [flat_map length]; [reflexivity|].
  rewrite length_app, H, IH. lia.
Qed.

(** One entry of M_flechissant. *)
Lemma M_flechissant_point
    (L_tr : list R) (division nombre_travee : Z) (alpha : list (list R))
    (GAUCHE_DROITE Mu_iso_total : list (list (list R))) (t s i j : nat) :
  (t < Z.to_nat nombre_travee)%nat ->
  (s < length alpha.{t})%nat ->
  (i < Z.to_nat nombre_travee)%nat ->
  (j < Z.to_nat (division + 1))%nat ->
  (hyperstatique.M_flechissant L_tr division nombre_travee alpha
     GAUCHE_DROITE Mu_iso_total).{t}.{s}.[i * Z.to_nat (division + 1) + j]
  = if Nat.eqb t i
    then Mu_iso_total.{t}.{s}.[j]
         + hyperstatique.interpolate GAUCHE_DROITE.{i}.{t}.[j]
             GAUCHE_DROITE.{i}.{t + 1}.[j] alpha.{t}.[s] L_tr.[t]
    else hyperstatique.interpolate GAUCHE_DROITE.{i}.{t}.[j]
             GAUCHE_DROITE.{i}.{t + 1}.[j] alpha.{t}.[s] L_tr.[t].
Proof.
  intros Ht Hs Hi Hj.
  unfold hyperstatique.M_flechissant, hyperstatique.travees, hyperstatique.positions.
  rewrite nth_map_seq by exact Ht. cbn [Nat.add].
  rewrite (nth_map_dans _ (enumerate alpha.{t}) s (O, 0))
    by (rewrite length_enumerate; exact Hs).
  rewrite nth_enumerate by exact Hs.
  rewrite (nth_flat_map_seq _ (Z.to_nat (division + 1)))
    by (try assumption; intros k; rewrite length_map, length_seq; reflexivity).
  rewrite nth_map_seq by exact Hj. cbn [Nat.add].
  reflexivity.
Qed.

Lemma M_flechissant_forme
    (L_tr : list R) (division nombre_travee : Z) (alpha : list (list R))
    (GAUCHE_DROITE Mu_iso_total : list (list (list R))) (t s : nat) :
  (t < Z.to_nat nombre_travee)%nat ->
  length (hyperstatique.M_flechissant L_tr division nombre_travee alpha
            GAUCHE_DROITE Mu_iso_total) = Z.to_nat nombre_travee
  /\ length (hyperstatique.M_flechissant L_tr division nombre_travee alpha
            GAUCHE_DROITE Mu_iso_total).{t} = length alpha.{t}
  /\ ((s < length alpha.{t})%nat ->
      length (hyperstatique.M_flechissant L_tr division nombre_travee alpha
            GAUCHE_DROITE Mu_iso_total).{t}.{s}
      = (Z.to_nat nombre_travee * Z.to_nat (division + 1))%nat).
Proof.
  intros Ht.
  unfold hyperstatique.M_flechissant, hyperstatique.travees, hyperstatique.positions.
  split; [rewrite length_map, length_seq; reflexivity|].
  rewrite nth_map_seq by exact Ht. cbn [Nat.add].
  split; [rewrite length_map, length_enumerate; reflexivity|].
  intros Hs.
  rewrite (nth_map_dans _ (enumerate alpha.{t}) s (O, 0))
    by (rewrite length_enumerate; exact Hs).
  rewrite nth_enumerate by exact Hs.
  rewrite (length_flat_map_const _ (Z.to_nat (division + 1)))
    by (intros k; rewrite length_map, length_seq; reflexivity).
  rewrite length_seq. reflexivity.
Qed.

(** The moment at the two ends of a span for a load at a grid point. *)
Lemma moment_extremites (self : isostatique.t) (j : nat) :
  0 < isostatique.L self -> (1 <= isostatique.division self)%Z ->
  (j <= Z.to_nat (isostatique.division self))%nat ->
  moment_at self 0 (point self j) = 0
  /\ moment_at self (isostatique.L self) (point self j) = 0.
Proof.
  intros HL Hd Hj. pose proof (point_borne self HL Hd j Hj) as [H0 H1].
  unfold moment_at, Rle_b. split.
  - destruct (Rle_dec 0 (point self j)); [ring | lra].
  - destruct (Rle_dec (isostatique.L self) (point self j)).
    + replace (point self j) with (isostatique.L self) by lra. field. lra.
    + field. lra.
Qed.

Lemma ratios_extremes (a b c : list R) (N : nat) :
  (1 <= N)%nat ->
  (rapport_focau.phy (rapport_focau.mk a b c (Z.of_nat N))).[0] = 0
  /\ (rapport_focau.phy_prime (rapport_focau.mk a b c (Z.of_nat N))).[N - 1] = 0.
Proof.
  intros HN. split.
  - destruct (phy_liste a b c N) as [_ H]. rewrite (H O) by lia. reflexivity.
  - destruct (phy_prime_liste a b c N) as (l & _ & Hl & -> & _).
    rewrite nth_map_seq by lia. cbn [Nat.add].
    replace (N - (N - 1) - 1)%nat with O by lia.
    rewrite (Hl O) by lia. reflexivity.
Qed.

(** X16. The checks of the constant-inertia constructor, in their order:
    vectors of different sizes give the dimension error, whatever the number
    of divisions; with equal sizes, no span at all or a number of divisions
    below 1 gives the positivity error. *)
Theorem structure_constante_refus (L E I : list R) (d : Z) :
  (length E <> length L \/ length I <> length L ->
   hyperstatique.ctor L E I d = Throw Dimensions_incoherentes)
  /\ (length E = length L -> length I = length L ->
      length L = 0%nat \/ (d <= 0)%Z ->
      hyperstatique.ctor L E I d = Throw Nombre_positif).
Proof.
  unfold hyperstatique.ctor, hyperstatique.taille. rewrite Z.eqb_refl.
  cbn [negb orb]. split.
  - intros [H | H].
    + destruct (Z.eqb_spec (Z.of_nat (length E)) (Z.of_nat (length L))); [lia|].
      reflexivity.
    + destruct (Z.eqb_spec (Z.of_nat (length I)) (Z.of_nat (length L))); [lia|].
      rewrite orb_true_r. reflexivity.
  - intros -> -> H. rewrite Z.eqb_refl. cbn [negb orb].
    destruct H as [H | H].
    + destruct (Z.leb_spec (Z.of_nat (length L)) 0); [reflexivity | lia].
    + destruct (Z.leb_spec d 0); [| lia]. rewrite orb_true_r. reflexivity.
Qed.

Lemma structure_constante_refus_witness :
  hyperstatique.ctor [4; 5] [1] [1; 1] 0 = Throw Dimensions_incoherentes
  /\ hyperstatique.ctor [4; 5] [1; 1] [1; 1] 0 = Throw Nombre_positif.
Proof.
  split.
  - apply (structure_constante_refus [4; 5] [1] [1; 1] 0). left. simpl. lia.
  - apply (structure_constante_refus [4; 5] [1; 1] [1; 1] 0);
      [reflexivity | reflexivity | right; lia].
Defined.

(** X17. With vectors of equal sizes, at least one span, at least one
    division and spans of positive length, modulus and inertia the
    constant-inertia constructor succeeds.  The structure holds one grid of division+1 points per span, one table of
    support moments per loaded span with a row of division+1 values for each
    of the N+1 supports, and one moment surface per observed span with
    division+1 sections of N*(division+1) values.  The rows of the
    single-span moment and shear that the superposition reads for each
    section have division+1 and division+2 entries: every read is inside
    its row. *)
Theorem structure_constante (L E I : list R) (d : Z) :
  length E = length L -> length I = length L ->
  (1 <= length L)%nat -> (1 <= d)%Z ->
  (forall t, (t < length L)%nat -> 0 < L.[t] /\ 0 < E.[t] /\ 0 < I.[t]) ->
  exists h,
    hyperstatique.ctor L E I d = Ok h
    /\ hyperstatique.iso_cache h = travees_constantes L E I d
    /\ length (hyperstatique.alpha h) = length L
    /\ length (hyperstatique.GAUCHE_DROITE h) = length L
    /\ length (hyperstatique.Courbe_moment_en_travee h) = length L
    /\ forall t, (t < length L)%nat ->
         length (hyperstatique.alpha h).{t} = (Z.to_nat d + 1)%nat
         /\ length (hyperstatique.GAUCHE_DROITE h).{t} = (length L + 1)%nat
         /\ (forall k, (k <= length L)%nat ->
               length (hyperstatique.GAUCHE_DROITE h).{t}.{k} = (Z.to_nat d + 1)%nat)
         /\ length (hyperstatique.Courbe_moment_en_travee h).{t}
            = (Z.to_nat d + 1)%nat
         /\ (forall s, (s <= Z.to_nat d)%nat ->
               length (hyperstatique.Courbe_moment_en_travee h).{t}.{s}
               = (length L * (Z.to_nat d + 1))%nat
               /\ length (hyperstatique.Mu_iso_total h).{t}.{s}
                  = (Z.to_nat d + 1)%nat
               /\ length (hyperstatique.T_iso_total h).{t}.{s}
                  = (Z.to_nat d + 2)%nat).
Proof.
  intros HE HI HL Hd Hpos3.
  assert (Hpos : forall t, (t < length L)%nat -> 0 < L.[t])
    by (intros t Ht; apply Hpos3; exact Ht).
  destruct (ctor_reussit L E I d HE HI HL Hd) as [h Hh].
  exists h. split; [exact Hh|].
  pose proof (ctor_etat L E I d h Hh) as Het. cbv zeta in Het.
  destruct Het as (_ & _ & _ & _ & _ & _ & _ & _ & _ & Hiso & _ & _ & Halpha
                   & HGD & HMu & _ & _ & HT & _ & HCM & _).
  split; [exact Hiso|].
  assert (Hgrille : forall t, (t < length L)%nat ->
            length (hyperstatique.alpha h).{t} = (Z.to_nat d + 1)%nat).
  { intros t Ht. rewrite Halpha. apply length_grille_travee. exact Ht. }
  assert (HD : Z.to_nat (d + 1) = (Z.to_nat d + 1)%nat) by lia.
  split; [rewrite Halpha, abscisse_constantes, length_map, length_seq; reflexivity|].
  split; [rewrite HGD, tr_G_D_taille, Nat2Z.id; reflexivity|].
  split.
  { rewrite HCM.
    destruct (M_flechissant_forme L d (Z.of_nat (length L)) (hyperstatique.alpha h)
                (hyperstatique.GAUCHE_DROITE h) (hyperstatique.Mu_iso_total h) 0 0)
      as [H _]; [lia|].
    rewrite H. apply Nat2Z.id. }
  intros t Ht.
  destruct (M_flechissant_forme L d (Z.of_nat (length L)) (hyperstatique.alpha h)
              (hyperstatique.GAUCHE_DROITE h) (hyperstatique.Mu_iso_total h) t 0)
    as (_ & H1 & _); [lia|].
  split; [apply Hgrille; exact Ht|].
  split; [rewrite HGD, tr_G_D_lignes, Nat2Z.id by lia; reflexivity|].
  split; [intros k Hk; rewrite HGD, tr_G_D_colonnes by lia; exact HD|].
  split; [rewrite HCM, H1; apply Hgrille; exact Ht|].
  intros s Hs.
  destruct (M_flechissant_forme L d (Z.of_nat (length L)) (hyperstatique.alpha h)
              (hyperstatique.GAUCHE_DROITE h) (hyperstatique.Mu_iso_total h) t s)
    as (_ & _ & H2); [lia|].
  split.
  { rewrite HCM, H2 by (rewrite Hgrille by exact Ht; lia).
    rewrite Nat2Z.id, HD. reflexivity. }
  rewrite HMu, HT, Mu_total_constantes, T_total_constantes.
  rewrite !nth_map_seq by exact Ht. cbn [Nat.add].
  apply (lignes_completes (isostatique.ctor L.[t] E.[t] I.[t] d) s);
    [apply Hpos; exact Ht | exact Hd | exact Hs].
Qed.

Lemma structure_constante_witness :
  exists h,
    hyperstatique.ctor [4; 6] [1; 2] [1; 3] 2 = Ok h
    /\ length (hyperstatique.Courbe_moment_en_travee h) = 2%nat.
Proof.
  destruct (structure_constante [4; 6] [1; 2] [1; 3] 2)
    as (h & Hh & _ & _ & _ & HM & _); try reflexivity; try (simpl; lia).
  { intros [|[|t]] Ht; simpl in *; try lia; repeat split; lra. }
  exists h. split; assumption.
Defined.

(** X18. In the table of support moments built by tr_G_D, from N focal
    ratios of each kind, for a load on the span i: the two supports of the
    loaded span carry the moments of moment_au_appuit_travee_charger_gauche
    and _droite; from there, each step to the left multiplies the moment by
    minus the focal ratio phy of the span crossed, each step to the right by
    minus the ratio phy_prime of the span crossed. *)
Theorem moments_appuis_propagation
    (d N : Z) (iso : list travee.t) (phy phy_prime : list R) (i k j : nat) :
  length phy = Z.to_nat N -> length phy_prime = Z.to_nat N ->
  (i < Z.to_nat N)%nat ->
  let GD := hyperstatique.tr_G_D d N iso phy phy_prime in
  GD.{i}.{i}.[j]
  = (hyperstatique.moment_au_appuit_travee_charger_gauche d N iso phy phy_prime).{i}.[j]
  /\ GD.{i}.{i + 1}.[j]
     = (hyperstatique.moment_au_appuit_travee_charger_droite d N iso phy phy_prime).{i}.[j]
  /\ ((1 <= k <= i)%nat -> GD.{i}.{k - 1}.[j] = - phy.[k - 1] * GD.{i}.{k}.[j])
  /\ ((i < k < Z.to_nat N)%nat -> GD.{i}.{k + 1}.[j] = - phy_prime.[k] * GD.{i}.{k}.[j]).
Proof.
  intros _ _ Hi GD. unfold GD.
  split; [apply tr_G_D_travee_chargee; exact Hi|].
  split; [apply tr_G_D_travee_chargee; exact Hi|].
  split.
  - intros Hk. apply tr_G_D_pas_gauche; [exact Hk | exact Hi].
  - intros Hk. apply tr_G_D_pas_droite; lia.
Qed.

Lemma moments_appuis_propagation_witness :
  let GD := hyperstatique.tr_G_D 1 3
              (travees_constantes [4; 5; 6] [1; 1; 1] [1; 1; 1] 1)
              [0; 1 / 4; 1 / 5] [1 / 5; 1 / 4; 0] in
  GD.{1}.{1 - 1}.[0] = - [0; 1 / 4; 1 / 5].[1 - 1] * GD.{1}.{1}.[0]
  /\ GD.{1}.{2 + 1}.[0] = - [1 / 5; 1 / 4; 0].[2] * GD.{1}.{2}.[0].
Proof.
  intros GD. split.
  - apply (moments_appuis_propagation 1 3
             (travees_constantes [4; 5; 6] [1; 1; 1] [1; 1; 1] 1)
             [0; 1 / 4; 1 / 5] [1 / 5; 1 / 4; 0] 1 1 0);
      try reflexivity; simpl; lia.
  - apply (moments_appuis_propagation 1 3
             (travees_constantes [4; 5; 6] [1; 1; 1] [1; 1; 1] 1)
             [0; 1 / 4; 1 / 5] [1 / 5; 1 / 4; 0] 1 2 0);
      try reflexivity; simpl; lia.
Defined.

(** The coefficients of the spans of a constant-inertia structure with
    positive lengths, moduli and inertias: b > 0 and a = c = 2b. *)
Lemma coefficients_constantes (L E I : list R) (d : Z) (t : nat) :
  (t < length L)%nat -> 0 < L.[t] -> 0 < E.[t] -> 0 < I.[t] ->
  0 < (hyperstatique.b_tr (travees_constantes L E I d)).[t]
  /\ 2 * (hyperstatique.b_tr (travees_constantes L E I d)).[t]
     <= (hyperstatique.a_tr (travees_constantes L E I d)).[t]
  /\ 2 * (hyperstatique.b_tr (travees_constantes L E I d)).[t]
     <= (hyperstatique.c_tr (travees_constantes L E I d)).[t].
Proof.
  intros Ht HL HE HI.
  unfold hyperstatique.a_tr, hyperstatique.b_tr, hyperstatique.c_tr,
    travees_constantes.
  rewrite !map_map, !nth_map_seq by exact Ht. cbn [Nat.add].
  unfold travee.a, travee.b, travee.c.
  cbn [travee.ctor travee.I_varer travee.longueur travee.Young travee.Inertie].
  assert (Hden : 0 < E.[t] * I.[t]) by (apply Rmult_lt_0_compat; assumption).
  assert (Hb : 0 < L.[t] / (6 * E.[t] * I.[t])).
  { apply Rdiv_lt_0_compat; [exact HL | lra]. }
  replace (L.[t] / (3 * E.[t] * I.[t])) with (2 * (L.[t] / (6 * E.[t] * I.[t])))
    by (field; split; lra).
  lra.
Qed.

(** With positive lengths, moduli and inertias no division of the focal
    recursion or of the support moments is by zero: every b is positive and
    every focal ratio of the structure lies in [0, 1/2). *)
Lemma structure_bien_conditionnee (L E I : list R) (d : Z) (h : hyperstatique.t) :
  hyperstatique.ctor L E I d = Ok h ->
  (forall t, (t < length L)%nat -> 0 < L.[t] /\ 0 < E.[t] /\ 0 < I.[t]) ->
  forall t, (t < length L)%nat ->
    0 < (hyperstatique.b_tr (hyperstatique.iso_cache h)).[t]
    /\ 0 <= (hyperstatique.phy h).[t] < 1 / 2
    /\ 0 <= (hyperstatique.phy_prime h).[t] < 1 / 2.
Proof.
  intros Hh Hpos t Ht.
  pose proof (ctor_etat L E I d h Hh) as Het. cbv zeta in Het.
  destruct Het as (_ & _ & _ & _ & _ & _ & _ & _ & _ & Hiso & Hphy & Hphy' & _).
  assert (Hc : forall k, (k < length L)%nat ->
            0 < (hyperstatique.b_tr (travees_constantes L E I d)).[k]
            /\ 2 * (hyperstatique.b_tr (travees_constantes L E I d)).[k]
               <= (hyperstatique.a_tr (travees_constantes L E I d)).[k]
            /\ 2 * (hyperstatique.b_tr (travees_constantes L E I d)).[k]
               <= (hyperstatique.c_tr (travees_constantes L E I d)).[k]).
  { intros k Hk. destruct (Hpos k Hk) as (H1 & H2 & H3).
    apply coefficients_constantes; assumption. }
  rewrite Hiso, Hphy, Hphy'. split; [apply Hc; exact Ht|].
  apply (rapports_dans_intervalle _ _ _ (length L) t Hc Ht).
Qed.

(** X19. In a structure built by the constant-inertia constructor from
    spans of positive length, modulus and inertia, every coefficient b is
    positive and every focal ratio lies in [0, 1/2), so that the support
    moments are computed without any division by zero; the first and the
    last support carry no moment, whatever the loaded span and the load
    position: the rows 0 and N of every table of GAUCHE_DROITE are null. *)
Theorem appuis_extremes_sans_moment (L E I : list R) (d : Z) :
  length E = length L -> length I = length L ->
  (1 <= length L)%nat -> (1 <= d)%Z ->
  (forall t, (t < length L)%nat -> 0 < L.[t] /\ 0 < E.[t] /\ 0 < I.[t]) ->
  exists h,
    hyperstatique.ctor L E I d = Ok h
    /\ (forall t, (t < length L)%nat ->
          0 < (hyperstatique.b_tr (hyperstatique.iso_cache h)).[t]
          /\ 0 <= (hyperstatique.phy h).[t] < 1 / 2
          /\ 0 <= (hyperstatique.phy_prime h).[t] < 1 / 2)
    /\ forall i j, (i < length L)%nat -> (j <= Z.to_nat d)%nat ->
         (hyperstatique.GAUCHE_DROITE h).{i}.{0}.[j] = 0
         /\ (hyperstatique.GAUCHE_DROITE h).{i}.{length L}.[j] = 0.
Proof.
  intros HE HI HL Hd Hpos.
  destruct (ctor_reussit L E I d HE HI HL Hd) as [h Hh].
  exists h. split; [exact Hh|].
  split; [apply (structure_bien_conditionnee L E I d h Hh Hpos)|].
  pose proof (ctor_etat L E I d h Hh) as Het. cbv zeta in Het.
  destruct Het as (_ & _ & _ & _ & _ & _ & _ & _ & _ & _ & Hphy & Hphy' & _
                   & HGD & _).
  destruct (ratios_extremes
              (hyperstatique.a_tr (travees_constantes L E I d))
              (hyperstatique.b_tr (travees_constantes L E I d))
              (hyperstatique.c_tr (travees_constantes L E I d))
              (length L) HL) as [H0 HN].
  intros i j _ _. rewrite HGD. split.
  - apply tr_G_D_premier_appui. rewrite Hphy. exact H0.
  - pose proof (tr_G_D_dernier_appui d (Z.of_nat (length L))
                  (travees_constantes L E I d) (hyperstatique.phy h)
                  (hyperstatique.phy_prime h) i j) as Hfin.
    rewrite Nat2Z.id in Hfin. apply Hfin. rewrite Hphy'. exact HN.
Qed.

Lemma appuis_extremes_sans_moment_witness :
  exists h,
    hyperstatique.ctor [4; 5] [1; 1] [1; 1] 2 = Ok h
    /\ (hyperstatique.GAUCHE_DROITE h).{1}.{0}.[1] = 0
    /\ (hyperstatique.GAUCHE_DROITE h).{0}.{2}.[1] = 0.
Proof.
  destruct (appuis_extremes_sans_moment [4; 5] [1; 1] [1; 1] 2)
    as (h & Hh & _ & H); try reflexivity; try (simpl; lia).
  - intros [|[|t]] Ht; simpl in *; try lia; repeat split; lra.
  - exists h. split; [exact Hh|].
    split; [apply (H 1%nat 1%nat) | apply (H 0%nat 1%nat)]; simpl; lia.
Defined.

(** X20. In a structure built by the constant-inertia constructor from
    spans of positive length, modulus and inertia, whose lengths are
    binary32 numbers (so that the float length of each span is the double
    length of the structure), the moment surface of the observed span t
    takes at its first section the moment of the support t and at its last
    section the moment of the support t+1, for every loaded span i and load
    position j.  Hence the moment is continuous over every interior support
    and null at the two ends of the beam. *)
Theorem moment_continu_aux_appuis (L E I : list R) (d : Z) :
  length E = length L -> length I = length L ->
  (1 <= length L)%nat -> (1 <= d)%Z ->
  (forall t, (t < length L)%nat -> 0 < L.[t] /\ 0 < E.[t] /\ 0 < I.[t]) ->
  (forall t, (t < length L)%nat -> binary32 L.[t]) ->
  exists h,
    hyperstatique.ctor L E I d = Ok h
    /\ forall t i j,
         (t < length L)%nat -> (i < length L)%nat -> (j <= Z.to_nat d)%nat ->
         let k := (i * (Z.to_nat d + 1) + j)%nat in
         let M := hyperstatique.Courbe_moment_en_travee h in
         M.{t}.{0}.[k] = (hyperstatique.GAUCHE_DROITE h).{i}.{t}.[j]
         /\ M.{t}.{Z.to_nat d}.[k] = (hyperstatique.GAUCHE_DROITE h).{i}.{t + 1}.[j]
         /\ ((S t < length L)%nat -> M.{t}.{Z.to_nat d}.[k] = M.{S t}.{0}.[k])
         /\ M.{0}.{0}.[k] = 0
         /\ M.{length L - 1}.{Z.to_nat d}.[k] = 0.
Proof.
  intros HE HI HL Hd Hpos3 _.
  assert (Hpos : forall t, (t < length L)%nat -> 0 < L.[t])
    by (intros t Ht; apply Hpos3; exact Ht).
  destruct (ctor_reussit L E I d HE HI HL Hd) as [h Hh].
  exists h. split; [exact Hh|].
  pose proof (ctor_etat L E I d h Hh) as Het. cbv zeta in Het.
  destruct Het as (_ & _ & _ & _ & _ & _ & _ & _ & _ & _ & Hphy & Hphy' & Halpha
                   & HGD & HMu & _ & _ & _ & _ & HCM & _).
  assert (HD : Z.to_nat (d + 1) = (Z.to_nat d + 1)%nat) by lia.
  assert (Hdebut : forall t i j,
            (t < length L)%nat -> (i < length L)%nat -> (j <= Z.to_nat d)%nat ->
            (hyperstatique.Courbe_moment_en_travee h).{t}.{0}.[i * (Z.to_nat d + 1) + j]
            = (hyperstatique.GAUCHE_DROITE h).{i}.{t}.[j]).
  { intros t i j Ht Hi Hj. rewrite HCM, <- HD.
    rewrite M_flechissant_point
      by (rewrite ?Nat2Z.id, ?Halpha, ?length_grille_travee; lia).
    rewrite Halpha, grille_travee, point_0 by (try assumption; lia).
    rewrite HMu, Mu_total_constantes, nth_map_seq by exact Ht. cbn [Nat.add].
    rewrite (moment_flechissant_entree (isostatique.ctor L.[t] E.[t] I.[t] d))
      by (try (apply Hpos; exact Ht); try assumption; lia).
    rewrite point_0 by (try (apply Hpos; exact Ht); assumption).
    destruct (moment_extremites (isostatique.ctor L.[t] E.[t] I.[t] d) j)
      as [H0 _]; [apply Hpos; exact Ht | exact Hd | exact Hj |].
    rewrite H0. unfold hyperstatique.interpolate.
    destruct (Nat.eqb t i); unfold Rdiv; ring. }
  assert (Hfin : forall t i j,
            (t < length L)%nat -> (i < length L)%nat -> (j <= Z.to_nat d)%nat ->
            (hyperstatique.Courbe_moment_en_travee h).{t}.{Z.to_nat d}.[i * (Z.to_nat d + 1) + j]
            = (hyperstatique.GAUCHE_DROITE h).{i}.{t + 1}.[j]).
  { intros t i j Ht Hi Hj. rewrite HCM, <- HD.
    assert (Hpd : point (isostatique.ctor L.[t] E.[t] I.[t] d) (Z.to_nat d) = L.[t])
      by apply (point_dernier (isostatique.ctor L.[t] E.[t] I.[t] d)).
    rewrite M_flechissant_point
      by (rewrite ?Nat2Z.id, ?Halpha, ?length_grille_travee; lia).
    rewrite Halpha, grille_travee by (try assumption; lia).
    rewrite Hpd.
    rewrite HMu, Mu_total_constantes, nth_map_seq by exact Ht. cbn [Nat.add].
    rewrite (moment_flechissant_entree (isostatique.ctor L.[t] E.[t] I.[t] d))
      by (try (apply Hpos; exact Ht); try assumption;
          cbn [isostatique.division isostatique.ctor]; lia).
    rewrite Hpd.
    destruct (moment_extremites (isostatique.ctor L.[t] E.[t] I.[t] d) j)
      as [_ H1]; [apply Hpos; exact Ht | exact Hd | exact Hj |].
    cbn [isostatique.L isostatique.ctor] in H1. rewrite H1.
    pose proof (Hpos t Ht) as HLt.
    unfold hyperstatique.interpolate.
    destruct (Nat.eqb t i); field; lra. }
  intros t i j Ht Hi Hj k M. unfold k, M.
  split; [apply Hdebut; assumption|].
  split; [apply Hfin; assumption|].
  split.
  { intros HSt. rewrite Hfin, Hdebut by (try assumption; lia).
    replace (t + 1)%nat with (S t) by lia. reflexivity. }
  split.
  - rewrite Hdebut by (try assumption; lia). rewrite HGD.
    apply tr_G_D_premier_appui. rewrite Hphy.
    apply (ratios_extremes _ _ _ (length L) HL).
  - rewrite Hfin by (try assumption; lia). rewrite HGD.
    replace (length L - 1 + 1)%nat with (length L) by lia.
    pose proof (tr_G_D_dernier_appui d (Z.of_nat (length L))
                  (travees_constantes L E I d) (hyperstatique.phy h)
                  (hyperstatique.phy_prime h) i j) as Hder.
    rewrite Nat2Z.id in Hder. apply Hder. rewrite Hphy'.
    apply (ratios_extremes _ _ _ (length L) HL).
Qed.

Lemma moment_continu_aux_appuis_witness :
  exists h,
    hyperstatique.ctor [4; 5] [1; 1] [1; 1] 2 = Ok h
    /\ (hyperstatique.Courbe_moment_en_travee h).{0}.{Z.to_nat 2}.[1 * (Z.to_nat 2 + 1) + 1]
       = (hyperstatique.Courbe_moment_en_travee h).{1}.{0}.[1 * (Z.to_nat 2 + 1) + 1].
Proof.
  destruct (moment_continu_aux_appuis [4; 5] [1; 1] [1; 1] 2)
    as (h & Hh & H); try reflexivity; try (simpl; lia).
  - intros [|[|t]] Ht; simpl in *; try lia; repeat split; lra.
  - intros [|[|t]] Ht; simpl in *; try lia;
      [apply (binary32_entier 4) | apply (binary32_entier 5)]; reflexivity.
  - exists h. split; [exact Hh|].
    destruct (H 0%nat 1%nat 1%nat) as (_ & _ & Hc & _); try (simpl; lia).
    apply Hc. simpl. lia.
Defined.

(** ** W_rotaion and V_fleche with a constant inertia per span *)

Lemma I_tr_non_vide (I_tr : list R) :
  I_tr <> [] -> hyperstatique.I_tr_empty I_tr = false.
Proof.
  intros H. destruct I_tr; [contradiction | reflexivity].
Qed.

Lemma W_rotaion_forme
    (L_tr E_tr I_tr : list R) (division nombre_travee : Z)
    (I_var pos_I_var : option (list (list R))) (alpha : list (list R))
    (GAUCHE_DROITE W_iso_total : list (list (list R))) :
  I_tr <> [] ->
  hyperstatique.W_rotaion L_tr E_tr I_tr division nombre_travee I_var pos_I_var
    alpha GAUCHE_DROITE W_iso_total
  = map (fun t =>
      map (fun s =>
        flat_map (fun i =>
          map (fun j =>
            if Nat.eqb t i
            then W_iso_total.{t}.{s}.[j]
                 + hyperstatique.calcul_rotation GAUCHE_DROITE.{i}.{t}.[j]
                     GAUCHE_DROITE.{i}.{t + 1}.[j] alpha.{t}.[j]
                     L_tr.[t] E_tr.[t] I_tr.[t]
            else hyperstatique.calcul_rotation GAUCHE_DROITE.{i}.{t}.[j]
                     GAUCHE_DROITE.{i}.{t + 1}.[j] alpha.{t}.[j]
                     L_tr.[t] E_tr.[t] I_tr.[t])
            (hyperstatique.positions division))
          (hyperstatique.travees nombre_travee))
        (hyperstatique.positions division))
      (hyperstatique.travees nombre_travee).
Proof.
  intros HI. unfold hyperstatique.W_rotaion.
  rewrite (I_tr_non_vide I_tr HI).
  apply map_ext. intros t.
  erewrite (fold_left_pousse _ (fun s => [_]) I_tr.[t]);
    [cbn [snd app]; apply flat_map_single|].
  intros acc s.
  erewrite (fold_left_pousse _
              (fun i => map (fun j => if Nat.eqb t i then _ else _)
                            (hyperstatique.positions division)) I_tr.[t]);
    [cbn [app]; reflexivity|].
  intros acc' i. destruct (Nat.eqb t i) eqn:Hti.
  - erewrite (fold_left_pousse _ (fun j => [_]) I_tr.[t]);
      [rewrite flat_map_single; reflexivity|].
    intros acc'' j. reflexivity.
  - reflexivity.
Qed.

Lemma V_fleche_forme
    (L_tr E_tr I_tr : list R) (division nombre_travee : Z)
    (I_var pos_I_var : option (list (list R))) (alpha : list (list R))
    (GAUCHE_DROITE V_iso_total : list (list (list R))) :
  I_tr <> [] ->
  hyperstatique.V_fleche L_tr E_tr I_tr division nombre_travee I_var pos_I_var
    alpha GAUCHE_DROITE V_iso_total
  = map (fun t =>
      map (fun s =>
        flat_map (fun i =>
          map (fun j =>
            if Nat.eqb t i
            then V_iso_total.{t}.{s}.[j]
                 + hyperstatique.calcul_fleche GAUCHE_DROITE.{i}.{t}.[j]
                     GAUCHE_DROITE.{i}.{t + 1}.[j] alpha.{t}.[j]
                     L_tr.[t] E_tr.[t] I_tr.[t]
            else hyperstatique.calcul_fleche GAUCHE_DROITE.{i}.{t}.[j]
                     GAUCHE_DROITE.{i}.{t + 1}.[j] alpha.{t}.[j]
                     L_tr.[t] E_tr.[t] I_tr.[t])
            (hyperstatique.positions division))
          (hyperstatique.travees nombre_travee))
        (hyperstatique.positions division))
      (hyperstatique.travees nombre_travee).
Proof.
  intros HI. unfold hyperstatique.V_fleche.
  rewrite (I_tr_non_vide I_tr HI).
  apply map_ext. intros t.
  erewrite (fold_left_pousse _ (fun s => [_]) I_tr.[t]);
    [cbn [snd app]; apply flat_map_single|].
  intros acc s.
  erewrite (fold_left_pousse _
              (fun i => map (fun j => if Nat.eqb t i then _ else _)
                            (hyperstatique.positions division)) I_tr.[t]);
    [cbn [app]; reflexivity|].
  intros acc' i.
  erewrite (fold_left_pousse _ (fun j => [_]) I_tr.[t]);
    [rewrite flat_map_single; reflexivity|].
  intros acc'' j. reflexivity.
Qed.

Lemma surface_entree (f : nat -> nat -> nat -> nat -> R) (division nombre_travee : Z)
    (t s i j : nat) :
  (t < Z.to_nat nombre_travee)%nat -> (s < Z.to_nat (division + 1))%nat ->
  (i < Z.to_nat nombre_travee)%nat -> (j < Z.to_nat (division + 1))%nat ->
  (map (fun t =>
     map (fun s =>
       flat_map (fun i => map (fun j => f t s i j) (hyperstatique.positions division))
                (hyperstatique.travees nombre_travee))
       (hyperstatique.positions division))
     (hyperstatique.travees nombre_travee)).{t}.{s}.[i * Z.to_nat (division + 1) + j]
  = f t s i j.
Proof.
  intros Ht Hs Hi Hj. unfold hyperstatique.travees, hyperstatique.positions.
  rewrite nth_map_seq by exact Ht. rewrite nth_map_seq by exact Hs.
  rewrite (nth_flat_map_seq _ (Z.to_nat (division + 1)))
    by (try assumption; intros k; rewrite length_map, length_seq; reflexivity).
  rewrite nth_map_seq by exact Hj. reflexivity.
Qed.

(** X21. W_rotaion() with a constant inertia per span (I_tr not empty).  In
    the row of the observed span t and the section s, the entry of the
    loaded span i and the index j is calcul_rotation of the two support
    moments GAUCHE_DROITE[i][t][j] and GAUCHE_DROITE[i][t+1][j] at the
    abscissa alpha[t][j], with the length, modulus and inertia of span t; the
    isostatic rotation W_iso_total[t][s][j] is added when t = i and only
    then.  The abscissa is the one of index j, not the one of the section:
    for a load on another span the rows of all the sections are equal. *)
Theorem rotation_superposition
    (L_tr E_tr I_tr : list R) (division nombre_travee : Z)
    (I_var pos_I_var : option (list (list R))) (alpha : list (list R))
    (GAUCHE_DROITE W_iso_total : list (list (list R))) (t s s' i j : nat) :
  I_tr <> [] ->
  (t < Z.to_nat nombre_travee)%nat -> (i < Z.to_nat nombre_travee)%nat ->
  (s < Z.to_nat (division + 1))%nat -> (s' < Z.to_nat (division + 1))%nat ->
  (j < Z.to_nat (division + 1))%nat ->
  let W := hyperstatique.W_rotaion L_tr E_tr I_tr division nombre_travee
             I_var pos_I_var alpha GAUCHE_DROITE W_iso_total in
  let correction :=
    hyperstatique.calcul_rotation GAUCHE_DROITE.{i}.{t}.[j]
      GAUCHE_DROITE.{i}.{t + 1}.[j] alpha.{t}.[j] L_tr.[t] E_tr.[t] I_tr.[t] in
  let k := (i * Z.to_nat (division + 1) + j)%nat in
  W.{t}.{s}.[k]
  = (if Nat.eqb t i then W_iso_total.{t}.{s}.[j] + correction else correction)
  /\ (t <> i -> W.{t}.{s}.[k] = W.{t}.{s'}.[k]).
Proof.
  intros HI Ht Hi Hs Hs' Hj W correction k. unfold W, k.
  rewrite W_rotaion_forme by exact HI.
  rewrite !(surface_entree
              (fun t s i j =>
                 if Nat.eqb t i
                 then W_iso_total.{t}.{s}.[j]
                      + hyperstatique.calcul_rotation GAUCHE_DROITE.{i}.{t}.[j]
                          GAUCHE_DROITE.{i}.{t + 1}.[j] alpha.{t}.[j]
                          L_tr.[t] E_tr.[t] I_tr.[t]
                 else hyperstatique.calcul_rotation GAUCHE_DROITE.{i}.{t}.[j]
                          GAUCHE_DROITE.{i}.{t + 1}.[j] alpha.{t}.[j]
                          L_tr.[t] E_tr.[t] I_tr.[t])) by assumption.
  split; [reflexivity|].
  intros Hne. destruct (Nat.eqb_spec t i); [contradiction | reflexivity].
Qed.

Lemma rotation_superposition_witness :
  (hyperstatique.W_rotaion [4; 6] [1; 1] [1; 1] 1 2 None None [[0; 4]; [0; 6]]
     [[[0; 1]; [2; 3]; [0; 0]]; [[0; 0]; [5; 7]; [0; 0]]]
     [[[0; 0]; [0; 0]]; [[0; 0]; [0; 0]]]).{0}.{0}.[1 * Z.to_nat (1 + 1) + 1]
  = hyperstatique.calcul_rotation 0 7 4 4 1 1.
Proof.
  apply (rotation_superposition [4; 6] [1; 1] [1; 1] 1 2 None None
           [[0; 4]; [0; 6]]
           [[[0; 1]; [2; 3]; [0; 0]]; [[0; 0]; [5; 7]; [0; 0]]]
           [[[0; 0]; [0; 0]]; [[0; 0]; [0; 0]]] 0 0 1 1 1);
    try discriminate; simpl; lia.
Defined.

(** X22. V_fleche() with a constant inertia per span (I_tr not empty): the
    entry of the observed span t, the section s, the loaded span i and the
    index j is calcul_fleche of the two support moments at the abscissa
    alpha[t][j], to which the isostatic deflection V_iso_total[t][s][j] is
    added when t = i and only then; for a load on another span the rows of
    all the sections are equal. *)
Theorem fleche_superposition
    (L_tr E_tr I_tr : list R) (division nombre_travee : Z)
    (I_var pos_I_var : option (list (list R))) (alpha : list (list R))
    (GAUCHE_DROITE V_iso_total : list (list (list R))) (t s s' i j : nat) :
  I_tr <> [] ->
  (t < Z.to_nat nombre_travee)%nat -> (i < Z.to_nat nombre_travee)%nat ->
  (s < Z.to_nat (division + 1))%nat -> (s' < Z.to_nat (division + 1))%nat ->
  (j < Z.to_nat (division + 1))%nat ->
  let V := hyperstatique.V_fleche L_tr E_tr I_tr division nombre_travee
             I_var pos_I_var alpha GAUCHE_DROITE V_iso_total in
  let correction :=
    hyperstatique.calcul_fleche GAUCHE_DROITE.{i}.{t}.[j]
      GAUCHE_DROITE.{i}.{t + 1}.[j] alpha.{t}.[j] L_tr.[t] E_tr.[t] I_tr.[t] in
  let k := (i * Z.to_nat (division + 1) + j)%nat in
  V.{t}.{s}.[k]
  = (if Nat.eqb t i then V_iso_total.{t}.{s}.[j] + correction else correction)
  /\ (t <> i -> V.{t}.{s}.[k] = V.{t}.{s'}.[k]).
Proof.
  intros HI Ht Hi Hs Hs' Hj V correction k. unfold V, k.
  rewrite V_fleche_forme by exact HI.
  rewrite !(surface_entree
              (fun t s i j =>
                 if Nat.eqb t i
                 then V_iso_total.{t}.{s}.[j]
                      + hyperstatique.calcul_fleche GAUCHE_DROITE.{i}.{t}.[j]
                          GAUCHE_DROITE.{i}.{t + 1}.[j] alpha.{t}.[j]
                          L_tr.[t] E_tr.[t] I_tr.[t]
                 else hyperstatique.calcul_fleche GAUCHE_DROITE.{i}.{t}.[j]
                          GAUCHE_DROITE.{i}.{t + 1}.[j] alpha.{t}.[j]
                          L_tr.[t] E_tr.[t] I_tr.[t])) by assumption.
  split; [reflexivity|].
  intros Hne. destruct (Nat.eqb_spec t i); [contradiction | reflexivity].
Qed.

Lemma fleche_superposition_witness :
  (hyperstatique.V_fleche [4; 6] [1; 1] [1; 1] 1 2 None None [[0; 4]; [0; 6]]
     [[[0; 1]; [2; 3]; [0; 0]]; [[0; 0]; [5; 7]; [0; 0]]]
     [[[0; 0]; [0; 0]]; [[0; 0]; [0; 0]]]).{0}.{0}.[1 * Z.to_nat (1 + 1) + 1]
  = hyperstatique.calcul_fleche 0 7 4 4 1 1.
Proof.
  apply (fleche_superposition [4; 6] [1; 1] [1; 1] 1 2 None None
           [[0; 4]; [0; 6]]
           [[[0; 1]; [2; 3]; [0; 0]]; [[0; 0]; [5; 7]; [0; 0]]]
           [[[0; 0]; [0; 0]]; [[0; 0]; [0; 0]]] 0 0 1 1 1);
    try discriminate; simpl; lia.
Defined.

(** ** A load placed on a support *)

Lemma omega_extremites (self : isostatique.t) (j : nat) :
  isostatique.I_varer self = [] -> (1 <= isostatique.division self)%Z ->
  j = O \/ j = Z.to_nat (isostatique.division self) ->
  (isostatique.omega_prime self).[j] = 0 /\ (isostatique.omega_second self).[j] = 0.
Proof.
  intros HI Hd Hj. unfold isostatique.omega_prime, isostatique.omega_second.
  rewrite HI.
  rewrite !(nth_map_dans _ _ j 0) by (rewrite length_alpha; lia).
  rewrite nth_alpha by lia.
  destruct Hj as [-> | ->].
  - rewrite point_0 by assumption. split; unfold Rdiv; ring.
  - rewrite point_dernier. split; unfold Rdiv; ring.
Qed.

Lemma fleche_at_extremites (self : isostatique.t) (sigma : R) :
  0 <= sigma <= isostatique.L self ->
  fleche_at self 0 sigma = 0 /\ fleche_at self (isostatique.L self) sigma = 0.
Proof.
  intros [H0 H1]. unfold fleche_at, Rle_b, isostatique.F_gauche, isostatique.F_droite.
  split.
  - destruct (Rle_dec 0 sigma); [|lra]. unfold Rdiv. ring.
  - destruct (Rle_dec (isostatique.L self) sigma).
    + replace sigma with (isostatique.L self) by lra. unfold Rdiv. ring.
    + unfold Rdiv. ring.
Qed.

Section Charge_sur_appui.

Variables (L E I : list R) (d : Z) (phy phy_prime : list R).
Hypothesis d_pos : (1 <= d)%Z.

Lemma omega_tr_extremites (i j : nat) :
  (i < length L)%nat -> j = O \/ j = Z.to_nat d ->
  (hyperstatique.omega_prime_tr (travees_constantes L E I d)).{i}.[j] = 0
  /\ (hyperstatique.omega_second_tr (travees_constantes L E I d)).{i}.[j] = 0.
Proof.
  intros Hi Hj.
  unfold hyperstatique.omega_prime_tr, hyperstatique.omega_second_tr,
    travees_constantes.
  rewrite !map_map, !nth_map_seq by exact Hi.
  cbn [Nat.add travee.base travee.ctor].
  apply omega_extremites; [reflexivity | exact d_pos | exact Hj].
Qed.

Lemma moments_travee_chargee_nuls (i j : nat) :
  (i < length L)%nat -> j = O \/ j = Z.to_nat d ->
  (hyperstatique.moment_au_appuit_travee_charger_gauche d (Z.of_nat (length L)) (travees_constantes L E I d) phy phy_prime).{i}.[j] = 0
  /\ (hyperstatique.moment_au_appuit_travee_charger_droite d (Z.of_nat (length L)) (travees_constantes L E I d) phy phy_prime).{i}.[j] = 0.
Proof.
  intros Hi Hj.
  rewrite moment_gauche_ligne, moment_droite_ligne by (rewrite ?Nat2Z.id; lia).
  unfold hyperstatique.positions.
  rewrite !nth_map_seq by (destruct Hj; lia). cbn [Nat.add].
  destruct (omega_tr_extremites i j Hi Hj) as [-> ->].
  split; unfold Rdiv; ring.
Qed.

Lemma tr_G_D_charge_sur_appui (i k j : nat) :
  (i < length L)%nat -> (k <= length L)%nat -> j = O \/ j = Z.to_nat d ->
  (hyperstatique.tr_G_D d (Z.of_nat (length L)) (travees_constantes L E I d) phy phy_prime).{i}.{k}.[j] = 0.
Proof.
  intros Hi Hk Hj.
  destruct (moments_travee_chargee_nuls i j Hi Hj) as [Hg Hd].
  destruct (Nat.le_gt_cases k i) as [H | H].
  - rewrite tr_G_D_gauche by (rewrite ?Nat2Z.id; lia).
    rewrite nth_map_lineaire by ring. rewrite Hg. ring.
  - rewrite tr_G_D_droite by (rewrite ?Nat2Z.id; lia).
    rewrite nth_map_lineaire by ring. rewrite Hd. ring.
Qed.

End Charge_sur_appui.

(** X23. In a structure built by the constant-inertia constructor from
    spans of positive length, modulus and inertia, a load placed on a
    support (index j = 0 or j = division of any loaded span i) produces no
    moment on any support, and no moment and no deflection at any section
    of any span. *)
Theorem charge_sur_appui (L E I : list R) (d : Z) :
  length E = length L -> length I = length L ->
  (1 <= length L)%nat -> (1 <= d)%Z ->
  (forall t, (t < length L)%nat -> 0 < L.[t] /\ 0 < E.[t] /\ 0 < I.[t]) ->
  exists h,
    hyperstatique.ctor L E I d = Ok h
    /\ forall t s i j,
         (t < length L)%nat -> (s <= Z.to_nat d)%nat -> (i < length L)%nat ->
         j = O \/ j = Z.to_nat d ->
         let k := (i * (Z.to_nat d + 1) + j)%nat in
         (forall a, (a <= length L)%nat ->
            (hyperstatique.GAUCHE_DROITE h).{i}.{a}.[j] = 0)
         /\ (hyperstatique.Courbe_moment_en_travee h).{t}.{s}.[k] = 0
         /\ (hyperstatique.Courbe_fleche_en_travee h).{t}.{s}.[k] = 0.
Proof.
  intros HE HI HL Hd Hpos3.
  assert (Hpos : forall t, (t < length L)%nat -> 0 < L.[t])
    by (intros t Ht; apply Hpos3; exact Ht).
  destruct (ctor_reussit L E I d HE HI HL Hd) as [h Hh].
  exists h. split; [exact Hh|].
  pose proof (ctor_etat L E I d h Hh) as Het. cbv zeta in Het.
  destruct Het as (_ & _ & _ & _ & _ & _ & _ & _ & _ & _ & _ & _ & Halpha
                   & HGD & HMu & _ & HV & _ & _ & HCM & _ & HCV & _).
  assert (HD : Z.to_nat (d + 1) = (Z.to_nat d + 1)%nat) by lia.
  intros t s i j Ht Hs Hi Hj k. unfold k.
  assert (Hjd : (j <= Z.to_nat d)%nat) by (destruct Hj; lia).
  assert (HG : forall a, (a <= length L)%nat ->
                 (hyperstatique.GAUCHE_DROITE h).{i}.{a}.[j] = 0).
  { intros a Ha. rewrite HGD. apply tr_G_D_charge_sur_appui; assumption. }
  pose proof (point_borne (isostatique.ctor L.[t] E.[t] I.[t] d)
                (Hpos t Ht) Hd s Hs) as Hps.
  assert (Hpj : point (isostatique.ctor L.[t] E.[t] I.[t] d) j = 0
                \/ point (isostatique.ctor L.[t] E.[t] I.[t] d) j = L.[t]).
  { destruct Hj as [-> | ->].
    - left. apply point_0; assumption.
    - right. apply (point_dernier (isostatique.ctor L.[t] E.[t] I.[t] d)). }
  split; [exact HG|]. split.
  - rewrite HCM, <- HD.
    rewrite M_flechissant_point
      by (rewrite ?Nat2Z.id, ?Halpha, ?length_grille_travee; lia).
    rewrite !HG by lia.
    replace (hyperstatique.interpolate 0 0 _ _) with 0
      by (unfold hyperstatique.interpolate, Rdiv; ring).
    destruct (Nat.eqb t i); [|reflexivity].
    rewrite HMu, Mu_total_constantes, nth_map_seq by exact Ht. cbn [Nat.add].
    rewrite (moment_flechissant_entree (isostatique.ctor L.[t] E.[t] I.[t] d))
      by (try (apply Hpos; exact Ht); assumption).
    rewrite moment_at_symetrique.
    destruct (moment_extremites (isostatique.ctor L.[t] E.[t] I.[t] d) s)
      as [H0 H1]; [apply Hpos; exact Ht | exact Hd | exact Hs |].
    cbn [isostatique.L isostatique.ctor] in H1.
    destruct Hpj as [-> | ->]; [rewrite H0 | rewrite H1]; ring.
  - rewrite HCV, <- HD.
    rewrite V_fleche_forme
      by (intros ->; cbn [length] in HI; lia).
    rewrite (surface_entree
               (fun t s i j =>
                  if Nat.eqb t i
                  then (hyperstatique.V_iso_total h).{t}.{s}.[j]
                       + hyperstatique.calcul_fleche
                           (hyperstatique.GAUCHE_DROITE h).{i}.{t}.[j]
                           (hyperstatique.GAUCHE_DROITE h).{i}.{t + 1}.[j]
                           (hyperstatique.alpha h).{t}.[j] L.[t] E.[t] I.[t]
                  else hyperstatique.calcul_fleche
                           (hyperstatique.GAUCHE_DROITE h).{i}.{t}.[j]
                           (hyperstatique.GAUCHE_DROITE h).{i}.{t + 1}.[j]
                           (hyperstatique.alpha h).{t}.[j] L.[t] E.[t] I.[t]))
      by (rewrite ?Nat2Z.id; lia).
    rewrite !HG by lia.
    replace (hyperstatique.calcul_fleche 0 0 _ _ _ _) with 0
      by (unfold hyperstatique.calcul_fleche, Rdiv; ring).
    destruct (Nat.eqb t i); [|reflexivity].
    rewrite HV. unfold hyperstatique.V_total, travees_constantes.
    rewrite map_map, nth_map_seq by exact Ht.
    cbn [Nat.add travee.base travee.ctor].
    rewrite (fleche_entree (isostatique.ctor L.[t] E.[t] I.[t] d))
      by (try reflexivity; try (apply Hpos; exact Ht); assumption).
    destruct (fleche_at_extremites (isostatique.ctor L.[t] E.[t] I.[t] d)
                (point (isostatique.ctor L.[t] E.[t] I.[t] d) s) Hps) as [H0 H1].
    cbn [isostatique.L isostatique.ctor] in H1.
    destruct Hpj as [-> | ->]; [rewrite H0 | rewrite H1]; ring.
Qed.

Lemma charge_sur_appui_witness :
  exists h,
    hyperstatique.ctor [4; 5] [1; 1] [1; 1] 2 = Ok h
    /\ (hyperstatique.Courbe_moment_en_travee h).{0}.{1}.[1 * (Z.to_nat 2 + 1) + 0] = 0
    /\ (hyperstatique.Courbe_fleche_en_travee h).{0}.{1}.[1 * (Z.to_nat 2 + 1) + 0] = 0.
Proof.
  destruct (charge_sur_appui [4; 5] [1; 1] [1; 1] 2)
    as (h & Hh & H); try reflexivity; try (simpl; lia).
  - intros [|[|t]] Ht; simpl in *; try lia; repeat split; lra.
  - exists h. split; [exact Hh|].
    destruct (H 0%nat 1%nat 1%nat 0%nat) as (_ & HM & HV); try (simpl; lia).
    split; assumption.
Defined.

(** ** traitement: the areas of the support moments *)

Lemma static_cast_int_petit (n : Z) :
  (0 <= n < 2 ^ 31)%Z -> traitement_autres.static_cast_int n = n.
Proof.
  intros H. unfold traitement_autres.static_cast_int.
  rewrite Z.mod_small by lia. lia.
Qed.

Lemma decouper_morceau (m : Z) (acc : list (list R)) (row cur : list R) :
  row <> [] -> Z.of_nat (length cur + length row) = m ->
  fold_left (fun '(div_M_appuit_par_travee, div_1) v =>
       let div_1 := div_1 ++ [v] in
       if Z.eqb (Z.of_nat (length div_1)) m
       then (div_M_appuit_par_travee ++ [div_1], [])
       else (div_M_appuit_par_travee, div_1)) row (acc, cur)
  = (acc ++ [cur ++ row], []).
Proof.
  revert cur. induction row as [|v row IH]; intros cur Hne Hm; [contradiction|].
  cbn [fold_left]. cbv zeta. rewrite length_app. cbn [length].
  destruct row as [|w row].
  - cbn [length] in Hm.
    destruct (Z.eqb_spec (Z.of_nat (length cur + 1)) m) as [_ | H]; [|lia].
    reflexivity.
  - cbn [length] in Hm.
    destruct (Z.eqb_spec (Z.of_nat (length cur + 1)) m) as [H | _]; [lia|].
    rewrite IH; [| discriminate | rewrite length_app; cbn [length]; lia].
    rewrite <- app_assoc. reflexivity.
Qed.

Lemma decouper_boucle (m : Z) (rows acc : list (list R)) :
  (1 <= m)%Z -> (forall r, In r rows -> Z.of_nat (length r) = m) ->
  fold_left (fun '(div_M_appuit_par_travee, div_1) v =>
       let div_1 := div_1 ++ [v] in
       if Z.eqb (Z.of_nat (length div_1)) m
       then (div_M_appuit_par_travee ++ [div_1], [])
       else (div_M_appuit_par_travee, div_1)) (concat rows) (acc, [])
  = (acc ++ rows, []).
Proof.
  intros Hm. revert acc. induction rows as [|r rows IH]; intros acc Hr.
  - cbn [concat fold_left]. rewrite app_nil_r. reflexivity.
  - cbn [concat]. rewrite fold_left_app.
    rewrite decouper_morceau.
    + cbn [app]. rewrite IH by (intros r' Hr'; apply Hr; right; exact Hr').
      rewrite <- app_assoc. reflexivity.
    + intros ->. specialize (Hr [] (or_introl eq_refl)). cbn [length] in Hr. lia.
    + cbn [length Nat.add]. apply Hr. left. reflexivity.
Qed.

(** Cutting the concatenation of full rows gives the rows back. *)
Lemma decouper_lignes (nombre_morceau : Z) (rows : list (list R)) :
  (0 <= nombre_morceau)%Z ->
  (forall r, In r rows -> length r = Z.to_nat (nombre_morceau + 1)) ->
  (Z.of_nat (length (concat rows)) < 2 ^ 31)%Z ->
  traitement_autres.decouper nombre_morceau (concat rows) = rows.
Proof.
  intros Hnm Hr Hlen. unfold traitement_autres.decouper.
  rewrite static_cast_int_petit by lia.
  rewrite Nat2Z.id, firstn_all.
  assert (Hrow : forall r, In r rows -> (Z.of_nat (length r) < 2 ^ 31)%Z).
  { clear Hr. induction rows as [|r0 rows IH]; intros r Hin; [contradiction|].
    cbn [concat] in Hlen. rewrite length_app in Hlen.
    destruct Hin as [-> | Hin]; [lia | apply IH; [lia | exact Hin]]. }
  destruct rows as [|r0 rows]; [reflexivity|].
  assert (Hpetit : (nombre_morceau + 1 < 2 ^ 31)%Z).
  { specialize (Hr r0 (or_introl eq_refl)).
    specialize (Hrow r0 (or_introl eq_refl)). lia. }
  rewrite Z.mod_small by lia.
  rewrite decouper_boucle; [reflexivity | lia |].
  intros r Hin. rewrite (Hr r Hin). lia.
Qed.

Lemma courbe_M_appuit_ligne (nombre_travee : Z)
    (GAUCHE_DROITE : list (list (list R))) (k : nat) :
  (k < Z.to_nat (nombre_travee + 1))%nat ->
  nth_error (hyperstatique_autres.courbe_M_appuit nombre_travee GAUCHE_DROITE) k
  = Some (concat (map (fun i => GAUCHE_DROITE.{i}.{k})
                      (hyperstatique.travees nombre_travee))).
Proof.
  intros Hk. unfold hyperstatique_autres.courbe_M_appuit.
  rewrite (nth_error_nth' _ []) by (rewrite length_map, length_seq; exact Hk).
  rewrite nth_map_seq by exact Hk. reflexivity.
Qed.

Lemma aire_boucle (Alpha : list (list R)) (f : nat -> list R -> R) :
  forall (pieces : list (list R)) (a : nat) (aire : list R),
  (forall i, (i < length pieces)%nat ->
     exists x, nth_error Alpha (a + i) = Some x
               /\ traitement.trapeze x pieces.{i} = Some (Ok (f (a + i)%nat pieces.{i}))) ->
  fold_left (traitement_autres.aire_pas Alpha)
            (combine (seq a (length pieces)) pieces) (Some (Ok aire))
  = Some (Ok (aire ++ map (fun '(i, p) => f i p)
                          (combine (seq a (length pieces)) pieces))).
Proof.
  induction pieces as [|p pieces IH]; intros a aire H.
  - cbn. rewrite app_nil_r. reflexivity.
  - cbn [length seq combine fold_left map].
    destruct (H O) as (x & Hx & Ht); [cbn [length]; lia|].
    rewrite Nat.add_0_r in Hx, Ht. cbn [nth] in Ht.
    unfold traitement_autres.aire_pas at 2. rewrite Hx, Ht.
    rewrite IH.
    + rewrite <- app_assoc. reflexivity.
    + intros i Hi. destruct (H (S i)) as (x' & Hx' & Ht'); [cbn [length]; lia|].
      exists x'. cbn [nth] in Ht'. rewrite Nat.add_succ_r in Hx', Ht'.
      split; assumption.
Qed.

Lemma length_concat_map {A : Type} (g : A -> list R) (m : nat) (l : list A) :
  (forall x, In x l -> length (g x) = m) ->
  length (concat (map g l)) = (length l * m)%nat.
Proof.
  intros H. induction l as [|x l IH]; cbn [map concat length]; [reflexivity|].
  rewrite length_app, H, IH by (try (left; reflexivity); intros y Hy; apply H; right; exact Hy).
  lia.
Qed.

Lemma map_combine_seq {A B : Type} (f : nat -> A -> B) (g : nat -> A) (n a : nat) :
  map (fun '(i, p) => f i p) (combine (seq a n) (map g (seq a n)))
  = map (fun i => f i (g i)) (seq a n).
Proof.
  revert a. induction n as [|n IH]; intros a; cbn [seq map combine]; [reflexivity|].
  rewrite IH. reflexivity.
Qed.

Lemma alpha_croissante (self : isostatique.t) :
  0 < isostatique.L self -> (1 <= isostatique.division self)%Z ->
  strictement_croissante (isostatique.alpha self).
Proof.
  intros HL Hd i Hi. rewrite length_alpha in Hi.
  rewrite !nth_alpha by lia. apply point_croissant; assumption || lia.
Qed.

Lemma somme_trapezes_nulle (x y : list R) (i n : nat) :
  (forall j, y.[j] = 0) -> somme_trapezes x y i n = 0.
Proof.
  intros Hy. revert i. induction n as [|n IH]; intros i; cbn [somme_trapezes].
  - reflexivity.
  - rewrite IH, !Hy. unfold Rdiv. ring.
Qed.

Lemma aire_M_appuit_somme (N d : Z) (GAUCHE_DROITE : list (list (list R)))
    (grilles : list (list R)) (k : nat) :
  (0 <= d)%Z -> (0 <= N)%Z -> (k <= Z.to_nat N)%nat ->
  (Z.of_nat (Z.to_nat N * (Z.to_nat d + 1)) < 2 ^ 31)%Z ->
  (Z.to_nat N <= length grilles)%nat ->
  (forall i, (i < Z.to_nat N)%nat ->
     length GAUCHE_DROITE.{i}.{k} = (Z.to_nat d + 1)%nat
     /\ length grilles.{i} = (Z.to_nat d + 1)%nat
     /\ strictement_croissante grilles.{i}) ->
  traitement_autres.aire_M_appuit
    (hyperstatique_autres.courbe_M_appuit N GAUCHE_DROITE) grilles d k
  = Some (Ok (map (fun i => somme_trapezes grilles.{i} GAUCHE_DROITE.{i}.{k}
                              0 (Z.to_nat d))
                  (hyperstatique.travees N))).
Proof.
  intros Hd HN Hk Hpetit Hgr H. unfold traitement_autres.aire_M_appuit.
  rewrite courbe_M_appuit_ligne by lia.
  assert (Hlen : length (concat (map (fun i => GAUCHE_DROITE.{i}.{k})
                                     (hyperstatique.travees N)))
                 = (Z.to_nat N * (Z.to_nat d + 1))%nat).
  { rewrite (length_concat_map _ (Z.to_nat d + 1)).
    - unfold hyperstatique.travees. rewrite length_seq. reflexivity.
    - intros i Hi. apply in_seq in Hi. apply H. lia. }
  rewrite decouper_lignes.
  - unfold enumerate, hyperstatique.travees. rewrite length_map, length_seq.
    pose proof (aire_boucle grilles
                  (fun i p => somme_trapezes grilles.{i} p 0 (Z.to_nat d))
                  (map (fun i => GAUCHE_DROITE.{i}.{k}) (seq 0 (Z.to_nat N)))
                  0 []) as Hb.
    rewrite length_map, length_seq in Hb. rewrite Hb.
    + cbn [app]. rewrite map_combine_seq. reflexivity.
    + intros i Hi. destruct (H i Hi) as (HG & Hx & Hc).
      exists grilles.{i}. cbn [Nat.add].
      split; [apply nth_error_nth'; lia|].
      rewrite nth_map_seq by exact Hi. cbn [Nat.add].
      destruct (trapeze_somme grilles.{i} GAUCHE_DROITE.{i}.{k})
        as (r & Hr & ->).
      * intros He. rewrite He in Hx. cbn [length] in Hx. lia.
      * rewrite Hx.
        assert (Z.to_nat d + 1 <= Z.to_nat N * (Z.to_nat d + 1))%nat by nia.
        lia.
      * rewrite Hx, HG. reflexivity.
      * exact Hc.
      * rewrite Hr, Hx. replace (Z.to_nat d + 1 - 1)%nat with (Z.to_nat d) by lia.
        reflexivity.
  - exact Hd.
  - intros r Hr. apply in_map_iff in Hr. destruct Hr as (i & <- & Hi).
    apply in_seq in Hi. destruct (H i) as (HG & _); [lia|]. rewrite HG. lia.
  - rewrite Hlen. exact Hpetit.
Qed.



(** X25. In a structure built by the constant-inertia constructor from
    spans of positive length, modulus and inertia (N*(division+1) fitting an
    int), aire_M_appuit returns for every support one area per span,
    without any error of trapeze, and the areas of the first and of the last
    support are all null. *)
Theorem aires_appuis_structure (L E I : list R) (d : Z) :
  length E = length L -> length I = length L ->
  (1 <= length L)%nat -> (1 <= d)%Z ->
  (forall t, (t < length L)%nat -> 0 < L.[t] /\ 0 < E.[t] /\ 0 < I.[t]) ->
  (Z.of_nat (length L * (Z.to_nat d + 1)) < 2 ^ 31)%Z ->
  exists h,
    hyperstatique.ctor L E I d = Ok h
    /\ let M_appuit :=
         hyperstatique_autres.courbe_M_appuit (hyperstatique.nombre_travee h)
           (hyperstatique.GAUCHE_DROITE h) in
       (forall k, (k <= length L)%nat ->
          exists aires,
            traitement_autres.aire_M_appuit M_appuit (hyperstatique.alpha h) d k
            = Some (Ok aires)
            /\ length aires = length L)
       /\ traitement_autres.aire_M_appuit M_appuit (hyperstatique.alpha h) d 0
          = Some (Ok (repeat 0 (length L)))
       /\ traitement_autres.aire_M_appuit M_appuit (hyperstatique.alpha h) d (length L)
          = Some (Ok (repeat 0 (length L))).
Proof.
  intros HE HI HL Hd Hpos3 Hpetit.
  assert (Hpos : forall t, (t < length L)%nat -> 0 < L.[t])
    by (intros t Ht; apply Hpos3; exact Ht).
  destruct (ctor_reussit L E I d HE HI HL Hd) as [h Hh].
  exists h. split; [exact Hh|].
  pose proof (ctor_etat L E I d h Hh) as Het. cbv zeta in Het.
  destruct Het as (_ & _ & _ & _ & _ & _ & _ & _ & HN & _ & Hphy & Hphy' & Halpha
                   & HGD & _).
  assert (HD : Z.to_nat (d + 1) = (Z.to_nat d + 1)%nat) by lia.
  assert (Haire : forall k, (k <= length L)%nat ->
            traitement_autres.aire_M_appuit
              (hyperstatique_autres.courbe_M_appuit (hyperstatique.nombre_travee h)
                 (hyperstatique.GAUCHE_DROITE h)) (hyperstatique.alpha h) d k
            = Some (Ok (map (fun i =>
                         somme_trapezes (hyperstatique.alpha h).{i}
                           (hyperstatique.GAUCHE_DROITE h).{i}.{k} 0 (Z.to_nat d))
                       (seq 0 (length L))))).
  { intros k Hk. rewrite HN.
    rewrite aire_M_appuit_somme; rewrite ?Nat2Z.id; try lia.
    - unfold hyperstatique.travees. rewrite Nat2Z.id. reflexivity.
    - rewrite Halpha, abscisse_constantes, length_map, length_seq. lia.
    - intros i Hi.
      split; [rewrite HGD, tr_G_D_colonnes by (rewrite ?Nat2Z.id; lia); exact HD|].
      rewrite Halpha, abscisse_constantes, nth_map_seq by exact Hi.
      cbn [Nat.add].
      split; [apply length_alpha|].
      apply alpha_croissante; [apply Hpos; exact Hi | exact Hd]. }
  assert (Hnul : forall k,
            (forall i j, (hyperstatique.GAUCHE_DROITE h).{i}.{k}.[j] = 0) ->
            map (fun i =>
                   somme_trapezes (hyperstatique.alpha h).{i}
                     (hyperstatique.GAUCHE_DROITE h).{i}.{k} 0 (Z.to_nat d))
                (seq 0 (length L))
            = repeat 0 (length L)).
  { intros k Hk. generalize 0%nat at 2. generalize (length L).
    induction n as [|n IH]; intros a; cbn [seq map repeat]; [reflexivity|].
    rewrite IH, somme_trapezes_nulle by (intros j; apply Hk). reflexivity. }
  destruct (ratios_extremes
              (hyperstatique.a_tr (travees_constantes L E I d))
              (hyperstatique.b_tr (travees_constantes L E I d))
              (hyperstatique.c_tr (travees_constantes L E I d))
              (length L) HL) as [H0 Hder].
  cbv zeta. split; [|split].
  - intros k Hk. eexists. split; [apply Haire; exact Hk|].
    rewrite length_map, length_seq. reflexivity.
  - rewrite Haire by lia. rewrite Hnul; [reflexivity|].
    intros i j. rewrite HGD. apply tr_G_D_premier_appui. rewrite Hphy. exact H0.
  - rewrite Haire by lia. rewrite Hnul; [reflexivity|].
    intros i j. rewrite HGD.
    pose proof (tr_G_D_dernier_appui d (Z.of_nat (length L))
                  (travees_constantes L E I d) (hyperstatique.phy h)
                  (hyperstatique.phy_prime h) i j) as Hfin.
    rewrite Nat2Z.id in Hfin. apply Hfin. rewrite Hphy'. exact Hder.
Qed.

Lemma aires_appuis_structure_witness :
  exists h,
    hyperstatique.ctor [4; 5] [1; 1] [1; 1] 2 = Ok h
    /\ traitement_autres.aire_M_appuit
         (hyperstatique_autres.courbe_M_appuit (hyperstatique.nombre_travee h)
            (hyperstatique.GAUCHE_DROITE h)) (hyperstatique.alpha h) 2 0
       = Some (Ok (repeat 0 (length [4; 5]))).
Proof.
  destruct (aires_appuis_structure [4; 5] [1; 1] [1; 1] 2)
    as (h & Hh & _ & H0 & _); try reflexivity; try (simpl; lia).
  - intros [|[|t]] Ht; simpl in *; try lia; repeat split; lra.
  - exists h. split; assumption.
Defined.

(** ** traitement: the compensated sum *)

Lemma sum_boucle (vecteur : list R) (s : R) :
  fold_left (fun '(sum, c) i =>
       let y := i - c in
       let t := sum + y in
       (t, (t - sum) - y)) vecteur (s, 0)
  = (s + fold_right Rplus 0 vecteur, 0).
Proof.
  revert s. induction vecteur as [|v vecteur IH]; intros s; cbn [fold_left fold_right].
  - f_equal. ring.
  - cbv zeta.
    replace (s + (v - 0) - s - (v - 0)) with 0 by ring.
    rewrite IH. f_equal. ring.
Qed.

(** X26. sum(vecteur) in exact arithmetic: the compensation term of the
    Kahan loop is null at every turn, the result is the plain sum of the
    values, and the sum of a concatenation is the sum of the sums. *)
Theorem sum_exacte (u v : list R) :
  traitement_autres.sum u = fold_right Rplus 0 u
  /\ traitement_autres.sum (u ++ v)
     = traitement_autres.sum u + traitement_autres.sum v.
Proof.
  unfold traitement_autres.sum. rewrite !sum_boucle. cbn [fst].
  split; [ring|].
  rewrite fold_right_app.
  assert (G : forall (l : list R) (a : R),
            fold_right Rplus a l = fold_right Rplus 0 l + a).
  { induction l as [|x l IH]; intros a; cbn [fold_right]; [ring|].
    rewrite IH. ring. }
  rewrite (G u). ring.
Qed.

(** ** travee: the coefficient c of a table of one repeated value *)

(** X27. For a table that gives the same inertia v on every segment of any
    partition 0 = x0, ..., xn = L of the span, the sum of c() telescopes to
    L/(E v): three times the value L/(3 E v) that a() returns for the same
    table and that c() returns for the constant inertia v. *)
Theorem coefficient_c_table_uniforme (L E v Inertie : R) (I pos : list R)
    (base : isostatique.t) :
  L <> 0 -> E <> 0 -> v <> 0 ->
  I <> [] -> length pos = length I ->
  pos.[0] = 0 -> last pos 0 = L ->
  (forall i, (i < length I)%nat -> I.[i] = v) ->
  let tr := travee.mk base E L Inertie pos I in
  travee.c tr = L / (E * v)
  /\ travee.c tr = 3 * travee.a tr
  /\ travee.c tr = 3 * travee.c (travee.ctor L E v (isostatique.division base)).
Proof.
  intros HL HE Hv HI Hlen H0 Hl Hu tr.
  assert (Hn : pos.[length pos - 1] = L) by (rewrite <- last_nth; exact Hl).
  assert (Hpos : (1 <= length pos)%nat)
    by (rewrite Hlen; destruct I; [contradiction | cbn [length]; lia]).
  assert (Hc : travee.c tr = L / (E * v)).
  { unfold travee.c, travee.somme_segments.
    cbn [tr travee.I_varer travee.pos_I_varier travee.longueur travee.Young].
    destruct I as [|v0 Iv] eqn:EI; [contradiction|]. rewrite <- EI in *.
    rewrite (somme_telescope (fun i => (1 / v) * pos.[i] ^ 3)).
    - rewrite Hn, H0. field. repeat split; assumption.
    - intros i Hi. rewrite Hu by lia. ring. }
  assert (Ha : travee.a tr = L / (3 * E * v)).
  { unfold travee.a, travee.somme_segments.
    cbn [tr travee.I_varer travee.pos_I_varier travee.longueur travee.Young].
    destruct I as [|v0 Iv] eqn:EI; [contradiction|]. rewrite <- EI in *.
    rewrite (somme_telescope (fun i => (1 / v) * (1 - pos.[i] / L) ^ 3)).
    - rewrite Hn, H0. field. repeat split; assumption.
    - intros i Hi. rewrite Hu by lia. ring. }
  split; [exact Hc|]. split.
  - rewrite Hc, Ha. field. split; assumption.
  - rewrite Hc. unfold travee.c, travee.ctor.
    cbn [travee.I_varer travee.longueur travee.Young travee.Inertie].
    field. split; assumption.
Qed.

Lemma coefficient_c_table_uniforme_witness :
  travee.c (travee.mk (isostatique.ctor 6 2 5 4) 2 6 0 [0; 1; 4; 6] [5; 5; 5; 5])
  = 6 / (2 * 5).
Proof.
  apply (coefficient_c_table_uniforme 6 2 5 0 [5; 5; 5; 5] [0; 1; 4; 6]);
    try lra; try discriminate; try reflexivity.
  intros [|[|[|[|i]]]] Hi; cbn [length nth] in *; reflexivity || lia.
Defined.

(** ** traitement: the areas of the sign lobes of a row *)

Lemma strictement_croissante_indices (x : list R) (i j : nat) :
  strictement_croissante x -> (i < j < length x)%nat -> x.[i] < x.[j].
Proof.
  intros Hx [Hij Hj]. induction j as [|j IH]; [lia|].
  destruct (Nat.eq_dec i j) as [-> | Hne].
  - apply Hx. exact Hj.
  - apply Rlt_trans with x.[j]; [apply IH; lia | apply Hx; exact Hj].
Qed.

Lemma indices_croissants_identite (l : list nat) :
  (forall a b, (a < b < length l)%nat -> (nth a l O < nth b l O)%nat) ->
  (forall k, (k < length l)%nat -> (nth k l O < length l)%nat) ->
  l = seq 0 (length l).
Proof.
  intros Hc Hb.
  assert (Hmin : forall k, (k < length l)%nat -> (k <= nth k l O)%nat).
  { induction k as [|k IH]; intros Hk; [lia|].
    specialize (IH ltac:(lia)). specialize (Hc k (S k) ltac:(lia)). lia. }
  assert (Hmax : forall j, (j < length l)%nat ->
                   (nth (length l - 1 - j) l O <= length l - 1 - j)%nat).
  { induction j as [|j IH]; intros Hj.
    - specialize (Hb (length l - 1 - 0)%nat ltac:(lia)). lia.
    - specialize (IH ltac:(lia)).
      specialize (Hc (length l - 1 - S j)%nat (length l - 1 - j)%nat ltac:(lia)).
      lia. }
  apply (nth_ext _ _ O O); [rewrite length_seq; reflexivity|].
  intros k Hk. rewrite seq_nth by exact Hk. cbn [Nat.add].
  specialize (Hmin k Hk). specialize (Hmax (length l - 1 - k)%nat ltac:(lia)).
  replace (length l - 1 - (length l - 1 - k))%nat with k in Hmax by lia. lia.
Qed.

(** On strictly increasing abscissas a sort has nothing to move. *)
Lemma tri_identite (cles : list R) (indices : list nat) :
  est_un_tri cles indices -> strictement_croissante cles ->
  indices = seq 0 (length cles).
Proof.
  intros [Hp Hs] Hc.
  assert (Hlen : length indices = length cles)
    by (rewrite (Permutation_length Hp), length_seq; reflexivity).
  assert (Hin : forall k, (k < length indices)%nat ->
                  (nth k indices O < length cles)%nat).
  { intros k Hk.
    assert (H : In (nth k indices O) (seq 0 (length cles)))
      by (apply (Permutation_in _ Hp); apply nth_In; exact Hk).
    apply in_seq in H. lia. }
  assert (Hnd : NoDup indices)
    by (apply (Permutation_NoDup (Permutation_sym Hp)); apply seq_NoDup).
  rewrite <- Hlen. apply indices_croissants_identite.
  - intros a b Hab.
    destruct (Nat.lt_trichotomy (nth a indices O) (nth b indices O))
      as [Hlt | [Heq | Hgt]]; [exact Hlt | |].
    + exfalso. rewrite (NoDup_nth indices O) in Hnd.
      specialize (Hnd a b ltac:(lia) ltac:(lia) Heq). lia.
    + exfalso. apply (Hs a b Hab).
      apply strictement_croissante_indices; [exact Hc|].
      split; [exact Hgt | apply Hin; lia].
  - intros k Hk. rewrite Hlen. apply Hin. exact Hk.
Qed.

Lemma firstn_pousse {A : Type} (l : list A) (k : nat) (d : A) :
  (k < length l)%nat -> firstn (S k) l = firstn k l ++ [nth k l d].
Proof.
  revert k. induction l as [|x l IH]; intros k Hk; cbn [length] in Hk; [lia|].
  destruct k as [|k]; [reflexivity|].
  cbn [firstn nth app]. rewrite <- IH by lia. reflexivity.
Qed.

Lemma map_nth_firstn (l : list R) (m : nat) :
  (m <= length l)%nat -> map (fun i => l.[i]) (seq 0 m) = firstn m l.
Proof.
  intros Hm. induction m as [|m IH]; [reflexivity|].
  rewrite seq_S, map_app, IH by lia. cbn [map Nat.add].
  symmetry. apply firstn_pousse. lia.
Qed.

Lemma sans_doublons_croissante (abscisses moments : list R) :
  abscisses <> [] -> length abscisses = length moments ->
  strictement_croissante abscisses ->
  traitement_autres.sans_doublons abscisses moments = (abscisses, moments).
Proof.
  intros Hne Hlen Hc. unfold traitement_autres.sans_doublons.
  assert (Hn : (1 <= length abscisses)%nat)
    by (destruct abscisses; [contradiction | cbn [length]; lia]).
  assert (G : forall j, (j <= length abscisses - 1)%nat ->
            fold_left (fun '(abscisses_uniques, moments_uniques) i =>
                if negb (Req_b abscisses.[i] abscisses.[i - 1])
                then (abscisses_uniques ++ [abscisses.[i]],
                      moments_uniques ++ [moments.[i]])
                else (abscisses_uniques, moments_uniques))
              (seq 1 j) ([abscisses.[0]], [moments.[0]])
            = (firstn (S j) abscisses, firstn (S j) moments)).
  { induction j as [|j IH]; intros Hj.
    - cbn [seq fold_left].
      rewrite (firstn_pousse abscisses 0 0), (firstn_pousse moments 0 0) by lia.
      reflexivity.
    - rewrite seq_S, fold_left_app, IH by lia. cbn [fold_left Nat.add].
      replace (S j - 1)%nat with j by lia.
      unfold Req_b. destruct (Req_dec_T abscisses.[S j] abscisses.[j]) as [He | _].
      + exfalso. specialize (Hc j ltac:(lia)). lra.
      + cbn [negb].
        rewrite (firstn_pousse abscisses (S j) 0), (firstn_pousse moments (S j) 0)
          by lia.
        reflexivity. }
  rewrite G by lia.
  replace (S (length abscisses - 1)) with (length abscisses) by lia.
  rewrite firstn_all, Hlen, firstn_all. reflexivity.
Qed.

Lemma somme_trapezes_ext (x x' y : list R) (n : nat) :
  forall i, (forall k, (i <= k <= i + n)%nat -> x.[k] = x'.[k]) ->
  somme_trapezes x y i n = somme_trapezes x' y i n.
Proof.
  induction n as [|n IH]; intros i H; cbn [somme_trapezes]; [reflexivity|].
  rewrite (H i), (H (S i)) by lia. rewrite (IH (S i)) by (intros k Hk; apply H; lia).
  reflexivity.
Qed.

Lemma firstn_croissante (x : list R) (m : nat) :
  strictement_croissante x -> strictement_croissante (firstn m x).
Proof.
  intros Hx i Hi. rewrite length_firstn in Hi.
  rewrite !nth_firstn.
  destruct (Nat.ltb_spec i m), (Nat.ltb_spec (S i) m); try lia.
  apply Hx. lia.
Qed.

Section Lobes.

Variable trier : list R -> list nat.
Hypothesis trier_correct : forall cles, est_un_tri cles (trier cles).

Variable abscisses : list R.
Hypothesis abscisses_croissantes : strictement_croissante abscisses.
Hypothesis abscisses_taille : (Z.of_nat (length abscisses) <= 2 ^ 64)%Z.

Lemma aire_partie_croissante (partie : list R) :
  partie <> [] -> (length partie <= length abscisses)%nat ->
  traitement_autres.aire_partie trier abscisses partie
  = Some (Ok (aire_lobe abscisses partie)).
Proof.
  intros Hne Hm. unfold traitement_autres.aire_partie.
  assert (Hp : (1 <= length partie)%nat)
    by (destruct partie; [contradiction | cbn [length]; lia]).
  destruct abscisses as [|a0 ab] eqn:Eab; [cbn [length] in Hm; lia|].
  rewrite <- Eab in *.
  assert (Hmap : map (fun i => abscisses.[i mod length abscisses])
                     (seq 0 (length partie))
                 = firstn (length partie) abscisses).
  { rewrite <- map_nth_firstn by exact Hm. apply map_ext_in.
    intros i Hi. apply in_seq in Hi. rewrite Nat.mod_small by lia. reflexivity. }
  rewrite Hmap.
  assert (Hlf : length (firstn (length partie) abscisses) = length partie)
    by (rewrite length_firstn; lia).
  rewrite (tri_identite _ _ (trier_correct _)
             (firstn_croissante abscisses (length partie) abscisses_croissantes)).
  rewrite Hlf.
  rewrite <- Hlf at 1. rewrite map_nth_seq, map_nth_seq.
  rewrite sans_doublons_croissante;
    [| intros He; rewrite He in Hlf; cbn [length] in Hlf; lia
     | exact Hlf
     | apply firstn_croissante; exact abscisses_croissantes].
  rewrite Hlf. unfold aire_lobe.
  destruct (Nat.ltb_spec (length partie) 2) as [Hpetit | Hgrand].
  - replace (length partie - 1)%nat with O by lia. reflexivity.
  - destruct (trapeze_somme (firstn (length partie) abscisses) partie)
      as (r & Hr & ->).
    + intros He; rewrite He in Hlf; cbn [length] in Hlf; lia.
    + rewrite Hlf. lia.
    + exact Hlf.
    + apply firstn_croissante. exact abscisses_croissantes.
    + rewrite Hr, Hlf. f_equal. f_equal.
      apply somme_trapezes_ext. intros k Hk. rewrite nth_firstn.
      destruct (Nat.ltb_spec k (length partie)); [reflexivity | lia].
Qed.

Lemma aires_parties_croissantes (parties : list (list R)) :
  (forall p, In p parties -> p <> [] /\ (length p <= length abscisses)%nat) ->
  traitement_autres.aires_parties trier abscisses parties
  = Some (Ok (map (aire_lobe abscisses) parties)).
Proof.
  intros H. unfold traitement_autres.aires_parties.
  set (pas := fun (acc : option (outcome (list R))) (partie : list R) => _).
  assert (G : forall aires,
            fold_left pas parties (Some (Ok aires))
            = Some (Ok (aires ++ map (aire_lobe abscisses) parties))).
  { induction parties as [|p parties IH]; intros aires.
    - cbn [fold_left map]. rewrite app_nil_r. reflexivity.
    - cbn [fold_left map].
      destruct (H p (or_introl eq_refl)) as [Hne Hlen].
      unfold pas at 2.
      destruct p as [|v p]; [contradiction|].
      rewrite aire_partie_croissante by assumption.
      rewrite IH by (intros q Hq; apply H; right; exact Hq).
      rewrite <- app_assoc. reflexivity. }
  apply (G []).
Qed.

End Lobes.

Lemma inserer_permutation (cles : list R) (i : nat) (l : list nat) :
  Permutation (inserer cles i l) (i :: l).
Proof.
  induction l as [|j l IH]; cbn [inserer]; [apply Permutation_refl|].
  destruct (Rlt_b cles.[i] cles.[j]); [apply Permutation_refl|].
  apply Permutation_trans with (j :: i :: l);
    [apply perm_skip; exact IH | apply perm_swap].
Qed.

Lemma inserer_trie (cles : list R) (i : nat) (l : list nat) :
  StronglySorted (fun a b => cles.[a] <= cles.[b]) l ->
  StronglySorted (fun a b => cles.[a] <= cles.[b]) (inserer cles i l).
Proof.
  intros Hl. induction Hl as [|j l Hl IH Hj]; cbn [inserer].
  - constructor; constructor.
  - unfold Rlt_b. destruct (Rlt_dec cles.[i] cles.[j]) as [Hlt | Hge].
    + constructor; [constructor; assumption|].
      constructor; [lra|].
      apply Forall_forall. intros k Hk.
      rewrite Forall_forall in Hj. specialize (Hj k Hk). lra.
    + constructor; [exact IH|].
      apply Forall_forall. intros k Hk.
      apply (Permutation_in _ (inserer_permutation cles i l)) in Hk.
      destruct Hk as [<- | Hk]; [lra|].
      rewrite Forall_forall in Hj. apply Hj. exact Hk.
Qed.

Lemma trie_par_indices (cles : list R) (l : list nat) :
  StronglySorted (fun a b => cles.[a] <= cles.[b]) l ->
  forall a b, (a < b < length l)%nat -> cles.[nth a l O] <= cles.[nth b l O].
Proof.
  intros Hl. induction Hl as [|j l Hl IH Hj]; intros a b Hab;
    cbn [length] in Hab; [lia|].
  destruct b as [|b]; [lia|]. destruct a as [|a]; cbn [nth].
  - rewrite Forall_forall in Hj. apply Hj. apply nth_In. lia.
  - apply IH. lia.
Qed.

Lemma tri_insertion_correct (cles : list R) : est_un_tri cles (tri_insertion cles).
Proof.
  unfold est_un_tri, tri_insertion.
  generalize (seq 0 (length cles)) as s. intros s.
  assert (Hp : Permutation (fold_right (inserer cles) [] s) s).
  { induction s as [|i s IH]; cbn [fold_right]; [apply Permutation_refl|].
    apply Permutation_trans with (i :: fold_right (inserer cles) [] s);
      [apply inserer_permutation | apply perm_skip; exact IH]. }
  assert (Hs : StronglySorted (fun a b => cles.[a] <= cles.[b])
                 (fold_right (inserer cles) [] s)).
  { clear Hp. induction s as [|i s IH]; cbn [fold_right]; [constructor|].
    apply inserer_trie. exact IH. }
  split; [exact Hp|].
  intros a b Hab Hlt. pose proof (trie_par_indices cles _ Hs a b Hab). lra.
Qed.

Lemma split_by_sign_parties (input : list R) :
  concat (traitement.split_by_sign input) = input
  /\ Forall (fun r => r <> [] /\ meme_signe r) (traitement.split_by_sign input)
  /\ (input <> [] -> traitement.split_by_sign input <> []).
Proof.
  destruct input as [|premier reste].
  - cbn. split; [reflexivity|]. split; [constructor | intros H; contradiction].
  - rewrite split_by_sign_grouper.
    split; [apply concat_grouper|].
    destruct (grouper_runs reste [premier] (traitement.signe premier))
      as (t & q & Hg & _ & HF & _).
    { split; [discriminate|]. intros w [Hw | []]. subst. reflexivity. }
    rewrite Hg. split; [exact HF | intros _; discriminate].
Qed.

Lemma length_dans_concat {A : Type} (r : list A) (runs : list (list A)) :
  In r runs -> (length r <= length (concat runs))%nat.
Proof.
  induction runs as [|r0 runs IH]; intros H; [contradiction|].
  cbn [concat]. rewrite length_app. destruct H as [-> | H]; [lia|].
  specialize (IH H). lia.
Qed.

Lemma aire_lobe_signe (abscisses partie : list R) :
  strictement_croissante abscisses ->
  partie <> [] -> meme_signe partie ->
  (length partie <= length abscisses)%nat ->
  (signe_run partie = true -> 0 <= aire_lobe abscisses partie)
  /\ (signe_run partie = false -> aire_lobe abscisses partie <= 0).
Proof.
  intros Hc Hne Hs Hlen. unfold aire_lobe.
  assert (Hp : (1 <= length partie)%nat)
    by (destruct partie; [contradiction | cbn [length]; lia]).
  destruct (somme_trapezes_signe abscisses partie (length partie - 1) 0)
    as [Hpos Hneg].
  { intros k Hk. left. apply Hc. lia. }
  assert (Hsig : forall k, (k < length partie)%nat ->
                   traitement.signe partie.[k] = signe_run partie).
  { intros k Hk. unfold signe_run. apply Hs; [apply nth_In; exact Hk|].
    destruct partie; [contradiction | left; reflexivity]. }
  split; intros Hr.
  - apply Hpos. intros k Hk. specialize (Hsig k ltac:(lia)). rewrite Hr in Hsig.
    unfold traitement.signe, Rle_b in Hsig.
    destruct (Rle_dec 0 partie.[k]); [assumption | discriminate].
  - apply Hneg. intros k Hk. specialize (Hsig k ltac:(lia)). rewrite Hr in Hsig.
    unfold traitement.signe, Rle_b in Hsig.
    destruct (Rle_dec 0 partie.[k]); [discriminate | lra].
Qed.

Lemma length_reduire (abscisses moments : list R) :
  length (traitement_autres.reduire abscisses moments) = length abscisses.
Proof.
  unfold traitement_autres.reduire. rewrite length_map, length_seq. reflexivity.
Qed.

(** X28. aire_M_travee_section on valid indices and a grid of strictly
    increasing abscissas, for any correct sort.  A row shorter than the grid
    gives the dimension error.  Otherwise the row (reduced to one value per
    abscissa when it is longer than the grid) is cut by split_by_sign and
    the call returns one area per part, without any error of trapeze: the
    sum of the trapezoids of the part laid over the FIRST abscissas of the
    grid (a single value gives 0), and each area has the sign of its part. *)
Theorem aires_des_lobes (trier : list R -> list nat)
    (nb_travee nombre_morceau travee section : Z)
    (Alpha : list (list R)) (courbe : list (list (list R)))
    (abscisses moments : list R) :
  (forall cles, est_un_tri cles (trier cles)) ->
  (0 <= travee < nb_travee)%Z -> (0 <= section <= nombre_morceau)%Z ->
  nth_error Alpha (Z.to_nat travee) = Some abscisses ->
  abscisses <> [] -> strictement_croissante abscisses ->
  (Z.of_nat (length abscisses) <= 2 ^ 64)%Z ->
  (travee < Z.of_nat (length courbe) < 2 ^ 31)%Z ->
  (Z.of_nat (length courbe.{Z.to_nat travee}) < 2 ^ 31)%Z ->
  nth_error courbe.{Z.to_nat travee} (Z.to_nat section) = Some moments ->
  let ligne :=
    if Nat.ltb (length abscisses) (length moments)
    then traitement_autres.reduire abscisses moments else moments in
  let parties := traitement.split_by_sign ligne in
  ((length moments < length abscisses)%nat ->
   traitement_autres.aire_M_travee_section trier nb_travee nombre_morceau Alpha
     travee section courbe
   = Some traitement_autres.Mismatch_abscisses_moments)
  /\ ((length abscisses <= length moments)%nat ->
      traitement_autres.aire_M_travee_section trier nb_travee nombre_morceau Alpha
        travee section courbe
      = Some (traitement_autres.Aires (map (aire_lobe abscisses) parties))
      /\ parties <> []
      /\ Forall (fun p =>
           (signe_run p = true -> 0 <= aire_lobe abscisses p)
           /\ (signe_run p = false -> aire_lobe abscisses p <= 0)) parties).
Proof.
  intros Htri Ht Hs HA Hne Hc Hmax Hcourbe Hsurface Hm ligne parties.
  assert (Hsec : (Z.to_nat section < length courbe.{Z.to_nat travee})%nat)
    by (apply nth_error_Some; rewrite Hm; discriminate).
  assert (Hdebut : traitement_autres.aire_M_travee_section trier nb_travee
                     nombre_morceau Alpha travee section courbe
                   = if negb (Nat.eqb (length abscisses) (length ligne))
                     then Some traitement_autres.Mismatch_abscisses_moments
                     else match traitement_autres.aires_parties trier abscisses
                                  (traitement.split_by_sign ligne) with
                          | Some (Ok []) => Some (traitement_autres.Aires [0])
                          | Some (Ok aires) => Some (traitement_autres.Aires aires)
                          | Some (Throw e) => Some (traitement_autres.Erreur_trapeze e)
                          | Some OutOfBounds => Some traitement_autres.Lecture_hors_bornes
                          | None => None
                          end).
  { unfold traitement_autres.aire_M_travee_section.
    destruct (Z.ltb_spec travee 0); [lia|].
    destruct (Z.leb_spec nb_travee travee); [lia|].
    destruct (Z.ltb_spec section 0); [lia|].
    destruct (Z.ltb_spec nombre_morceau section); [lia|].
    cbn [orb]. rewrite HA.
    rewrite !static_cast_int_petit by lia.
    destruct (Z.leb_spec (Z.of_nat (length courbe)) travee); [lia|].
    destruct (Z.leb_spec (Z.of_nat (length courbe.{Z.to_nat travee})) section);
      [lia|].
    cbn [orb]. rewrite Hm. reflexivity. }
  rewrite Hdebut. split.
  - intros Hcourt. unfold ligne.
    destruct (Nat.ltb_spec (length abscisses) (length moments)); [lia|].
    destruct (Nat.eqb_spec (length abscisses) (length moments)); [lia|].
    reflexivity.
  - intros Hlong.
    assert (Hl : length ligne = length abscisses).
    { unfold ligne.
      destruct (Nat.ltb_spec (length abscisses) (length moments));
        [apply length_reduire | lia]. }
    rewrite Hl, Nat.eqb_refl. cbn [negb].
    destruct (split_by_sign_parties ligne) as (Hcat & HF & Hnv).
    fold parties in Hcat, HF, Hnv |- *.
    assert (Hparties : forall p, In p parties ->
              p <> [] /\ meme_signe p /\ (length p <= length abscisses)%nat).
    { intros p Hp. rewrite Forall_forall in HF. destruct (HF p Hp) as [H1 H2].
      split; [exact H1|]. split; [exact H2|].
      rewrite <- Hl, <- Hcat. apply length_dans_concat. exact Hp. }
    assert (Hpne : parties <> []).
    { apply Hnv. intros He. rewrite He in Hl. cbn [length] in Hl.
      destruct abscisses; [contradiction | discriminate]. }
    rewrite (aires_parties_croissantes trier Htri abscisses Hc Hmax)
      by (intros p Hp; destruct (Hparties p Hp) as (H1 & _ & H3); split; assumption).
    split; [| split; [exact Hpne|]].
    + destruct parties as [|p0 q]; [contradiction | reflexivity].
    + apply Forall_forall. intros p Hp.
      destruct (Hparties p Hp) as (H1 & H2 & H3).
      apply aire_lobe_signe; assumption.
Qed.

Lemma aires_des_lobes_witness :
  traitement_autres.aire_M_travee_section tri_insertion 1 2 [[0; 1; 2]] 0 0
    [[[1; 2; -1]]]
  = Some (traitement_autres.Aires
            (map (aire_lobe [0; 1; 2]) (traitement.split_by_sign [1; 2; -1]))).
Proof.
  apply (aires_des_lobes tri_insertion 1 2 0 0 [[0; 1; 2]] [[[1; 2; -1]]]
           [0; 1; 2] [1; 2; -1]); try reflexivity; try (simpl; lia).
  - apply tri_insertion_correct.
  - discriminate.
  - intros [|[|i]] Hi; cbn [length nth] in *; try lia; lra.
Defined.

(** ** hyperstatique: the abscissas of the shear samples and of the beam *)

Lemma remplacer_seul {A : Type} (x y : A) : remplacer 0 x [y] = [x].
Proof. reflexivity. Qed.

Lemma abscisse_des_point_seul (L_tr x : list R) :
  hyperstatique.abscisse_des_point L_tr [x] = x.
Proof.
  unfold hyperstatique.abscisse_des_point. cbn [length seq flat_map fold_left nth].
  rewrite app_nil_r. rewrite <- (map_id x) at 2.
  apply map_ext. intros a. ring.
Qed.

(** X29. For a structure of one span of positive length, modulus and
    inertia built by the constant-inertia constructor, the abscissas of the shear samples that
    T_effort_tranchant(true) collects through Pour_T_hyp and
    abscisse_des_point are exactly those of the span alone: one row per load
    position, the row of abscisse_effort_tranchant(), which has division+2
    abscissas (the load point counts twice). *)
Theorem abscisses_tranchant_une_travee (L E I : R) (d : Z) :
  0 < L -> 0 < E -> 0 < I -> (1 <= d)%Z ->
  exists h,
    hyperstatique.ctor [L] [E] [I] d = Ok h
    /\ hyperstatique.Abscisse_Courbe_effort_tranchant_en_travee h
       = [isostatique.abscisse_effort_tranchant (isostatique.ctor L E I d)]
    /\ forall k, (k <= Z.to_nat d)%nat ->
         length (hyperstatique.Abscisse_Courbe_effort_tranchant_en_travee h).{0}.{k}
         = (Z.to_nat d + 2)%nat.
Proof.
  intros HL _ _ Hd.
  destruct (ctor_reussit [L] [E] [I] d eq_refl eq_refl (le_n 1) Hd) as [h Hh].
  exists h. split; [exact Hh|].
  assert (Hlignes : forall k, (k <= Z.to_nat d)%nat ->
            length (isostatique.abscisse_effort_tranchant
                      (isostatique.ctor L E I d)).{k} = (Z.to_nat d + 2)%nat).
  { intros k Hk. unfold isostatique.abscisse_effort_tranchant.
    rewrite (nth_map_dans _ _ k 0) by (rewrite length_alpha; cbn; lia).
    rewrite nth_alpha by exact Hk.
    pose proof (point_borne (isostatique.ctor L E I d) HL Hd k Hk) as Hb.
    rewrite T_dans by apply Hb.
    rewrite (coordonne_autour (isostatique.ctor L E I d) HL Hd k Hk).
    rewrite !length_app, !length_map, !length_seq. cbn. lia. }
  assert (Hegal : hyperstatique.Abscisse_Courbe_effort_tranchant_en_travee h
                  = [isostatique.abscisse_effort_tranchant (isostatique.ctor L E I d)]);
    [| split; [exact Hegal | rewrite Hegal; exact Hlignes]].
  pose proof (ctor_etat [L] [E] [I] d h Hh) as Het. cbv zeta in Het.
  destruct Het as (_ & _ & _ & _ & _ & _ & _ & _ & _ & _ & _ & _ & Halpha
                   & _ & _ & _ & _ & _ & HaT & _ & _ & _ & _ & HCaT).
  rewrite HCaT, Halpha, HaT.
  change (travees_constantes [L] [E] [I] d) with [travee.ctor L E I d].
  unfold hyperstatique.T_effort_tranchant, hyperstatique.Pour_T_hyp,
    hyperstatique.travees, hyperstatique.abscisse, hyperstatique.abscisse_T_total.
  change (Z.to_nat (Z.of_nat (length [L]))) with 1%nat.
  cbn [seq map nth Nat.eqb travee.base travee.ctor].
  f_equal.
  transitivity (map (fun k => (isostatique.abscisse_effort_tranchant
                                 (isostatique.ctor L E I d)).{k})
                    (seq 0 (length (isostatique.abscisse_effort_tranchant
                                      (isostatique.ctor L E I d)))));
    [| apply map_nth_seq].
  replace (length (isostatique.abscisse_effort_tranchant (isostatique.ctor L E I d)))
    with (Z.to_nat d + 1)%nat
    by (unfold isostatique.abscisse_effort_tranchant;
        rewrite length_map, length_alpha; reflexivity).
  rewrite positions_division by exact Hd.
  apply map_ext. intros k. rewrite remplacer_seul.
  apply abscisse_des_point_seul.
Qed.

Lemma abscisses_tranchant_une_travee_witness :
  exists h,
    hyperstatique.ctor [5] [1] [1] 4 = Ok h
    /\ hyperstatique.Abscisse_Courbe_effort_tranchant_en_travee h
       = [isostatique.abscisse_effort_tranchant (isostatique.ctor 5 1 1 4)].
Proof.
  destruct (abscisses_tranchant_une_travee 5 1 1 4) as (h & Hh & He & _);
    [lra | lra | lra | lia |].
  exists h. split; assumption.
Defined.

Lemma nth_flat_map_seq_dans {A : Type} (f : nat -> list A) (m n i j : nat) (d : A) :
  (forall k, (k < n)%nat -> length (f k) = m) -> (i < n)%nat -> (j < m)%nat ->
  nth (i * m + j) (flat_map f (seq 0 n)) d = nth j (f i) d.
Proof.
  intros Hlen Hi Hj.
  assert (Gen : forall n a i, (forall k, (a <= k < a + n)%nat -> length (f k) = m) ->
                (i < n)%nat ->
                nth (i * m + j) (flat_map f (seq a n)) d = nth j (f (a + i)%nat) d).
  { clear n i Hlen Hi. induction n as [|n IH]; intros a i Hl Hi; [lia|].
    cbn [seq flat_map]. destruct i as [|i].
    - cbn [Nat.mul Nat.add]. rewrite app_nth1 by (rewrite Hl by lia; exact Hj).
      rewrite Nat.add_0_r. reflexivity.
    - rewrite app_nth2 by (rewrite Hl by lia; cbn [Nat.mul]; lia).
      rewrite Hl by lia.
      replace (S i * m + j - m)%nat with (i * m + j)%nat by (cbn [Nat.mul]; lia).
      rewrite IH by (try lia; intros k Hk; apply Hl; lia).
      f_equal. f_equal. lia. }
  rewrite Gen by (try assumption; intros k Hk; apply Hlen; lia). reflexivity.
Qed.

Lemma somme_app (u v : list R) :
  fold_right Rplus 0 (u ++ v) = fold_right Rplus 0 u + fold_right Rplus 0 v.
Proof.
  induction u as [|x u IH]; cbn [app fold_right]; [ring|]. rewrite IH. ring.
Qed.

Lemma somme_longueurs_succ (L_tr : list R) (t : nat) :
  (t < length L_tr)%nat ->
  somme_longueurs L_tr (S t) = somme_longueurs L_tr t + L_tr.[t].
Proof.
  intros Ht. unfold somme_longueurs.
  rewrite (firstn_pousse L_tr t 0) by exact Ht.
  rewrite somme_app. cbn [fold_right]. ring.
Qed.

Lemma origine_travee (L_tr : list R) (t : nat) :
  (t <= length L_tr)%nat ->
  fold_left (fun a conteur => a + L_tr.[conteur - 1]) (seq 1 t) 0
  = somme_longueurs L_tr t.
Proof.
  unfold somme_longueurs. induction t as [|t IH]; intros Ht; [reflexivity|].
  rewrite seq_S, fold_left_app, IH by lia. cbn [fold_left Nat.add].
  replace (S t - 1)%nat with t by lia.
  rewrite (firstn_pousse L_tr t 0) by lia.
  rewrite somme_app. cbn [fold_right]. ring.
Qed.

Lemma abscisse_des_point_entree (L_tr : list R) (liste : list (list R))
    (m t k : nat) :
  (length liste <= length L_tr)%nat ->
  (forall i, (i < length liste)%nat -> length liste.{i} = m) ->
  (t < length liste)%nat -> (k < m)%nat ->
  (hyperstatique.abscisse_des_point L_tr liste).[t * m + k]
  = liste.{t}.[k] + somme_longueurs L_tr t.
Proof.
  intros HL Hm Ht Hk. unfold hyperstatique.abscisse_des_point.
  rewrite (nth_flat_map_seq_dans _ m)
    by (try assumption; intros i Hi; rewrite length_map; apply Hm; exact Hi).
  rewrite (nth_map_dans _ _ k 0) by (rewrite Hm by exact Ht; exact Hk).
  rewrite origine_travee by lia. reflexivity.
Qed.

(** X30. abscisse_des_point on the grids of a structure built by the
    constant-inertia constructor from spans of positive length, modulus and
    inertia whose lengths are binary32 numbers (what initialiser_donnees stores as
    abscisse_total): N*(division+1) abscissas; the point k of the span t lies
    at the sum of the lengths of the spans before t plus its abscissa in the
    span; the abscissas increase strictly inside each span; the vector
    starts at 0 and ends at the total length, and every interior support
    appears twice, as the last point of a span and as the first point of the
    next one. *)
Theorem abscisse_totale (L E I : list R) (d : Z) :
  length E = length L -> length I = length L ->
  (1 <= length L)%nat -> (1 <= d)%Z ->
  (forall t, (t < length L)%nat -> 0 < L.[t] /\ 0 < E.[t] /\ 0 < I.[t]) ->
  (forall t, (t < length L)%nat -> binary32 L.[t]) ->
  exists h,
    hyperstatique.ctor L E I d = Ok h
    /\ let X := hyperstatique.abscisse_des_point L (hyperstatique.alpha h) in
       let D := Z.to_nat d in
       length X = (length L * (D + 1))%nat
       /\ (forall t k, (t < length L)%nat -> (k <= D)%nat ->
             X.[t * (D + 1) + k]
             = somme_longueurs L t + point (isostatique.ctor L.[t] E.[t] I.[t] d) k)
       /\ (forall t k, (t < length L)%nat -> (k < D)%nat ->
             X.[t * (D + 1) + k] < X.[t * (D + 1) + S k])
       /\ X.[0] = 0
       /\ (forall t, (S t < length L)%nat -> X.[t * (D + 1) + D] = X.[S t * (D + 1)])
       /\ X.[length L * (D + 1) - 1] = fold_right Rplus 0 L.
Proof.
  intros HE HI HL Hd Hpos3 _.
  assert (Hpos : forall t, (t < length L)%nat -> 0 < L.[t])
    by (intros t Ht; apply Hpos3; exact Ht).
  destruct (ctor_reussit L E I d HE HI HL Hd) as [h Hh].
  exists h. split; [exact Hh|].
  pose proof (ctor_etat L E I d h Hh) as Het. cbv zeta in Het.
  destruct Het as (_ & _ & _ & _ & _ & _ & _ & _ & _ & _ & _ & _ & Halpha & _).
  cbv zeta. rewrite Halpha.
  assert (Hn : length (hyperstatique.abscisse (travees_constantes L E I d)) = length L)
    by (rewrite abscisse_constantes, length_map, length_seq; reflexivity).
  assert (Hentree : forall t k, (t < length L)%nat -> (k <= Z.to_nat d)%nat ->
            (hyperstatique.abscisse_des_point L
               (hyperstatique.abscisse (travees_constantes L E I d)))
              .[t * (Z.to_nat d + 1) + k]
            = somme_longueurs L t + point (isostatique.ctor L.[t] E.[t] I.[t] d) k).
  { intros t k Ht Hk.
    rewrite (abscisse_des_point_entree L _ (Z.to_nat d + 1))
      by (rewrite ?Hn; try lia; intros i Hi; apply length_grille_travee; lia).
    rewrite grille_travee by assumption. ring. }
  split.
  { unfold hyperstatique.abscisse_des_point.
    rewrite Hn.
    assert (G : forall n a, (a + n <= length L)%nat ->
              length (flat_map (fun i =>
                 map (fun alpha =>
                        alpha + fold_left (fun a conteur => a + L.[conteur - 1])
                                  (seq 1 i) 0)
                     (hyperstatique.abscisse (travees_constantes L E I d)).{i})
                 (seq a n)) = (n * (Z.to_nat d + 1))%nat).
    { induction n as [|n IH]; intros a Ha; [reflexivity|].
      cbn [seq flat_map]. rewrite length_app, length_map, IH by lia.
      rewrite length_grille_travee by lia. lia. }
    apply G. lia. }
  split; [exact Hentree|].
  split.
  { intros t k Ht Hk. rewrite !Hentree by lia.
    apply Rplus_lt_compat_l.
    apply (point_croissant (isostatique.ctor L.[t] E.[t] I.[t] d));
      [apply Hpos; exact Ht | exact Hd | cbn [isostatique.division isostatique.ctor]; lia]. }
  split.
  { pose proof (Hentree O O ltac:(lia) ltac:(lia)) as H0.
    cbn [Nat.mul Nat.add] in H0. rewrite H0.
    rewrite point_0 by exact Hd. unfold somme_longueurs. cbn [firstn fold_right]. ring. }
  split.
  { intros t Ht.
    pose proof (Hentree (S t) O ltac:(lia) ltac:(lia)) as H1.
    rewrite Nat.add_0_r in H1. rewrite H1, Hentree by lia.
    rewrite point_0 by exact Hd.
    replace (point (isostatique.ctor L.[t] E.[t] I.[t] d) (Z.to_nat d)) with L.[t]
      by (symmetry; apply (point_dernier (isostatique.ctor L.[t] E.[t] I.[t] d))).
    rewrite somme_longueurs_succ by lia. ring. }
  replace (length L * (Z.to_nat d + 1) - 1)%nat
    with ((length L - 1) * (Z.to_nat d + 1) + Z.to_nat d)%nat by nia.
  rewrite Hentree by lia.
  replace (point (isostatique.ctor L.[length L - 1] E.[length L - 1]
                    I.[length L - 1] d) (Z.to_nat d))
    with L.[length L - 1]
    by (symmetry;
        apply (point_dernier (isostatique.ctor L.[length L - 1] E.[length L - 1]
                                I.[length L - 1] d))).
  transitivity (somme_longueurs L (S (length L - 1))).
  - rewrite somme_longueurs_succ by lia. ring.
  - replace (S (length L - 1)) with (length L) by lia.
    unfold somme_longueurs. rewrite firstn_all. reflexivity.
Qed.

Lemma abscisse_totale_witness :
  exists h,
    hyperstatique.ctor [4; 5] [1; 1] [1; 1] 2 = Ok h
    /\ (hyperstatique.abscisse_des_point [4; 5] (hyperstatique.alpha h))
         .[0 * (Z.to_nat 2 + 1) + Z.to_nat 2]
       = (hyperstatique.abscisse_des_point [4; 5] (hyperstatique.alpha h))
           .[1 * (Z.to_nat 2 + 1)].
Proof.
  destruct (abscisse_totale [4; 5] [1; 1] [1; 1] 2)
    as (h & Hh & _ & _ & _ & _ & H & _); try reflexivity; try (simpl; lia).
  - intros [|[|t]] Ht; simpl in *; try lia; repeat split; lra.
  - intros [|[|t]] Ht; simpl in *; try lia;
      [apply (binary32_entier 4) | apply (binary32_entier 5)]; reflexivity.
  - exists h. split; [exact Hh|]. apply (H 0%nat). simpl. lia.
Defined.
